(** * A shallow embedding of the finite-element core

    Source: [backend/app/core/fem_engine.py] (class [FEMEngine]) and
    [backend/app/core/solvers.py] (class [AdvancedSolvers]).

    The Python code is stateful: the engine object carries the model store,
    the DOF map and references to numpy / scipy arrays that are copied,
    mutated in place and aliased.  The embedding is therefore monadic: a
    computation takes a [World] (engine fields, solver fields and a heap of
    array objects) and returns either a value or a raised exception, together
    with the world it leaves behind.

    Arithmetic is kept abstract in a class [Scalar]; it is instantiated with
    IEEE-754 binary64 numbers (what Python and numpy compute with) for
    executable examples, and with the real numbers for the identities that
    only hold in exact arithmetic. *)

From Stdlib Require Import ZArith List Floats Reals Lra Lia String.
From stdpp Require Import base option list gmap.

Set Default Proof Using "Type".
(* Decimal literals are rounded to the nearest binary64 number, as in Python. *)
Set Warnings "-inexact-float".

(* ================================================================== *)
(** ** Scalars *)

(** The operations the code performs on Python floats and numpy float64. *)
Class Scalar (F : Type) := {
  fadd : F -> F -> F;
  fsub : F -> F -> F;
  fmul : F -> F -> F;
  fdiv : F -> F -> F;                (* numpy division: never raises *)
  fneg : F -> F;                     (* unary minus *)
  fsqrt : F -> F;                    (* np.sqrt *)
  fabs : F -> F;                     (* np.abs *)
  fltb : F -> F -> bool;             (* < *)
  feqb : F -> F -> bool;             (* == *)
  ffinite : F -> bool;               (* neither an infinity nor a NaN *)
  fofZ : Z -> F;                     (* an int used as a float *)
  fdecimal : Z -> Z -> F;            (* the literal m * 10^e *)
  fpi : F                            (* np.pi *)
}.

(** IEEE-754 binary64. *)
Definition float_ofZ (z : Z) : float :=
  match z with
  | Z0 => 0%float
  | Zpos _ => PrimFloat.of_uint63 (Uint63.of_Z z)
  | Zneg _ => PrimFloat.opp (PrimFloat.of_uint63 (Uint63.of_Z (Z.opp z)))
  end.

Definition float_finite (x : float) : bool :=
  PrimFloat.ltb (PrimFloat.abs x) PrimFloat.infinity.

(** A decimal literal with a non-negative exponent is an integer; with a
    negative one it is the correctly rounded quotient of two integers (both
    exact for the literals of this program). *)
Definition float_decimal (m e : Z) : float :=
  match e with
  | Zneg p => PrimFloat.div (float_ofZ m) (float_ofZ (Z.pow 10 (Zpos p)))
  | _ => float_ofZ (m * Z.pow 10 e)
  end.

#[export] Instance float_scalar : Scalar float := {|
  fadd := PrimFloat.add;
  fsub := PrimFloat.sub;
  fmul := PrimFloat.mul;
  fdiv := PrimFloat.div;
  fneg := PrimFloat.opp;
  fsqrt := PrimFloat.sqrt;
  fabs := PrimFloat.abs;
  fltb := PrimFloat.ltb;
  feqb := PrimFloat.eqb;
  ffinite := float_finite;
  fofZ := float_ofZ;
  fdecimal := float_decimal;
  fpi := 0x1.921fb54442d18p+1%float
|}.

(** Exact (real) arithmetic. *)
Definition R_ltb (x y : R) : bool := if Rlt_dec x y then true else false.
Definition R_eqb (x y : R) : bool := if Req_dec_T x y then true else false.
Definition R_decimal (m e : Z) : R :=
  match e with
  | Zneg p => Rdiv (IZR m) (IZR (Z.pow 10 (Zpos p)))
  | _ => IZR (m * Z.pow 10 e)
  end.

#[export] Instance R_scalar : Scalar R := {|
  fadd := Rplus;
  fsub := Rminus;
  fmul := Rmult;
  fdiv := Rdiv;
  fneg := Ropp;
  fsqrt := sqrt;
  fabs := Rabs;
  fltb := R_ltb;
  feqb := R_eqb;
  ffinite := fun _ => true;
  fofZ := IZR;
  fdecimal := R_decimal;
  fpi := PI
|}.

(* ================================================================== *)
(** ** Exceptions and outcomes *)

(** The Python exception classes the code can meet. *)
Inductive Exn : Type :=
| KeyError (key : option Z)
| IndexError
| ValueError (msg : string)
| TypeError
| AttributeError
| ZeroDivisionError
| OverflowError
| NotImplementedError
| LibraryError (msg : string).      (* raised inside scipy (spsolve, eigsh) *)

(** What running a piece of code gives: a value, or a raised exception. *)
Inductive Res (A : Type) : Type :=
| Val (a : A)
| Exc (e : Exn).
Arguments Val {A} a.
Arguments Exc {A} e.

Definition res_bind {A B} (r : Res A) (k : A -> Res B) : Res B :=
  match r with Val a => k a | Exc e => Exc e end.

(** The text of the ["error"] entry of a failure dict. *)
Inductive ErrorMsg : Type :=
| Str (e : Exn)                      (* str(e) *)
| SolverFailed (e : Exn)             (* f"Solver failed: {str(e)}" *)
| NoConvergence (max_iterations : Z). (* No convergence in n iterations *)

(** The dict a solver returns: [{"success": True, ...}] or
    [{"success": False, "error": ...}]. *)
Inductive Outcome (P : Type) : Type :=
| Success (payload : P)
| Failure (error : ErrorMsg).
Arguments Success {P} payload.
Arguments Failure {P} error.

(* ================================================================== *)
(** ** Python dicts, in insertion order *)

Definition dict (V : Type) : Type := list (Z * V).

Fixpoint dict_get {V} (k : Z) (d : dict V) : option V :=
  match d with
  | [] => None
  | (k', v) :: d' => if Z.eqb k k' then Some v else dict_get k d'
  end.

(** [d[k] = v]: an existing key keeps its position, a new key goes last. *)
Fixpoint dict_set {V} (k : Z) (v : V) (d : dict V) : dict V :=
  match d with
  | [] => [(k, v)]
  | (k', v') :: d' =>
      if Z.eqb k k' then (k, v) :: d' else (k', v') :: dict_set k v d'
  end.

Definition dict_items {V} (d : dict V) : list (Z * V) := d.
Definition dict_values {V} (d : dict V) : list V := map snd d.
Definition dict_keys {V} (d : dict V) : list Z := map fst d.

(** [d[k]]: raises [KeyError] for a missing key. *)
Definition dict_getitem {V} (k : Z) (d : dict V) : Res V :=
  match dict_get k d with
  | Some v => Val v
  | None => Exc (KeyError (Some k))
  end.

(** [l[i]] on a Python list, for [i >= 0]. *)
Definition list_getitem {A} (l : list A) (i : nat) : Res A :=
  match l !! i with
  | Some a => Val a
  | None => Exc IndexError
  end.

(* ================================================================== *)
(** ** The data model *)

Inductive ElementType : Type := TRUSS | BEAM | FRAME | PLATE | SHELL | SOLID.

Module Node.
Record t (F : Type) : Type := mk {
  id : Z; x : F; y : F; z : F;
  dofs : list bool                   (* [Tx, Ty, Tz, Rx, Ry, Rz] *)
}.
Arguments mk {F}.
Arguments id {F}.
Arguments x {F}.
Arguments y {F}.
Arguments z {F}.
Arguments dofs {F}.
End Node.

Module Material.
Record t (F : Type) : Type := mk {
  id : Z; name : string;
  E : F; nu : F; rho : F;
  fy : option F; fu : option F
}.
Arguments mk {F}.
Arguments id {F}.
Arguments name {F}.
Arguments E {F}.
Arguments nu {F}.
Arguments rho {F}.
Arguments fy {F}.
Arguments fu {F}.
End Material.

(** The Python class is called [Section]. *)
Module CrossSection.
Record t (F : Type) : Type := mk {
  id : Z; name : string;
  A : F; Ix : F; Iy : F; Iz : F; J : F;
  Sy : option F; Sz : option F
}.
Arguments mk {F}.
Arguments id {F}.
Arguments name {F}.
Arguments A {F}.
Arguments Ix {F}.
Arguments Iy {F}.
Arguments Iz {F}.
Arguments J {F}.
Arguments Sy {F}.
Arguments Sz {F}.
End CrossSection.

Module Element.
Record t (F : Type) : Type := mk {
  id : Z;
  type : ElementType;
  nodes : list Z;                    (* node ids *)
  material_id : Z;
  section_id : option Z;             (* None by default *)
  thickness : option F
}.
Arguments mk {F}.
Arguments id {F}.
Arguments type {F}.
Arguments nodes {F}.
Arguments material_id {F}.
Arguments section_id {F}.
Arguments thickness {F}.
End Element.

Module Load.
Record t (F : Type) : Type := mk {
  id : Z;
  node_id : option Z;
  element_id : option Z;
  type : string;
  direction : string;
  values : list F                    (* [Fx, Fy, Fz, Mx, My, Mz] *)
}.
Arguments mk {F}.
Arguments id {F}.
Arguments node_id {F}.
Arguments element_id {F}.
Arguments type {F}.
Arguments direction {F}.
Arguments values {F}.
End Load.

Module Constraint.
Record t (F : Type) : Type := mk {
  id : Z;
  node_id : Z;
  dofs : list bool;                  (* True = constrained *)
  values : list F                    (* prescribed displacements *)
}.
Arguments mk {F}.
Arguments id {F}.
Arguments node_id {F}.
Arguments dofs {F}.
Arguments values {F}.
End Constraint.

(* ================================================================== *)
(** ** numpy and scipy.sparse operations

    Only what the two source files use.  Element-wise operations broadcast a
    one-element array as numpy does and raise [ValueError] on any other
    length mismatch.  Powers are repeated products and sums run left to
    right. *)

Section Arrays.
Context {F : Type} {SF : Scalar F}.

Definition f0 : F := fofZ 0.
Definition f1 : F := fofZ 1.
Definition fisnan (x : F) : bool := negb (feqb x x).

(** Python float division raises on a zero divisor; numpy's does not. *)
Definition py_div (x y : F) : Res F :=
  if feqb y f0 then Exc ZeroDivisionError else Val (fdiv x y).

(** Python [x ** 2] on floats raises [OverflowError] when it overflows. *)
Definition py_pow2 (x : F) : Res F :=
  let y := fmul x x in
  if ffinite x && negb (ffinite y) then Exc OverflowError else Val y.

Definition np_zeros (n : nat) : list F := replicate n f0.

(** [u op v] on one-dimensional arrays. *)
Definition np_map2 (op : F -> F -> F) (u v : list F) : Res (list F) :=
  if Nat.eqb (length u) (length v) then Val (zip_with op u v)
  else match u, v with
       | [a], _ => Val (map (op a) v)
       | _, [b] => Val (map (fun a => op a b) u)
       | _, _ => Exc (ValueError "operands could not be broadcast together")
       end.

Definition np_add := np_map2 fadd.
Definition np_sub := np_map2 fsub.

(** [a * u] for a scalar [a]. *)
Definition np_scale (a : F) (u : list F) : list F := map (fmul a) u.

(** [u += v]: the result must have the shape of [u]. *)
Definition np_iadd (u v : list F) : Res (list F) :=
  if Nat.eqb (length u) (length v) then Val (zip_with fadd u v)
  else match v with
       | [b] => Val (map (fun a => fadd a b) u)
       | _ => Exc (ValueError "operands could not be broadcast together")
       end.

(** [np.linalg.norm(u)] = sqrt(u . u). *)
Definition np_dot_self (u : list F) : F :=
  fold_left (fun acc a => fadd acc (fmul a a)) u f0.
Definition np_linalg_norm (u : list F) : F := fsqrt (np_dot_self u).

(** [np.maximum]-style reduction: a NaN wins. *)
Definition np_max2 (a b : F) : F :=
  if fisnan a then a else if fisnan b then b else if fltb a b then b else a.

(** [np.max(np.abs(u))]: raises on an empty array. *)
Definition np_max_abs (u : list F) : Res F :=
  match map fabs u with
  | [] => Exc (ValueError "zero-size array to reduction operation maximum")
  | a :: rest => Val (fold_left np_max2 rest a)
  end.

(** *** Dense two-dimensional arrays (element matrices) *)

Definition matrix : Type := list (list F).

Definition np_zeros2 (n m : nat) : matrix := replicate n (replicate m f0).

Definition mat_get (A : matrix) (i j : nat) : F :=
  default f0 (row ← A !! i; row !! j).

(** [A[i, j] = v] (indices in range in all uses). *)
Definition mat_set (i j : nat) (v : F) (A : matrix) : matrix :=
  match A !! i with
  | Some row => <[i := <[j := v]> row]> A
  | None => A
  end.

Definition np_eye (n : nat) : matrix :=
  map (fun i => map (fun j => if Nat.eqb i j then f1 else f0) (seq 0 n)) (seq 0 n).

Definition mat_ncols (A : matrix) : nat :=
  match A with [] => 0 | row :: _ => length row end.

(** [A.T] *)
Definition mat_transpose (A : matrix) : matrix :=
  map (fun j => map (fun row => default f0 (row !! j)) A) (seq 0 (mat_ncols A)).

(** [A @ B] *)
Definition mat_matmul (A B : matrix) : matrix :=
  map (fun row =>
         map (fun j =>
                fold_left fadd
                  (zip_with fmul row (map (fun brow => default f0 (brow !! j)) B)) f0)
             (seq 0 (mat_ncols B)))
      A.

(** [A.flatten()] (row-major). *)
Definition mat_flatten (A : matrix) : list F := concat A.

(** A matrix-vector product [A @ u] for a dense [A]. *)
Definition mat_matvec (A : matrix) (u : list F) : Res (list F) :=
  if Nat.eqb (mat_ncols A) (length u)
  then Val (map (fun row => fold_left fadd (zip_with fmul row u) f0) A)
  else Exc (ValueError "matmul: dimension mismatch").

(** *** scipy.sparse.csr_matrix

    A shape and the stored entries.  Entries that are not stored read as
    zero and take no part in products. *)

Record csr : Type := mk_csr {
  csr_shape : nat * nat;
  csr_data : gmap (nat * nat) F
}.

(** [csr_matrix((n, m))] *)
Definition csr_empty (n m : nat) : csr := mk_csr (n, m) ∅.

Definition csr_entry (A : csr) (i j : nat) : F := default f0 (csr_data A !! (i, j)).

(** Adding [v] to the stored entry [(i, j)]: duplicate entries sum. *)
Definition csr_accumulate (i j : nat) (v : F) (d : gmap (nat * nat) F)
  : gmap (nat * nat) F :=
  match d !! (i, j) with
  | Some old => <[(i, j) := fadd old v]> d
  | None => <[(i, j) := v]> d
  end.

Definition index_ok (n : nat) (i : Z) : bool := (0 <=? i)%Z && (i <? Z.of_nat n)%Z.

(** [csr_matrix((data, (rows, cols)), shape=(n, m))]: the three arrays must
    have one length and every index must lie inside the shape; scipy raises
    [ValueError] otherwise. *)
Definition csr_from_coo (data : list F) (rows cols : list Z) (n m : nat) : Res csr :=
  if negb (Nat.eqb (length data) (length rows) && Nat.eqb (length data) (length cols))
  then Exc (ValueError "row, column, and data array must all be the same length")
  else if negb (forallb (index_ok n) rows && forallb (index_ok m) cols)
  then Exc (ValueError "index exceeds matrix dimensions")
  else Val (mk_csr (n, m)
              (fold_left (fun d '(v, (i, j)) => csr_accumulate (Z.to_nat i) (Z.to_nat j) v d)
                         (zip data (zip rows cols)) ∅)).

(** [A + B] *)
Definition csr_add (A B : csr) : Res csr :=
  if decide (csr_shape A = csr_shape B)
  then Val (mk_csr (csr_shape A)
              (union_with (fun a b => Some (fadd a b)) (csr_data A) (csr_data B)))
  else Exc (ValueError "inconsistent shapes").

(** [a * A] *)
Definition csr_scale (a : F) (A : csr) : csr :=
  mk_csr (csr_shape A) (fmul a <$> csr_data A).

(** [A[i, j]] for non-negative indices. *)
Definition csr_getitem (A : csr) (i j : Z) : Res F :=
  if index_ok (fst (csr_shape A)) i && index_ok (snd (csr_shape A)) j
  then Val (csr_entry A (Z.to_nat i) (Z.to_nat j))
  else Exc IndexError.

(** [A[i, j] = v] *)
Definition csr_setitem (A : csr) (i j : Z) (v : F) : Res csr :=
  if index_ok (fst (csr_shape A)) i && index_ok (snd (csr_shape A)) j
  then Val (mk_csr (csr_shape A) (<[(Z.to_nat i, Z.to_nat j) := v]> (csr_data A)))
  else Exc IndexError.

(** Row [i] of [A @ u]: the stored entries of the row, by increasing column. *)
Definition csr_row_dot (A : csr) (u : list F) (i : nat) : F :=
  fold_left (fun acc j =>
               match csr_data A !! (i, j), u !! j with
               | Some a, Some x => fadd acc (fmul a x)
               | _, _ => acc
               end)
            (seq 0 (snd (csr_shape A))) f0.

(** [A @ u] *)
Definition csr_matvec (A : csr) (u : list F) : Res (list F) :=
  if Nat.eqb (snd (csr_shape A)) (length u)
  then Val (map (csr_row_dot A u) (seq 0 (fst (csr_shape A))))
  else Exc (ValueError "dimension mismatch").

(** [np.meshgrid(a, a, indexing='ij')], both results flattened. *)
Definition meshgrid_rows (a : list Z) : list Z :=
  concat (map (fun i => replicate (length a) i) a).
Definition meshgrid_cols (a : list Z) : list Z :=
  concat (map (fun _ => a) a).

End Arrays.
Arguments csr F : clear implicits.
Arguments matrix F : clear implicits.

(* ================================================================== *)
(** ** What the solvers return, and the scipy routines they call *)

(** The payload of [solve_static]'s success dict. *)
Module StaticResult.
Record t (F : Type) : Type := mk {
  displacements : list F;
  max_displacement : F;
  total_dofs : Z
}.
Arguments mk {F}.
Arguments displacements {F}.
Arguments max_displacement {F}.
Arguments total_dofs {F}.
End StaticResult.

(** The payload of [solve_modal]'s success dict. *)
Module ModalResult.
Record t (F : Type) : Type := mk {
  frequencies : list F;
  mode_shapes : list (list F);
  num_modes : Z
}.
Arguments mk {F}.
Arguments frequencies {F}.
Arguments mode_shapes {F}.
Arguments num_modes {F}.
End ModalResult.

(** The payload of [solve_nonlinear_static]'s success dict. *)
Module NonlinearResult.
Record t (F : Type) : Type := mk {
  displacements : list F;
  max_displacement : F;
  load_factor : F;
  convergence_history : list F;
  load_displacement_curve : list (F * F)
}.
Arguments mk {F}.
Arguments displacements {F}.
Arguments max_displacement {F}.
Arguments load_factor {F}.
Arguments convergence_history {F}.
Arguments load_displacement_curve {F}.
End NonlinearResult.

(** [NonlinearOptions] of solvers.py. *)
Module NonlinearOptions.
Record t (F : Type) : Type := mk {
  max_iterations : Z;
  tolerance : F;
  load_steps : Z;
  line_search : bool;
  arc_length : bool
}.
Arguments mk {F}.
Arguments max_iterations {F}.
Arguments tolerance {F}.
Arguments load_steps {F}.
Arguments line_search {F}.
Arguments arc_length {F}.
End NonlinearOptions.

(** The two scipy routines the solvers hand their systems to.  They are
    library code: the development is parametric in them, as deterministic
    functions of their arguments that return or raise.
    [eigsh K k M] stands for [eigsh(K, k=k, M=M, which='SM', sigma=0.0)] and
    returns the eigenvalue array and the rows of the eigenvector array. *)
Class Scipy (F : Type) := {
  spsolve : csr F -> list F -> Res (list F);
  eigsh : csr F -> Z -> csr F -> Res (list F * list (list F))
}.

(* ================================================================== *)
(** ** The engine, the heap and the monad *)

(** Addresses of array objects. *)
Abbreviation loc := nat (only parsing).

Section Engine.
Context {F : Type} {SF : Scalar F} {SP : Scipy F}.

(** numpy arrays and sparse matrices are objects: a name or a field holds a
    reference, [copy()] makes a new object, and item assignment changes the
    object every reference sees. *)
Inductive Obj : Type :=
| ONdarray (v : list F)              (* one-dimensional np.ndarray *)
| ONdarray2 (rows : list (list F))   (* two-dimensional np.ndarray *)
| OCsr (A : csr F).           (* scipy.sparse.csr_matrix *)

(** The fields of [FEMEngine] ([stresses] is never read or written). *)
Record FEMEngine : Type := mk_engine {
  nodes : dict (Node.t F);
  materials : dict (Material.t F);
  sections : dict (CrossSection.t F);
  elements : dict (Element.t F);
  loads : list (Load.t F);
  constraints : list (Constraint.t F);
  displacements : option loc;
  reactions : option loc;
  element_forces : dict (list F);
  K_global : option loc;
  M_global : option loc;
  F_global : option loc;
  dof_map : dict (list Z);
  total_dofs : Z
}.

(** [FEMEngine()] *)
Definition new_engine : FEMEngine :=
  mk_engine [] [] [] [] [] [] None None [] None None None [] 0.

Definition set_nodes (v : dict (Node.t F)) (e : FEMEngine) : FEMEngine :=
  mk_engine v (materials e) (sections e) (elements e) (loads e) (constraints e) (displacements e) (reactions e) (element_forces e) (K_global e) (M_global e) (F_global e) (dof_map e) (total_dofs e).
Definition set_materials (v : dict (Material.t F)) (e : FEMEngine) : FEMEngine :=
  mk_engine (nodes e) v (sections e) (elements e) (loads e) (constraints e) (displacements e) (reactions e) (element_forces e) (K_global e) (M_global e) (F_global e) (dof_map e) (total_dofs e).
Definition set_sections (v : dict (CrossSection.t F)) (e : FEMEngine) : FEMEngine :=
  mk_engine (nodes e) (materials e) v (elements e) (loads e) (constraints e) (displacements e) (reactions e) (element_forces e) (K_global e) (M_global e) (F_global e) (dof_map e) (total_dofs e).
Definition set_elements (v : dict (Element.t F)) (e : FEMEngine) : FEMEngine :=
  mk_engine (nodes e) (materials e) (sections e) v (loads e) (constraints e) (displacements e) (reactions e) (element_forces e) (K_global e) (M_global e) (F_global e) (dof_map e) (total_dofs e).
Definition set_loads (v : list (Load.t F)) (e : FEMEngine) : FEMEngine :=
  mk_engine (nodes e) (materials e) (sections e) (elements e) v (constraints e) (displacements e) (reactions e) (element_forces e) (K_global e) (M_global e) (F_global e) (dof_map e) (total_dofs e).
Definition set_constraints (v : list (Constraint.t F)) (e : FEMEngine) : FEMEngine :=
  mk_engine (nodes e) (materials e) (sections e) (elements e) (loads e) v (displacements e) (reactions e) (element_forces e) (K_global e) (M_global e) (F_global e) (dof_map e) (total_dofs e).
Definition set_displacements (v : option loc) (e : FEMEngine) : FEMEngine :=
  mk_engine (nodes e) (materials e) (sections e) (elements e) (loads e) (constraints e) v (reactions e) (element_forces e) (K_global e) (M_global e) (F_global e) (dof_map e) (total_dofs e).
Definition set_reactions (v : option loc) (e : FEMEngine) : FEMEngine :=
  mk_engine (nodes e) (materials e) (sections e) (elements e) (loads e) (constraints e) (displacements e) v (element_forces e) (K_global e) (M_global e) (F_global e) (dof_map e) (total_dofs e).
Definition set_element_forces (v : dict (list F)) (e : FEMEngine) : FEMEngine :=
  mk_engine (nodes e) (materials e) (sections e) (elements e) (loads e) (constraints e) (displacements e) (reactions e) v (K_global e) (M_global e) (F_global e) (dof_map e) (total_dofs e).
Definition set_K_global (v : option loc) (e : FEMEngine) : FEMEngine :=
  mk_engine (nodes e) (materials e) (sections e) (elements e) (loads e) (constraints e) (displacements e) (reactions e) (element_forces e) v (M_global e) (F_global e) (dof_map e) (total_dofs e).
Definition set_M_global (v : option loc) (e : FEMEngine) : FEMEngine :=
  mk_engine (nodes e) (materials e) (sections e) (elements e) (loads e) (constraints e) (displacements e) (reactions e) (element_forces e) (K_global e) v (F_global e) (dof_map e) (total_dofs e).
Definition set_F_global (v : option loc) (e : FEMEngine) : FEMEngine :=
  mk_engine (nodes e) (materials e) (sections e) (elements e) (loads e) (constraints e) (displacements e) (reactions e) (element_forces e) (K_global e) (M_global e) v (dof_map e) (total_dofs e).
Definition set_dof_map (v : dict (list Z)) (e : FEMEngine) : FEMEngine :=
  mk_engine (nodes e) (materials e) (sections e) (elements e) (loads e) (constraints e) (displacements e) (reactions e) (element_forces e) (K_global e) (M_global e) (F_global e) v (total_dofs e).
Definition set_total_dofs (v : Z) (e : FEMEngine) : FEMEngine :=
  mk_engine (nodes e) (materials e) (sections e) (elements e) (loads e) (constraints e) (displacements e) (reactions e) (element_forces e) (K_global e) (M_global e) (F_global e) (dof_map e) v.

(** The solver object of [solvers.py] holds the engine and two histories. *)
Record World : Type := mk_world {
  fem : FEMEngine;
  convergence_history : list F;
  load_displacement_curve : list (F * F);
  heap : list Obj
}.

Definition new_world (e : FEMEngine) : World := mk_world e [] [] [].

(** A computation: from a world to a value or an exception, and a world. *)
Definition Py (A : Type) : Type := World -> Res A * World.

#[export] Instance py_ret : MRet Py := fun A a w => (Val a, w).
#[export] Instance py_bind : MBind Py := fun A B k m w =>
  match m w with
  | (Val a, w') => k a w'
  | (Exc e, w') => (Exc e, w')
  end.

Definition raise {A} (e : Exn) : Py A := fun w => (Exc e, w).

(** Lifting a pure operation that may raise. *)
Definition lift {A} (r : Res A) : Py A := fun w => (r, w).

(** [try: m  except Exception as e: h e] *)
Definition try_except {A} (m : Py A) (h : Exn -> Py A) : Py A := fun w =>
  match m w with
  | (Val a, w') => (Val a, w')
  | (Exc e, w') => h e w'
  end.

Definition get_fem : Py FEMEngine := fun w => (Val (fem w), w).
Definition modify_fem (f : FEMEngine -> FEMEngine) : Py unit := fun w =>
  (Val tt, mk_world (f (fem w)) (convergence_history w)
                    (load_displacement_curve w) (heap w)).
Definition get_world : Py World := fun w => (Val w, w).
Definition set_convergence_history (h : list F) : Py unit := fun w =>
  (Val tt, mk_world (fem w) h (load_displacement_curve w) (heap w)).
Definition set_load_displacement_curve (c : list (F * F)) : Py unit := fun w =>
  (Val tt, mk_world (fem w) (convergence_history w) c (heap w)).

(** A new object. *)
Definition alloc (o : Obj) : Py loc := fun w =>
  (Val (length (heap w)),
   mk_world (fem w) (convergence_history w) (load_displacement_curve w)
            (heap w ++ [o])).

(** Reading through a reference. *)
Definition deref (l : loc) : Py Obj := fun w =>
  match heap w !! l with
  | Some o => (Val o, w)
  | None => (Exc TypeError, w)
  end.

(** Changing the object a reference points to, in place. *)
Definition store (l : loc) (o : Obj) : Py unit := fun w =>
  (Val tt, mk_world (fem w) (convergence_history w) (load_displacement_curve w)
                    (<[l := o]> (heap w))).

(** A field that may still be [None]. *)
Definition not_none (r : option loc) : Py loc :=
  match r with
  | Some l => mret l
  | None => raise AttributeError
  end.

Definition read_ndarray (l : loc) : Py (list F) :=
  o ← deref l;
  match o with ONdarray v => mret v | _ => raise TypeError end.

Definition read_csr (l : loc) : Py (csr F) :=
  o ← deref l;
  match o with OCsr A => mret A | _ => raise TypeError end.

Definition read_ndarray2 (l : loc) : Py (list (list F)) :=
  o ← deref l;
  match o with ONdarray2 rows => mret rows | _ => raise TypeError end.

(** [for x in l: body x] *)
Fixpoint for_each {A} (l : list A) (body : A -> Py unit) : Py unit :=
  match l with
  | [] => mret tt
  | x :: rest => body x ;; for_each rest body
  end.

(** [enumerate(zip(a, b))] *)
Definition enumerate_zip {A B} (a : list A) (b : list B) : list (nat * (A * B)) :=
  zip (seq 0 (length (zip a b))) (zip a b).

(** *** Model store *)

Definition add_node (node : Node.t F) : Py unit :=
  modify_fem (fun e => set_nodes (dict_set (Node.id node) node (nodes e)) e).
Definition add_material (material : Material.t F) : Py unit :=
  modify_fem (fun e => set_materials (dict_set (Material.id material) material (materials e)) e).
Definition add_section (section : CrossSection.t F) : Py unit :=
  modify_fem (fun e => set_sections (dict_set (CrossSection.id section) section (sections e)) e).
Definition add_element (element : Element.t F) : Py unit :=
  modify_fem (fun e => set_elements (dict_set (Element.id element) element (elements e)) e).
Definition add_load (load : Load.t F) : Py unit :=
  modify_fem (fun e => set_loads (loads e ++ [load]) e).
Definition add_constraint (constraint : Constraint.t F) : Py unit :=
  modify_fem (fun e => set_constraints (constraints e ++ [constraint]) e).

(** *** DOF numbering *)

(** The inner loop of [_setup_dof_mapping]: one node's slots, from the
    current counter; returns [node_dofs] and the counter after the node. *)
Fixpoint number_dofs (dof_counter : Z) (dofs : list bool) : list Z * Z :=
  match dofs with
  | [] => ([], dof_counter)
  | active :: rest =>
      if active
      then let '(node_dofs, c) := number_dofs (dof_counter + 1) rest in
           (dof_counter :: node_dofs, c)
      else let '(node_dofs, c) := number_dofs dof_counter rest in
           ((-1)%Z :: node_dofs, c)
  end.

Fixpoint _setup_dof_mapping_loop (items : list (Z * Node.t F)) (dof_counter : Z) : Py Z :=
  match items with
  | [] => mret dof_counter
  | (node_id, node) :: rest =>
      let '(node_dofs, c) := number_dofs dof_counter (Node.dofs node) in
      modify_fem (fun e => set_dof_map (dict_set node_id node_dofs (dof_map e)) e) ;;
      _setup_dof_mapping_loop rest c
  end.

Definition _setup_dof_mapping : Py unit :=
  e ← get_fem;
  dof_counter ← _setup_dof_mapping_loop (dict_items (nodes e)) 0%Z;
  modify_fem (set_total_dofs dof_counter).

(** *** Element kernels *)

(** [d[k]] where the key may be [None]. *)
Definition dict_getitem_opt {V} (k : option Z) (d : dict V) : Res V :=
  match k with
  | Some k' => dict_getitem k' d
  | None => Exc (KeyError None)
  end.

(** [dofs = []; for node_id in element.nodes: dofs.extend(self.dof_map[node_id])] *)
Fixpoint gather_dofs (node_ids : list Z) (dm : dict (list Z)) : Res (list Z) :=
  match node_ids with
  | [] => Val []
  | node_id :: rest =>
      res_bind (dict_getitem node_id dm) (fun d =>
      res_bind (gather_dofs rest dm) (fun ds => Val (d ++ ds)))
  end.

(** [L = np.sqrt(dx**2 + dy**2 + dz**2)] *)
Definition element_length (node1 node2 : Node.t F) : Res F :=
  let dx := fsub (Node.x node2) (Node.x node1) in
  let dy := fsub (Node.y node2) (Node.y node1) in
  let dz := fsub (Node.z node2) (Node.z node1) in
  res_bind (py_pow2 dx) (fun dx2 =>
  res_bind (py_pow2 dy) (fun dy2 =>
  res_bind (py_pow2 dz) (fun dz2 =>
  Val (fsqrt (fadd (fadd dx2 dy2) dz2))))).

(** [A[i, j] = A[k, l] = v] *)
Definition mat_set2 (i j k l : nat) (v : F) (A : matrix F) : matrix F :=
  mat_set k l v (mat_set i j v A).

Definition _truss_stiffness (element : Element.t F) : Py (matrix F * list Z) :=
  e ← get_fem;
  n1 ← lift (list_getitem (Element.nodes element) 0);
  node1 ← lift (dict_getitem n1 (nodes e));
  n2 ← lift (list_getitem (Element.nodes element) 1);
  node2 ← lift (dict_getitem n2 (nodes e));
  material ← lift (dict_getitem (Element.material_id element) (materials e));
  section ← lift (dict_getitem_opt (Element.section_id element) (sections e));
  (* Element geometry *)
  let dx := fsub (Node.x node2) (Node.x node1) in
  let dy := fsub (Node.y node2) (Node.y node1) in
  let dz := fsub (Node.z node2) (Node.z node1) in
  L ← lift (element_length node1 node2);
  (* Direction cosines *)
  let cx := fdiv dx L in
  let cy := fdiv dy L in
  let cz := fdiv dz L in
  (* Element stiffness in local coordinates *)
  let k := fdiv (fmul (Material.E material) (CrossSection.A section)) L in
  let k_local : matrix F :=
    [[fmul k (fofZ 1); fmul k (fofZ (-1))]; [fmul k (fofZ (-1)); fmul k (fofZ 1)]] in
  (* Transformation matrix for 3D *)
  let T := np_zeros2 6 6 in
  let T := mat_set2 0 0 3 3 cx T in
  let T := mat_set2 0 1 3 4 cy T in
  let T := mat_set2 0 2 3 5 cz T in
  let T := mat_set2 1 0 4 3 (fneg cy) T in
  let T := mat_set2 1 1 4 4 cx T in
  let T := mat_set2 2 0 5 3 (fneg cz) T in
  let T := mat_set2 2 2 5 5 cx T in
  (* Expand local stiffness to 6 DOF per node *)
  let k_expanded := np_zeros2 6 6 in
  let k_expanded := mat_set2 0 0 3 3 (mat_get k_local 0 0) k_expanded in
  let k_expanded := mat_set2 0 3 3 0 (mat_get k_local 0 1) k_expanded in
  (* Transform to global coordinates *)
  let k_global := mat_matmul (mat_matmul (mat_transpose T) k_expanded) T in
  (* DOF indices *)
  dofs ← lift (gather_dofs (Element.nodes element) (dof_map e));
  mret (k_global, dofs).

(** The property [Material.G]: [E / (2 * (1 + nu))], on Python floats. *)
Definition Material_G (material : Material.t F) : Res F :=
  py_div (Material.E material)
         (fmul (fofZ 2) (fadd (fofZ 1) (Material.nu material))).

(** [n * x] for an int literal [n]. *)
Definition int_mul (n : Z) (x : F) : F := fmul (fofZ n) x.

Definition _beam_stiffness (element : Element.t F) : Py (matrix F * list Z) :=
  e ← get_fem;
  n1 ← lift (list_getitem (Element.nodes element) 0);
  node1 ← lift (dict_getitem n1 (nodes e));
  n2 ← lift (list_getitem (Element.nodes element) 1);
  node2 ← lift (dict_getitem n2 (nodes e));
  material ← lift (dict_getitem (Element.material_id element) (materials e));
  section ← lift (dict_getitem_opt (Element.section_id element) (sections e));
  L ← lift (element_length node1 node2);
  let E := Material.E material in
  G ← lift (Material_G material);
  let A := CrossSection.A section in
  let Iy := CrossSection.Iy section in
  let Iz := CrossSection.Iz section in
  let J := CrossSection.J section in
  let L2 := fmul L L in
  let L3 := fmul (fmul L L) L in
  (* Local stiffness matrix (12x12 for 3D beam) *)
  let k := np_zeros2 12 12 in
  (* Axial terms *)
  let k := mat_set2 0 0 6 6 (fdiv (fmul E A) L) k in
  let k := mat_set2 0 6 6 0 (fdiv (fmul (fneg E) A) L) k in
  (* Bending about y-axis (in xz plane) *)
  let EIy_L3 := fdiv (fmul E Iy) L3 in
  let k := mat_set2 2 2 8 8 (int_mul 12 EIy_L3) k in
  let k := mat_set2 2 8 8 2 (int_mul (-12) EIy_L3) k in
  let k := mat_set2 4 4 10 10 (fdiv (fmul (int_mul 4 E) Iy) L) k in
  let k := mat_set2 4 10 10 4 (fdiv (fmul (int_mul 2 E) Iy) L) k in
  let k := mat_set2 2 4 4 2 (fdiv (fmul (int_mul 6 E) Iy) L2) k in
  let k := mat_set2 2 10 10 2 (fdiv (fmul (int_mul 6 E) Iy) L2) k in
  let k := mat_set2 8 4 4 8 (fdiv (fmul (int_mul (-6) E) Iy) L2) k in
  let k := mat_set2 8 10 10 8 (fdiv (fmul (int_mul (-6) E) Iy) L2) k in
  (* Bending about z-axis (in xy plane) *)
  let EIz_L3 := fdiv (fmul E Iz) L3 in
  let k := mat_set2 1 1 7 7 (int_mul 12 EIz_L3) k in
  let k := mat_set2 1 7 7 1 (int_mul (-12) EIz_L3) k in
  let k := mat_set2 5 5 11 11 (fdiv (fmul (int_mul 4 E) Iz) L) k in
  let k := mat_set2 5 11 11 5 (fdiv (fmul (int_mul 2 E) Iz) L) k in
  let k := mat_set2 1 5 5 1 (fdiv (fmul (int_mul (-6) E) Iz) L2) k in
  let k := mat_set2 1 11 11 1 (fdiv (fmul (int_mul (-6) E) Iz) L2) k in
  let k := mat_set2 7 5 5 7 (fdiv (fmul (int_mul 6 E) Iz) L2) k in
  let k := mat_set2 7 11 11 7 (fdiv (fmul (int_mul 6 E) Iz) L2) k in
  (* Torsion *)
  let k := mat_set2 3 3 9 9 (fdiv (fmul G J) L) k in
  let k := mat_set2 3 9 9 3 (fdiv (fmul (fneg G) J) L) k in
  (* Transformation matrix: the identity *)
  let T := np_eye 12 in
  let k_global := mat_matmul (mat_matmul (mat_transpose T) k) T in
  (* DOF indices *)
  dofs ← lift (gather_dofs (Element.nodes element) (dof_map e));
  mret (k_global, dofs).

Definition _frame_stiffness (element : Element.t F) : Py (matrix F * list Z) :=
  _beam_stiffness element.

Definition _get_element_stiffness_matrix (element : Element.t F)
  : Py (matrix F * list Z) :=
  match Element.type element with
  | TRUSS => _truss_stiffness element
  | BEAM => _beam_stiffness element
  | FRAME => _frame_stiffness element
  | _ => raise NotImplementedError
  end.

(** *** Assembly *)

(** [csr_matrix((n, n))] and [np.zeros(n)] for an int [n]. *)
Definition csr_matrix_shape (n : Z) : Res (csr F) :=
  if (n <? 0)%Z then Exc (ValueError "invalid shape")
  else Val (csr_empty (Z.to_nat n) (Z.to_nat n)).
Definition np_zeros_int (n : Z) : Res (list F) :=
  if (n <? 0)%Z then Exc (ValueError "negative dimensions are not allowed")
  else Val (np_zeros (Z.to_nat n)).

(** [active_dofs = [dof for dof in dofs if dof >= 0]] *)
Definition active (dofs : list Z) : list Z := filter (fun dof => (0 <= dof)%Z) dofs.

(** One round of the loop of [_assemble_global_stiffness]. *)
Definition _assemble_element (element : Element.t F) : Py unit :=
  '(k_elem, dofs) ← _get_element_stiffness_matrix element;
  (* Filter out inactive DOFs *)
  let active_dofs := active dofs in
  if Nat.eqb (length active_dofs) 0 then mret tt   (* continue *)
  else
    e ← get_fem;
    let N := Z.to_nat (total_dofs e) in
    contribution ← lift (csr_from_coo (mat_flatten k_elem)
                           (meshgrid_rows active_dofs) (meshgrid_cols active_dofs) N N);
    (* self.K_global += ...: scipy builds the sum as a new matrix *)
    kg ← not_none (K_global e);
    K ← read_csr kg;
    K' ← lift (csr_add K contribution);
    l ← alloc (OCsr K');
    modify_fem (set_K_global (Some l)).

Definition _assemble_global_stiffness : Py unit :=
  e ← get_fem;
  K ← lift (csr_matrix_shape (total_dofs e));
  l ← alloc (OCsr K);
  modify_fem (set_K_global (Some l)) ;;
  for_each (dict_values (elements e)) _assemble_element.

(** [a[i] += x] on a one-dimensional array object, for [i >= 0]. *)
Definition ndarray_iadd_item (l : loc) (i : Z) (x : F) : Py unit :=
  v ← read_ndarray l;
  if index_ok (length v) i
  then store l (ONdarray (alter (fun a => fadd a x) (Z.to_nat i) v))
  else raise IndexError.

(** [A[i, j] += x] on a sparse matrix object. *)
Definition csr_iadd_item (l : loc) (i j : Z) (x : F) : Py unit :=
  A ← read_csr l;
  a ← lift (csr_getitem A i j);
  A' ← lift (csr_setitem A i j (fadd a x));
  store l (OCsr A').

Definition _assemble_global_force : Py unit :=
  e ← get_fem;
  zeros ← lift (np_zeros_int (total_dofs e));
  fg ← alloc (ONdarray zeros);
  modify_fem (set_F_global (Some fg)) ;;
  for_each (loads e) (fun load =>
    match Load.node_id load with
    | Some node_id =>
        node_dofs ← lift (dict_getitem node_id (dof_map e));
        for_each (enumerate_zip (Load.values load) node_dofs) (fun '(i, (force, dof)) =>
          if (0 <=? dof)%Z then ndarray_iadd_item fg dof force   (* Active DOF *)
          else mret tt)
    | None => mret tt
    end).

(** The penalty of [_apply_constraints]: [1e12]. *)
Definition penalty : F := fdecimal 1 12.

(** The body of the inner loop shared by [_apply_constraints] and
    [_apply_constraints_nonlinear]: one slot [(i, (constrained, dof))] of a
    constraint, on the two copies. *)
Definition penalize_slot (K_constrained F_constrained : loc)
    (constraint : Constraint.t F) (slot : nat * (bool * Z)) : Py unit :=
  let '(i, (constrained, dof)) := slot in
  if constrained && (0 <=? dof)%Z
  then (* Apply penalty method *)
    csr_iadd_item K_constrained dof dof penalty ;;
    value ← lift (list_getitem (Constraint.values constraint) i);
    ndarray_iadd_item F_constrained dof (fmul penalty value)
  else mret tt.

(** The body of the outer loop: one constraint. *)
Definition penalize_constraint (K_constrained F_constrained : loc)
    (dm : dict (list Z)) (constraint : Constraint.t F) : Py unit :=
  node_dofs ← lift (dict_getitem (Constraint.node_id constraint) dm);
  for_each (enumerate_zip (Constraint.dofs constraint) node_dofs)
           (penalize_slot K_constrained F_constrained constraint).

(** [for constraint in self.constraints: ...] *)
Definition penalize (K_constrained F_constrained : loc) : Py unit :=
  e ← get_fem;
  for_each (constraints e) (penalize_constraint K_constrained F_constrained (dof_map e)).

(** [x.copy()] *)
Definition copy (l : loc) : Py loc := o ← deref l; alloc o.

Definition _apply_constraints : Py (loc * loc) :=
  e ← get_fem;
  kg ← not_none (K_global e);
  K_constrained ← copy kg;
  fg ← not_none (F_global e);
  F_constrained ← copy fg;
  penalize K_constrained F_constrained ;;
  mret (K_constrained, F_constrained).

(** *** Static analysis *)

(** [np.array([u[dof] for dof in dofs])], for non-negative [dofs]. *)
Fixpoint take_items (u : list F) (dofs : list Z) : Res (list F) :=
  match dofs with
  | [] => Val []
  | dof :: rest =>
      res_bind (list_getitem u (Z.to_nat dof)) (fun a =>
      res_bind (take_items u rest) (fun l => Val (a :: l)))
  end.

(** One round of the loop of [_calculate_element_forces]. *)
Definition _element_force (element : Element.t F) : Py unit :=
  '(k_elem, dofs) ← _get_element_stiffness_matrix element;
  let active_dofs := active dofs in
  if Nat.eqb (length active_dofs) 0 then mret tt   (* continue *)
  else
    e ← get_fem;
    ul ← match displacements e with Some l => mret l | None => raise TypeError end;
    u ← read_ndarray ul;
    u_elem ← lift (take_items u active_dofs);
    f_elem ← lift (mat_matvec k_elem u_elem);
    modify_fem (fun e => set_element_forces
                           (dict_set (Element.id element) f_elem (element_forces e)) e).

Definition _calculate_element_forces : Py unit :=
  e ← get_fem;
  for_each (dict_values (elements e)) _element_force.

Definition solve_static : Py (Outcome (StaticResult.t F)) :=
  (* Setup DOF mapping *)
  _setup_dof_mapping ;;
  (* Assemble system matrices *)
  _assemble_global_stiffness ;;
  _assemble_global_force ;;
  (* Apply boundary conditions *)
  '(K_constrained, F_constrained) ← _apply_constraints;
  (* Solve system of equations *)
  try_except
    (Kc ← read_csr K_constrained;
     Fc ← read_ndarray F_constrained;
     u ← lift (spsolve Kc Fc);
     ul ← alloc (ONdarray u);
     modify_fem (set_displacements (Some ul)) ;;
     (* Calculate reactions *)
     e ← get_fem;
     kg ← not_none (K_global e);
     K ← read_csr kg;
     Ku ← lift (csr_matvec K u);
     fg ← not_none (F_global e);
     Fg ← read_ndarray fg;
     r ← lift (np_sub Ku Fg);
     rl ← alloc (ONdarray r);
     modify_fem (set_reactions (Some rl)) ;;
     (* Calculate element forces *)
     _calculate_element_forces ;;
     e ← get_fem;
     ul ← not_none (displacements e);
     u ← read_ndarray ul;
     max_displacement ← lift (np_max_abs u);
     mret (Success (StaticResult.mk u max_displacement (total_dofs e))))
    (fun e => mret (Failure (Str e))).

(** *** Modal analysis *)

(** [d.get(k)] where the key may be [None]. *)
Definition dict_get_opt {V} (k : option Z) (d : dict V) : option V :=
  match k with
  | Some k' => dict_get k' d
  | None => None
  end.

(** The innermost loop body of [_assemble_global_mass]: slot [i] of a node. *)
Definition _mass_slot (ml : loc) (node_dofs : list Z) (nodal_mass : F) (i : nat)
  : Py unit :=
  dof ← lift (list_getitem node_dofs i);
  if (0 <=? dof)%Z then csr_iadd_item ml dof dof nodal_mass
  else mret tt.

(** The loop body over the nodes of an element. *)
Definition _mass_node (ml : loc) (dm : dict (list Z)) (nodal_mass : F) (node_id : Z)
  : Py unit :=
  node_dofs ← lift (dict_getitem node_id dm);
  for_each (seq 0 3) (_mass_slot ml node_dofs nodal_mass).   (* x, y, z translations *)

(** One round of the loop of [_assemble_global_mass]. *)
Definition _assemble_element_mass (element : Element.t F) : Py unit :=
  e ← get_fem;
  material ← lift (dict_getitem (Element.material_id element) (materials e));
  match dict_get_opt (Element.section_id element) (sections e) with
  | None => mret tt   (* continue *)
  | Some section =>
      (* Calculate element mass *)
      n1 ← lift (list_getitem (Element.nodes element) 0);
      node1 ← lift (dict_getitem n1 (nodes e));
      n2 ← lift (list_getitem (Element.nodes element) 1);
      node2 ← lift (dict_getitem n2 (nodes e));
      L ← lift (element_length node1 node2);
      let element_mass := fmul (fmul (Material.rho material) (CrossSection.A section)) L in
      let nodal_mass := fdiv element_mass (fofZ 2) in  (* Distribute equally to nodes *)
      (* Add to global mass matrix (translational DOFs only) *)
      ml ← not_none (M_global e);
      for_each (Element.nodes element) (_mass_node ml (dof_map e) nodal_mass)
  end.

Definition _assemble_global_mass : Py unit :=
  e ← get_fem;
  M ← lift (csr_matrix_shape (total_dofs e));
  ml ← alloc (OCsr M);
  modify_fem (set_M_global (Some ml)) ;;
  for_each (dict_values (elements e)) _assemble_element_mass.

(** [np.sqrt(eigenvals) / (2 * np.pi)] *)
Definition natural_frequencies (eigenvals : list F) : list F :=
  map (fun ev => fdiv (fsqrt ev) (fmul (fofZ 2) fpi)) eigenvals.

Definition solve_modal (num_modes : Z) : Py (Outcome (ModalResult.t F)) :=
  try_except
    ((* Setup DOF mapping *)
     _setup_dof_mapping ;;
     (* Assemble stiffness matrix *)
     _assemble_global_stiffness ;;
     (* Assemble mass matrix (simplified - lumped mass) *)
     _assemble_global_mass ;;
     (* Apply constraints (homogeneous) *)
     e ← get_fem;
     kg ← not_none (K_global e);
     K_constrained ← copy kg;
     mg ← not_none (M_global e);
     M_constrained ← copy mg;
     (* Solve generalized eigenvalue problem: K*phi = lambda*M*phi *)
     Kc ← read_csr K_constrained;
     Mc ← read_csr M_constrained;
     '(eigenvals, eigenvecs) ← lift (eigsh Kc num_modes Mc);
     (* Calculate natural frequencies *)
     let frequencies := natural_frequencies eigenvals in
     mret (Success (ModalResult.mk frequencies eigenvecs num_modes)))
    (fun e => mret (Failure (Str e))).

(** *** The solvers of [AdvancedSolvers] *)

(** How a loop body ends: fall through to the next round, [break], or
    [return r] from the enclosing function. *)
Inductive Flow (R : Type) : Type :=
| Continue
| Break
| Return (r : R).
Arguments Continue {R}.
Arguments Break {R}.
Arguments Return {R} r.

(** [for _ in range(n): body].  The result [Continue] means the loop ran
    out of rounds (where Python runs the [else:] branch of the loop). *)
Fixpoint for_range {R} (n : nat) (body : Py (Flow R)) : Py (Flow R) :=
  match n with
  | O => mret Continue
  | S n' =>
      f ← body;
      match f with
      | Continue => for_range n' body
      | Break => mret Break
      | Return r => mret (Return r)
      end
  end.

Definition _update_tangent_stiffness (u : list F) : Py loc :=
  (* For now, return linear stiffness *)
  e ← get_fem;
  kg ← not_none (K_global e);
  copy kg.

(** [self.fem.K_global @ u] *)
Definition _calculate_internal_force (u : list F) : Py (list F) :=
  e ← get_fem;
  kg ← match K_global e with Some l => mret l | None => raise TypeError end;
  K ← read_csr kg;
  lift (csr_matvec K u).

Definition _apply_constraints_nonlinear (K : loc) (Fv : list F) : Py (loc * loc) :=
  K_constrained ← copy K;
  F_constrained ← alloc (ONdarray Fv);
  penalize K_constrained F_constrained ;;
  mret (K_constrained, F_constrained).

(** The Armijo parameter [c1 = 1e-4] and the contraction [0.5]. *)
Definition c1 : F := fdecimal 1 (-4).
Definition half : F := fdecimal 5 (-1).

(** The sufficient-decrease test of one trial step [alpha]. *)
Definition armijo_test (alpha trial_residual current_residual : F) : bool :=
  fltb trial_residual (fmul (fsub (fofZ 1) (fmul c1 alpha)) current_residual).

(** [np.linalg.norm(target_force - self._calculate_internal_force(u))] *)
Definition residual_norm_at (u target_force : list F) : Py F :=
  force ← _calculate_internal_force u;
  r ← lift (np_sub target_force force);
  mret (np_linalg_norm r).

(** The loop of [_line_search]: [n] rounds left, current [alpha]. *)
Fixpoint _line_search_loop (n : nat) (alpha : F) (u du target_force : list F)
    (current_residual : F) : Py F :=
  match n with
  | O => mret alpha
  | S n' =>
      u_trial ← lift (np_add u (np_scale alpha du));
      trial_residual ← residual_norm_at u_trial target_force;
      if armijo_test alpha trial_residual current_residual
      then mret alpha   (* break *)
      else _line_search_loop n' (fmul alpha half) u du target_force current_residual
  end.

Definition _line_search (u du target_force : list F) : Py F :=
  let alpha := fofZ 1 in
  (* Current residual *)
  current_residual ← residual_norm_at u target_force;
  _line_search_loop 10 alpha u du target_force current_residual.   (* Max line search iterations *)

(** [u += v] on an array object. *)
Definition ndarray_iadd (l : loc) (v : list F) : Py unit :=
  u ← read_ndarray l;
  u' ← lift (np_iadd u v);
  store l (ONdarray u').

(** One Newton-Raphson iteration of [solve_nonlinear_static]. *)
Definition newton_iteration (options : NonlinearOptions.t F) (u : loc)
    (target_force : list F) : Py (Flow (Outcome (NonlinearResult.t F))) :=
  uv ← read_ndarray u;
  (* Update stiffness matrix (for geometric nonlinearity) *)
  K_tangent ← _update_tangent_stiffness uv;
  (* Calculate residual *)
  internal_force ← _calculate_internal_force uv;
  residual ← lift (np_sub target_force internal_force);
  (* Apply boundary conditions *)
  '(K_constrained, residual_constrained) ← _apply_constraints_nonlinear K_tangent residual;
  (* Check convergence *)
  rc ← read_ndarray residual_constrained;
  let residual_norm := np_linalg_norm rc in
  w ← get_world;
  set_convergence_history (convergence_history w ++ [residual_norm]) ;;
  if fltb residual_norm (NonlinearOptions.tolerance options) then mret Break
  else
    (* Solve for displacement increment *)
    try_except
      (Kc ← read_csr K_constrained;
       du ← lift (spsolve Kc rc);
       (if NonlinearOptions.line_search options
        then (* Line search (optional) *)
          uv ← read_ndarray u;
          alpha ← _line_search uv du target_force;
          ndarray_iadd u (np_scale alpha du)
        else ndarray_iadd u du) ;;
       mret Continue)
      (fun e => mret (Return (Failure (SolverFailed e)))).

(** The load-stepping loop: [steps] rounds left, current [load_factor].
    Gives the final load factor, or the dict an inner [return] produced. *)
Fixpoint load_stepping (steps : nat) (options : NonlinearOptions.t F) (u : loc)
    (load_factor load_increment : F)
  : Py (F + Outcome (NonlinearResult.t F)) :=
  match steps with
  | O => mret (inl load_factor)
  | S steps' =>
      let load_factor := fadd load_factor load_increment in
      e ← get_fem;
      fg ← match F_global e with Some l => mret l | None => raise TypeError end;
      Fg ← read_ndarray fg;
      let target_force := np_scale load_factor Fg in
      (* Newton-Raphson iterations *)
      f ← for_range (Z.to_nat (NonlinearOptions.max_iterations options))
                    (newton_iteration options u target_force);
      match f with
      | Return r => mret (inr r)
      | Continue =>   (* the else: branch of the for loop *)
          mret (inr (Failure (NoConvergence (NonlinearOptions.max_iterations options))))
      | Break =>
          (* Store load-displacement point *)
          uv ← read_ndarray u;
          max_displacement ← lift (np_max_abs uv);
          w ← get_world;
          set_load_displacement_curve
            (load_displacement_curve w ++ [(load_factor, max_displacement)]) ;;
          load_stepping steps' options u load_factor load_increment
      end
  end.

Definition solve_nonlinear_static (options : NonlinearOptions.t F)
  : Py (Outcome (NonlinearResult.t F)) :=
  try_except
    ((* Setup system *)
     _setup_dof_mapping ;;
     _assemble_global_stiffness ;;
     _assemble_global_force ;;
     (* Initialize solution *)
     e ← get_fem;
     zeros ← lift (np_zeros_int (total_dofs e));
     u ← alloc (ONdarray zeros);
     let load_factor := fofZ 0 in
     load_increment ← lift (py_div (fofZ 1) (fofZ (NonlinearOptions.load_steps options)));
     set_convergence_history [] ;;
     set_load_displacement_curve [] ;;
     (* Load stepping *)
     r ← load_stepping (Z.to_nat (NonlinearOptions.load_steps options)) options u
                       load_factor load_increment;
     match r with
     | inr dict => mret dict
     | inl load_factor =>
         (* Store final results *)
         modify_fem (set_displacements (Some u)) ;;
         _calculate_element_forces ;;
         uv ← read_ndarray u;
         max_displacement ← lift (np_max_abs uv);
         w ← get_world;
         mret (Success (NonlinearResult.mk uv max_displacement load_factor
                          (convergence_history w) (load_displacement_curve w)))
     end)
    (fun e => mret (Failure (Str e))).

(** [NonlinearOptions()] *)
Definition default_nonlinear_options : NonlinearOptions.t F :=
  NonlinearOptions.mk 50 (fdecimal 1 (-6)) 10 true false.

(** *** Newmark time integration *)

(** [h[i]] on a two-dimensional array object: row [i >= 0]. *)
Definition ndarray2_row (l : loc) (i : nat) : Py (list F) :=
  rows ← read_ndarray2 l;
  lift (list_getitem rows i).

(** [h[i] = v]: the row takes the values of [v], a one-element [v] being
    broadcast. *)
Definition row_assign (row v : list F) : Res (list F) :=
  if Nat.eqb (length v) (length row) then Val v
  else match v with
       | [b] => Val (replicate (length row) b)
       | _ => Exc (ValueError "could not broadcast input array")
       end.

Definition ndarray2_set_row (l : loc) (i : nat) (v : list F) : Py unit :=
  rows ← read_ndarray2 l;
  row ← lift (list_getitem rows i);
  row' ← lift (row_assign row v);
  store l (ONdarray2 (<[i := row']> rows)).

(** The six integration constants. *)
Record NewmarkConstants : Type := mk_newmark {
  a0 : F; a1 : F; a2 : F; a3 : F; a4 : F; a5 : F
}.

Definition newmark_constants (dt beta gamma : F) : Res NewmarkConstants :=
  res_bind (py_pow2 dt) (fun dt2 =>
  res_bind (py_div (fofZ 1) (fmul beta dt2)) (fun a0 =>
  res_bind (py_div gamma (fmul beta dt)) (fun a1 =>
  res_bind (py_div (fofZ 1) (fmul beta dt)) (fun a2 =>
  res_bind (py_div (fofZ 1) (fmul (fofZ 2) beta)) (fun q3 =>
  let a3 := fsub q3 (fofZ 1) in
  res_bind (py_div gamma beta) (fun q4 =>
  let a4 := fsub q4 (fofZ 1) in
  res_bind (py_div gamma beta) (fun q5 =>
  let a5 := fmul (fdiv dt (fofZ 2)) (fsub q5 (fofZ 2)) in
  Val (mk_newmark a0 a1 a2 a3 a4 a5)))))))).

(** [K + a0 * M + a1 * C] *)
Definition effective_stiffness (K M C : csr F) (a0 a1 : F) : Res (csr F) :=
  res_bind (csr_add K (csr_scale a0 M)) (fun KM => csr_add KM (csr_scale a1 C)).

(** [x * u + y * v + z * w] *)
Definition combine3 (x : F) (u : list F) (y : F) (v : list F) (z : F) (w : list F)
  : Res (list F) :=
  res_bind (np_add (np_scale x u) (np_scale y v)) (fun s =>
  np_add s (np_scale z w)).

(** One round of the loop of [_newmark_integration], for step [i]. *)
Definition _newmark_step (u_history v_history a_history force_history : loc)
    (M C K_eff : csr F) (k : NewmarkConstants) (dt gamma : F) (i : nat) : Py unit :=
  (* Current state *)
  u_n ← ndarray2_row u_history i;
  v_n ← ndarray2_row v_history i;
  a_n ← ndarray2_row a_history i;
  (* Load at next time step *)
  forces ← read_ndarray2 force_history;
  let idx := Z.min (Z.of_nat i + 1) (Z.of_nat (length forces) - 1) in
  F_next ← (if (idx <? 0)%Z then raise IndexError
            else lift (list_getitem forces (Z.to_nat idx)));
  (* Effective force *)
  mu ← lift (combine3 (a0 k) u_n (a2 k) v_n (a3 k) a_n);
  Mu ← lift (csr_matvec M mu);
  F_M ← lift (np_add F_next Mu);
  cu ← lift (combine3 (a1 k) u_n (a4 k) v_n (a5 k) a_n);
  Cu ← lift (csr_matvec C cu);
  F_eff ← lift (np_add F_M Cu);
  (* Solve for displacement *)
  u_next ← lift (spsolve K_eff F_eff);
  (* Calculate velocity and acceleration *)
  du ← lift (np_sub u_next u_n);
  acc1 ← lift (np_sub (np_scale (a0 k) du) (np_scale (a2 k) v_n));
  a_next ← lift (np_sub acc1 (np_scale (a3 k) a_n));
  mix ← lift (np_add (np_scale (fsub (fofZ 1) gamma) a_n) (np_scale gamma a_next));
  v_next ← lift (np_add v_n (np_scale dt mix));
  (* Store results *)
  ndarray2_set_row u_history (i + 1) u_next ;;
  ndarray2_set_row v_history (i + 1) v_next ;;
  ndarray2_set_row a_history (i + 1) a_next.

(** A sparse-matrix argument or field: [None] cannot be multiplied. *)
Definition read_csr_field (r : option loc) : Py (csr F) :=
  match r with
  | Some l => read_csr l
  | None => raise TypeError
  end.

Definition _newmark_integration (u_history v_history a_history force_history : loc)
    (C : loc) (dt beta gamma : F) : Py (Outcome unit) :=
  try_except
    (uh ← read_ndarray2 u_history;
     let n_steps := (Z.of_nat (length uh) - 1)%Z in
     (* Newmark parameters *)
     k ← lift (newmark_constants dt beta gamma);
     (* Effective stiffness matrix *)
     e ← get_fem;
     K ← read_csr_field (K_global e);
     M ← read_csr_field (M_global e);
     Cm ← read_csr C;
     K_eff ← lift (effective_stiffness K M Cm (a0 k) (a1 k));
     for_each (seq 0 (Z.to_nat n_steps))
       (_newmark_step u_history v_history a_history force_history M Cm K_eff k dt gamma) ;;
     mret (Success tt))
    (fun e => mret (Failure (Str e))).

End Engine.

(* ================================================================== *)
(** ** Building models *)

Section Building.
Context {F : Type} {SF : Scalar F}.

(** The world after a sequence of calls on a fresh engine. *)
Definition after {A} (script : Py (F := F) A) (w : World) : World := snd (script w).

Definition fresh : World (F := F) := new_world new_engine.

(** [Node(id, x, y, z)] with the default mask [[True] * 6]. *)
Definition node (id : Z) (x y z : F) : Node.t F :=
  Node.mk id x y z (replicate 6 true).

(** [Material(id, name, E, nu, rho)] *)
Definition material (id : Z) (name : string) (E nu rho : F) : Material.t F :=
  Material.mk id name E nu rho None None.

(** [Section(id, name, A, Ix, Iy, Iz, J)] *)
Definition section (id : Z) (name : string) (A Ix Iy Iz J : F) : CrossSection.t F :=
  CrossSection.mk id name A Ix Iy Iz J None None.

(** [Element(id, type, nodes, material_id, section_id)] *)
Definition element (id : Z) (type : ElementType) (nodes : list Z)
    (material_id : Z) (section_id : option Z) : Element.t F :=
  Element.mk id type nodes material_id section_id None.

(** [Load(id, node_id=n, values=v)] *)
Definition nodal_load (id node_id : Z) (values : list F) : Load.t F :=
  Load.mk id (Some node_id) None "force" "global" values.

(** [Constraint(id, node_id, dofs)] with the default values [[0.0] * 6]. *)
Definition constraint (id node_id : Z) (dofs : list bool) : Constraint.t F :=
  Constraint.mk id node_id dofs (replicate 6 (fofZ 0)).

End Building.

(** *** The axial-truss scenario, in binary64

    Two nodes at (0,0,0) and (1,0,0); node 0 constrained in all six DOFs,
    node 1 in y, z and the rotations; E = 2e11, nu = 0.3, rho = 7850;
    A = 0.01; F_x = 1e5 on node 1. *)
Definition axial_truss : World (F := float) :=
  after (add_node (node 0 0 0 0) ;;
         add_node (node 1 1 0 0) ;;
         add_material (material 1 "steel" 2e11 0.3 7850) ;;
         add_section (section 1 "bar" 0.01 0 0 0 0) ;;
         add_element (element 1 TRUSS [0; 1]%Z 1 (Some 1%Z)) ;;
         add_constraint (constraint 1 0 [true; true; true; true; true; true]) ;;
         add_constraint (constraint 2 1 [false; true; true; true; true; true]) ;;
         add_load (nodal_load 1 1 [1e5; 0; 0; 0; 0; 0]))%float
        fresh.

(* ================================================================== *)
(** ** A direct solver for the executable examples

    [spsolve] and [eigsh] are parameters of the development.  To run a
    solver on a concrete model the examples below use Gaussian elimination
    with partial pivoting in place of scipy's sparse LU; like scipy it gives
    an array of NaN for a singular matrix.  No eigen-solver is provided:
    [eigsh] is either absent, canned, or the factorisation step of its
    shift-invert mode followed by an iteration that stays a parameter. *)

Section ReferenceSolver.
Context {F : Type} {SF : Scalar F}.

Definition row_head (r : list F) : F := default f0 (head r).

(** The row with the largest leading entry, and the other rows in order. *)
Fixpoint select_pivot (rows : list (list F)) : option (list F * list (list F)) :=
  match rows with
  | [] => None
  | r :: rest =>
      match select_pivot rest with
      | None => Some (r, [])
      | Some (p, others) =>
          if fltb (fabs (row_head r)) (fabs (row_head p))
          then Some (p, r :: others)
          else Some (r, p :: others)
      end
  end.

(** Elimination on augmented rows [a_1 ... a_n | b]. *)
Fixpoint gauss (n : nat) (rows : list (list F)) : option (list F) :=
  match n with
  | O => Some []
  | S n' =>
      match select_pivot rows with
      | None => None
      | Some (p, rest) =>
          let p0 := row_head p in
          if feqb p0 f0 then None
          else
            let reduce r :=
              let f := fdiv (row_head r) p0 in
              zip_with (fun a b => fsub a (fmul f b)) (tail r) (tail p) in
            match gauss n' (map reduce rest) with
            | None => None
            | Some xs =>
                let s := fold_left fadd (zip_with fmul (take n' (tail p)) xs) f0 in
                Some (fdiv (fsub (default f0 (last p)) s) p0 :: xs)
            end
      end
  end.

Definition csr_to_dense (A : csr F) : list (list F) :=
  map (fun i => map (fun j => csr_entry A i j) (seq 0 (snd (csr_shape A))))
      (seq 0 (fst (csr_shape A))).

Definition gauss_solve (A : csr F) (b : list F) : Res (list F) :=
  let n := fst (csr_shape A) in
  if negb (Nat.eqb n (snd (csr_shape A)) && Nat.eqb n (length b))
  then Exc (ValueError "matrix must be square and match the right-hand side")
  else
    match gauss n (zip_with (fun row bi => row ++ [bi]) (csr_to_dense A) b) with
    | Some x => Val x
    | None => Val (replicate n (fdiv f0 f0))
    end.

Definition gauss_backend : Scipy F := {|
  spsolve := gauss_solve;
  eigsh := fun _ _ _ => Exc (LibraryError "no eigen-solver in the examples")
|}.

(** [eigsh(K, k, M=M, which='SM', sigma=0.0)] works in shift-invert mode:
    before it iterates it factors [K - sigma M], which for [sigma = 0] is
    [K] itself, by a sparse LU, and that raises "Factor is exactly singular"
    when the elimination meets a column without a pivot.  This backend does
    that step with the elimination above; the Lanczos iteration that follows
    a successful factorisation is the parameter [lanczos]. *)
Definition shift_invert_backend
    (lanczos : csr F -> Z -> csr F -> Res (list F * list (list F))) : Scipy F := {|
  spsolve := gauss_solve;
  eigsh := fun K k M =>
    match gauss (fst (csr_shape K)) (map (fun row => row ++ [f0]) (csr_to_dense K)) with
    | None => Exc (LibraryError "Factor is exactly singular")
    | Some _ => lanczos K k M
    end
|}.

End ReferenceSolver.

(** *** A cantilever beam, in binary64

    One beam element of length 1 along x; node 0 constrained in all six
    DOFs; a transverse load F_y = -1e4 on node 1. *)
Definition cantilever_beam : World (F := float) :=
  after (add_node (node 0 0 0 0) ;;
         add_node (node 1 1 0 0) ;;
         add_material (material 1 "steel" 2e11 0.3 7850) ;;
         add_section (section 1 "beam" 0.01 0 8.33e-6 8.33e-6 1e-6) ;;
         add_element (element 1 BEAM [0; 1]%Z 1 (Some 1%Z)) ;;
         add_constraint (constraint 1 0 [true; true; true; true; true; true]) ;;
         add_load (nodal_load 1 1 [0; -1e4; 0; 0; 0; 0]))%float
        fresh.

(** *** A model with a dangling material reference *)

(** Two nodes joined by a beam whose [material_id] (7) names no material. *)
Definition dangling_material : World (F := float) :=
  after (add_node (node 0 0 0 0) ;;
         add_node (node 1 1 0 0) ;;
         add_section (section 1 "bar" 0.01 0 0 0 0) ;;
         add_element (element 1 BEAM [0; 1]%Z 7 (Some 1%Z)))%float
        fresh.

(* ================================================================== *)
(** ** Specification-level notions *)

(** The number of [True] entries of a mask. *)
Fixpoint count_true (mask : list bool) : nat :=
  match mask with
  | [] => 0
  | b :: rest => (if b then 1 else 0) + count_true rest
  end.

Section SpecLevel.
Context {F : Type} {SF : Scalar F}.

(** All DOF slots of a node dict, in iteration order. *)
Definition all_slots (items : dict (Node.t F)) : list bool :=
  concat (map (fun it => Node.dofs (snd it)) items).

(** The number of active slots met before slot [j] of the [p]-th node. *)
Definition active_before (items : dict (Node.t F)) (p j : nat) : nat :=
  count_true (all_slots (take p items))
  + count_true (take j (default [] ((fun it => Node.dofs (snd it)) <$> items !! p))).

(** The DOF map and counter the loop leaves, as a function of the nodes. *)
Fixpoint dof_map_after (items : dict (Node.t F)) (c : Z) (dm : dict (list Z))
  : dict (list Z) * Z :=
  match items with
  | [] => (dm, c)
  | (node_id, node) :: rest =>
      let '(node_dofs, c') := number_dofs c (Node.dofs node) in
      dof_map_after rest c' (dict_set node_id node_dofs dm)
  end.

Definition with_fem (f : FEMEngine (F := F) -> FEMEngine) (w : World) : World :=
  mk_world (f (fem w)) (convergence_history w) (load_displacement_curve w) (heap w).

(** The step size after [j] contractions: 1 halved [j] times (a product
    with 0.5, which is the half in binary64 and over the reals). *)
Definition alpha_seq (j : nat) : F :=
  Nat.iter j (fun a => fmul a (fdecimal 5 (-1))) (fofZ 1).

(** The residual norm [‖target - K u‖] for well-shaped arguments. *)
Definition residual_norm (K : csr F) (u target_force : list F) : F :=
  np_linalg_norm
    (zip_with fsub target_force (map (csr_row_dot K u) (seq 0 (fst (csr_shape K))))).

(** The trial point [u + alpha * du]. *)
Definition trial_point (u du : list F) (alpha : F) : list F :=
  zip_with fadd u (np_scale alpha du).

(** Whether the trial step [alpha] passes the sufficient-decrease test
    [‖R(u + alpha du)‖ < (1 - 1e-4 alpha) ‖R(u)‖]. *)
Definition sufficient_decrease (K : csr F) (u du target_force : list F) (alpha : F) : bool :=
  fltb (residual_norm K (trial_point u du alpha) target_force)
       (fmul (fsub (fofZ 1) (fmul (fdecimal 1 (-4)) alpha))
             (residual_norm K u target_force)).

(** The world holds the stiffness matrix [K] under [K_global]. *)
Definition has_stiffness (w : World (F := F)) (K : csr F) : Prop :=
  exists l, K_global (fem w) = Some l /\ heap w !! l = Some (OCsr K).

(** Whatever [m] returns or raises, the world it leaves is [R]-related to
    the one it started from. *)
Definition preserves {A} (R : relation (World (F := F))) (m : Py A) : Prop :=
  forall w, R w (snd (m w)).

(** The prescribed values that the slots [slots] of one constraint put on
    DOF [d], in the order the loop meets them. *)
Definition slot_hits (d : nat) (values : list F) (slots : list (nat * (bool * Z)))
  : list F :=
  flat_map (fun '(i, (constrained, dof)) =>
              if constrained && (0 <=? dof)%Z && (dof =? Z.of_nat d)%Z
              then [default f0 (values !! i)] else [])
           slots.

Definition constraint_hits (dm : dict (list Z)) (d : nat) (c : Constraint.t F) : list F :=
  match dict_get (Constraint.node_id c) dm with
  | Some node_dofs =>
      slot_hits d (Constraint.values c) (enumerate_zip (Constraint.dofs c) node_dofs)
  | None => []
  end.

(** All prescribed values on DOF [d], over the constraint list. *)
Definition hits (e : FEMEngine (F := F)) (d : nat) : list F :=
  flat_map (constraint_hits (dof_map e) d) (constraints e).

(** [K2], [F2] are [K1], [F1] with, for every DOF [d] and every prescribed
    value [v] in [h d], the penalty added to the diagonal entry [(d, d)] and
    penalty * [v] added to entry [d] of the vector; nothing else differs. *)
Definition penalized_by (h : nat -> list F) (K1 : csr F) (F1 : list F)
    (K2 : csr F) (F2 : list F) : Prop :=
  csr_shape K2 = csr_shape K1 /\
  length F2 = length F1 /\
  (forall i j : nat, i <> j -> csr_data K2 !! (i, j) = csr_data K1 !! (i, j)) /\
  (forall d : nat,
     csr_entry K2 d d = fold_left (fun a _ => fadd a penalty) (h d) (csr_entry K1 d d)) /\
  (forall (d : nat) (a : F),
     F1 !! d = Some a ->
     F2 !! d = Some (fold_left (fun a v => fadd a (fmul penalty v)) (h d) a)).

(** What a computation leaves alone when it only writes to [kc] and [fc]. *)
Definition writes_only (kc fc : loc) (w w' : World (F := F)) : Prop :=
  fem w' = fem w /\
  length (heap w') = length (heap w) /\
  forall l, l <> kc -> l <> fc -> heap w' !! l = heap w !! l.

(** The state of the two copies. *)
Definition holds (kc fc : loc) (w : World (F := F)) (K : csr F) (Fv : list F) : Prop :=
  heap w !! kc = Some (OCsr K) /\ heap w !! fc = Some (ONdarray Fv).

(** Everything but [element_forces] is as before. *)
Definition same_arrays (w w' : World (F := F)) : Prop :=
  heap w' = heap w /\
  K_global (fem w') = K_global (fem w) /\
  F_global (fem w') = F_global (fem w) /\
  displacements (fem w') = displacements (fem w) /\
  reactions (fem w') = reactions (fem w) /\
  total_dofs (fem w') = total_dofs (fem w).

(** The three assembly calls that open [solve_static]. *)
Definition assemble_system : Py unit :=
  _setup_dof_mapping ;; _assemble_global_stiffness ;; _assemble_global_force.

(** What [_apply_constraints] has done when it returns the references
    [kc], [fc] from a world whose [K_global], [F_global] hold [K], [Fg]. *)
Definition penalty_postcondition (w w' : World (F := F)) (kc fc : loc)
    (K : csr F) (Fg : list F) : Prop :=
  fem w' = fem w /\
  (forall l o, heap w !! l = Some o -> heap w' !! l = Some o) /\
  length (heap w) <= kc /\ length (heap w) <= fc /\
  exists Kc Fc,
    heap w' !! kc = Some (OCsr Kc) /\ heap w' !! fc = Some (ONdarray Fc) /\
    penalized_by (hits (fem w)) K Fg Kc Fc.

(** The world with its constraint list replaced by [c]. *)
Definition replace_constraints (c : list (Constraint.t F)) (w : World (F := F)) : World :=
  with_fem (set_constraints c) w.

(** [m] never reads the constraint list: with another list in place it
    returns (or raises) the same and leaves the same world, up to that list. *)
Definition ignores_constraints {A} (m : Py (F := F) A) : Prop :=
  forall c w,
    m (replace_constraints c w) = (fst (m w), replace_constraints c (snd (m w))).

(** *** Lumped mass *)

(** The mass [rho * A * L] of an element; [None] for an element without a
    section (or with a dangling reference, where the code raises). *)
Definition element_mass_opt (e : FEMEngine (F := F)) (el : Element.t F) : option F :=
  match dict_get (Element.material_id el) (materials e),
        dict_get_opt (Element.section_id el) (sections e),
        Element.nodes el with
  | Some material, Some section, n1 :: n2 :: _ =>
      match dict_get n1 (nodes e), dict_get n2 (nodes e) with
      | Some node1, Some node2 =>
          match element_length node1 node2 with
          | Val L => Some (fmul (fmul (Material.rho material) (CrossSection.A section)) L)
          | Exc _ => None
          end
      | _, _ => None
      end
  | _, _, _ => None
  end.

(** The share [rho * A * L / 2] of each end node. *)
Definition element_nodal_mass (e : FEMEngine (F := F)) (el : Element.t F) : option F :=
  (fun m => fdiv m (fofZ 2)) <$> element_mass_opt e el.

(** The contributions [(dof, mass)] of one node: its active translational
    slots 0, 1, 2. *)
Definition slot_contributions (node_dofs : list Z) (nodal_mass : F) : list (nat * F) :=
  flat_map (fun i => match node_dofs !! i with
                     | Some dof => if (0 <=? dof)%Z then [(Z.to_nat dof, nodal_mass)] else []
                     | None => []
                     end)
           (seq 0 3).

Definition node_contributions (dm : dict (list Z)) (node_ids : list Z) (nodal_mass : F)
  : list (nat * F) :=
  flat_map (fun node_id => match dict_get node_id dm with
                           | Some node_dofs => slot_contributions node_dofs nodal_mass
                           | None => []
                           end)
           node_ids.

Definition element_contributions (e : FEMEngine (F := F)) (el : Element.t F)
  : list (nat * F) :=
  match element_nodal_mass e el with
  | Some nodal_mass => node_contributions (dof_map e) (Element.nodes el) nodal_mass
  | None => []
  end.

(** Every [(dof, mass)] the mass assembly adds, in the order of the loops. *)
Definition mass_contributions (e : FEMEngine (F := F)) : list (nat * F) :=
  flat_map (element_contributions e) (dict_values (elements e)).

(** The masses among [cs] that land on DOF [d]. *)
Definition contributions_at (d : nat) (cs : list (nat * F)) : list F :=
  flat_map (fun '(d', m) => if Nat.eqb d' d then [m] else []) cs.

(** [M] is the [N x N] diagonal matrix that the contributions [cs] build. *)
Definition lumped (N : nat) (cs : list (nat * F)) (M : csr F) : Prop :=
  csr_shape M = (N, N) /\
  (forall i j : nat, i <> j -> csr_data M !! (i, j) = None) /\
  (forall d : nat, csr_entry M d d = fold_left fadd (contributions_at d cs) f0) /\
  (forall d m, (d, m) ∈ cs -> d < N).

(** The trace of a square sparse matrix. *)
Definition csr_trace (M : csr F) : F :=
  fold_left (fun acc d => fadd acc (csr_entry M d d)) (seq 0 (fst (csr_shape M))) f0.

(** The mass of an element, zero without a section. *)
Definition element_mass (e : FEMEngine (F := F)) (el : Element.t F) : F :=
  default f0 (element_mass_opt e el).

(** The total structural mass: the sum of the element masses. *)
Definition total_mass (e : FEMEngine (F := F)) : F :=
  fold_left (fun acc el => fadd acc (element_mass e el)) (dict_values (elements e)) f0.

(** The state of the mass matrix object during the assembly. *)
Definition mass_state (ml : loc) (N : nat) (w : World (F := F)) (cs : list (nat * F))
  : Prop :=
  exists M, heap w !! ml = Some (OCsr M) /\ lumped N cs M.

End SpecLevel.

Section SpecLevelSolvers.
Context {F : Type} {SF : Scalar F} {SP : Scipy F}.

(** What a successful [solve_static] has done, [r] being its payload. *)
Definition reactions_postcondition (w w' : World (F := F)) (r : StaticResult.t F) : Prop :=
  exists w3 lk lf lr K Fg Kc Fc Ku rv,
    assemble_system w = (Val tt, w3) /\
    K_global (fem w3) = Some lk /\ heap w3 !! lk = Some (OCsr K) /\
    F_global (fem w3) = Some lf /\ heap w3 !! lf = Some (ONdarray Fg) /\
    penalized_by (hits (fem w3)) K Fg Kc Fc /\
    spsolve Kc Fc = Val (StaticResult.displacements r) /\
    K_global (fem w') = Some lk /\ heap w' !! lk = Some (OCsr K) /\
    F_global (fem w') = Some lf /\ heap w' !! lf = Some (ONdarray Fg) /\
    reactions (fem w') = Some lr /\ heap w' !! lr = Some (ONdarray rv) /\
    csr_matvec K (StaticResult.displacements r) = Val Ku /\
    np_sub Ku Fg = Val rv.

(** *** Newmark-beta, as the specification states it *)

(** One step of the recurrence: from the state [(u, v, a)] at step i and
    the load [F_next] at step i+1,
      F* = F_next + M (a0 u + a2 v + a3 a) + C (a1 u + a4 v + a5 a),
      K* u' = F*,
      a' = a0 (u' - u) - a2 v - a3 a,
      v' = v + dt ((1 - gamma) a + gamma a'). *)
Definition newmark_spec_step (M C K_eff : csr F) (k : NewmarkConstants (F := F))
    (dt gamma : F) (F_next u v a : list F) : Res (list F * list F * list F) :=
  res_bind (np_add (np_scale (a0 k) u) (np_scale (a2 k) v)) (fun mu2 =>
  res_bind (np_add mu2 (np_scale (a3 k) a)) (fun mu =>
  res_bind (csr_matvec M mu) (fun Mu =>
  res_bind (np_add F_next Mu) (fun F_M =>
  res_bind (np_add (np_scale (a1 k) u) (np_scale (a4 k) v)) (fun cu2 =>
  res_bind (np_add cu2 (np_scale (a5 k) a)) (fun cu =>
  res_bind (csr_matvec C cu) (fun Cu =>
  res_bind (np_add F_M Cu) (fun F_eff =>
  res_bind (spsolve K_eff F_eff) (fun u' =>
  res_bind (np_sub u' u) (fun du =>
  res_bind (np_sub (np_scale (a0 k) du) (np_scale (a2 k) v)) (fun acc1 =>
  res_bind (np_sub acc1 (np_scale (a3 k) a)) (fun a' =>
  res_bind (np_add (np_scale (fsub (fofZ 1) gamma) a) (np_scale gamma a')) (fun mix =>
  res_bind (np_add v (np_scale dt mix)) (fun v' =>
  Val (u', v', a'))))))))))))))).

(** The index of the load used at step [i]: [i + 1], clamped to the last
    entry of a history of [len] entries. *)
Definition clamped_index (i len : nat) : Z :=
  Z.min (Z.of_nat i + 1) (Z.of_nat len - 1).

(** The row [r] stored by [h[i] = v]: [v] itself, or a one-element [v]
    broadcast. *)
Definition broadcast_row (r v : list F) : Prop :=
  r = v \/ exists b, v = [b] /\ r = replicate (length r) b.

(** Rows [i] and [i + 1] of the histories [U], [V], [A] are related by the
    recurrence, with the loads [Fh]. *)
Definition newmark_related (M C K_eff : csr F) (k : NewmarkConstants (F := F))
    (dt gamma : F) (U V A Fh : list (list F)) (i : nat) : Prop :=
  exists u v a F_next u' v' a' ru rv ra,
    U !! i = Some u /\ V !! i = Some v /\ A !! i = Some a /\
    (0 <= clamped_index i (length Fh))%Z /\
    Fh !! Z.to_nat (clamped_index i (length Fh)) = Some F_next /\
    newmark_spec_step M C K_eff k dt gamma F_next u v a = Val (u', v', a') /\
    U !! (i + 1) = Some ru /\ broadcast_row ru u' /\
    V !! (i + 1) = Some rv /\ broadcast_row rv v' /\
    A !! (i + 1) = Some ra /\ broadcast_row ra a'.

(** The four history arrays in the heap. *)
Definition histories (uh vh ah fh : loc) (w : World (F := F))
    (U V A Fh : list (list F)) : Prop :=
  heap w !! uh = Some (ONdarray2 U) /\ heap w !! vh = Some (ONdarray2 V) /\
  heap w !! ah = Some (ONdarray2 A) /\ heap w !! fh = Some (ONdarray2 Fh).

(** The constants are the ones the specification gives. *)
Definition newmark_constants_as_specified (k : NewmarkConstants (F := F))
    (dt beta gamma : F) : Prop :=
  a0 k = fdiv (fofZ 1) (fmul beta (fmul dt dt)) /\
  a1 k = fdiv gamma (fmul beta dt) /\
  a2 k = fdiv (fofZ 1) (fmul beta dt) /\
  a3 k = fsub (fdiv (fofZ 1) (fmul (fofZ 2) beta)) (fofZ 1) /\
  a4 k = fsub (fdiv gamma beta) (fofZ 1) /\
  a5 k = fmul (fdiv dt (fofZ 2)) (fsub (fdiv gamma beta) (fofZ 2)).

End SpecLevelSolvers.

(** The payload of a successful static solve (zeros otherwise). *)
Definition static_payload {F : Type} {SF : Scalar F}
    (r : Res (Outcome (StaticResult.t F))) : StaticResult.t F :=
  match r with
  | Val (Success p) => p
  | _ => StaticResult.mk [] (fofZ 0) 0
  end.


(** The matrix a world holds under [K_global] (empty when it holds none). *)
Definition stiffness_of {F : Type} (w : World (F := F)) : csr F :=
  match K_global (fem w) with
  | Some l => match heap w !! l with Some (OCsr K) => K | _ => csr_empty 0 0 end
  | None => csr_empty 0 0
  end.

(** The load vector a world holds under [F_global]. *)
Definition force_of {F : Type} (w : World (F := F)) : list F :=
  match F_global (fem w) with
  | Some l => match heap w !! l with Some (ONdarray v) => v | _ => [] end
  | None => []
  end.

(** The sum of a list of reals. *)
Definition Rsum (l : list R) : R := fold_right Rplus 0%R l.

(** Every material has a non-negative density and every section a
    non-negative area. *)
Definition nonnegative_properties (e : FEMEngine (F := R)) : Prop :=
  (forall k material, dict_get k (materials e) = Some material ->
                      (0 <= Material.rho material)%R) /\
  (forall k section, dict_get k (sections e) = Some section ->
                     (0 <= CrossSection.A section)%R).

(** The three translational slots of a node's DOF list are active. *)
Definition translations_active (node_dofs : list Z) : Prop :=
  exists tx ty tz rest,
    node_dofs = tx :: ty :: tz :: rest /\ (0 <= tx)%Z /\ (0 <= ty)%Z /\ (0 <= tz)%Z.

(** Every element joins two nodes whose translational DOFs are all active. *)
Definition two_node_elements (e : FEMEngine (F := R)) : Prop :=
  forall el, el ∈ dict_values (elements e) ->
    exists n1 n2 d1 d2,
      Element.nodes el = [n1; n2] /\
      dict_get n1 (dof_map e) = Some d1 /\ translations_active d1 /\
      dict_get n2 (dof_map e) = Some d2 /\ translations_active d2.

(** The matrix a world holds under [M_global] (empty when it holds none). *)
Definition mass_of {F : Type} (w : World (F := F)) : csr F :=
  match M_global (fem w) with
  | Some l => match heap w !! l with Some (OCsr M) => M | _ => csr_empty 0 0 end
  | None => csr_empty 0 0
  end.

(** *** Further example worlds *)

(** A model with masked-off slots: node 5 has only translations, node 2 has
    x, z and the rotation about y. *)
Definition masked_nodes : World (F := float) :=
  after (add_node (Node.mk 5 0 0 0 [true; true; true; false; false; false]) ;;
         add_node (Node.mk 2 1 0 0 [true; false; true; false; true; false]))%float
        fresh.

(** The cantilever after DOF numbering and assembly of K and F. *)
Definition cantilever_assembled : World (F := float) :=
  after (_setup_dof_mapping ;; _assemble_global_stiffness ;; _assemble_global_force)
        cantilever_beam.

(** The cantilever solved with the direct solver of the examples. *)
Definition cantilever_static
  : Res (Outcome (StaticResult.t float)) * World (F := float) :=
  solve_static (SP := gauss_backend) cantilever_beam.

(** The cantilever with its DOFs numbered and its mass matrix assembled. *)
Definition cantilever_mass : World (F := float) :=
  after (_setup_dof_mapping ;; _assemble_global_mass) cantilever_beam.

(** The cantilever as [solve_modal] has it when it calls [eigsh]: DOFs
    numbered, K and M assembled. *)
Definition cantilever_modal : World (F := float) :=
  after (_setup_dof_mapping ;; _assemble_global_stiffness ;; _assemble_global_mass)
        cantilever_beam.

(** Both nodes of the cantilever moved by one unit along x. *)
Definition rigid_translation_x : list float :=
  [1; 0; 0; 0; 0; 0; 1; 0; 0; 0; 0; 0]%float.

(** The material and the section of the beam, over the reals. *)
Definition steel_exact : Material.t R :=
  material 1 "steel" 200000000000%R (3 / 10)%R 7850%R.
Definition beam_section_exact : CrossSection.t R :=
  section 1 "beam" (1 / 100)%R 0%R (833 / 100000000)%R (833 / 100000000)%R
          (1 / 1000000)%R.

(** The same beam over the reals, with its DOFs numbered. *)
Definition unit_beam_exact : World (F := R) :=
  after (add_node (node 0 0 0 0) ;;
         add_node (node 1 1 0 0) ;;
         add_material steel_exact ;;
         add_section beam_section_exact ;;
         add_element (element 1 BEAM [0; 1]%Z 1 (Some 1%Z)) ;;
         _setup_dof_mapping)%R
        fresh.

(** A free truss bar whose nodes carry translations only. *)
Definition translational_truss : World (F := float) :=
  after (add_node (Node.mk 0 0 0 0 [true; true; true; false; false; false]) ;;
         add_node (Node.mk 1 1 0 0 [true; true; true; false; false; false]) ;;
         add_material (material 1 "steel" 2e11 0.3 7850) ;;
         add_section (section 1 "bar" 0.01 0 0 0 0) ;;
         add_element (element 1 TRUSS [0; 1]%Z 1 (Some 1%Z)))%float
        fresh.

(** The bar prepared for time integration: DOFs numbered, K and M
    assembled, then three zero histories of three rows (objects 3, 4, 5), a
    load history of two rows (object 6) and a damping matrix 0.001 K
    (object 7). *)
Definition newmark_world : World (F := float) :=
  after (_setup_dof_mapping ;;
         _assemble_global_stiffness ;;
         _assemble_global_mass ;;
         alloc (ONdarray2 (replicate 3 (np_zeros 6))) ;;
         alloc (ONdarray2 (replicate 3 (np_zeros 6))) ;;
         alloc (ONdarray2 (replicate 3 (np_zeros 6))) ;;
         alloc (ONdarray2 [np_zeros 6; [0; 0; 0; 1e5; 0; 0]%float]) ;;
         w ← get_world;
         alloc (OCsr (csr_scale 0.001%float (stiffness_of w))))
        translational_truss.

(** A backend for running [solve_modal] in the examples: [eigsh] answers
    every call with the given eigenvalues and eigenvector rows. *)
Definition canned_backend (eigenvals : list float) (eigenvecs : list (list float))
  : Scipy float := {|
  spsolve := gauss_solve;
  eigsh := fun _ _ _ => Val (eigenvals, eigenvecs)
|}.


(* ================================================================== *)
(** ** Further functions of the two modules and their callers *)

Section SpecLevelNumbering.
Context {F : Type} {SF : Scalar F}.

(** [self.dof_map[node_id][j]] for the [p]-th node of the model. *)
Definition dof_at (e : FEMEngine (F := F)) (p j : nat) : option Z :=
  it ← nodes e !! p;
  node_dofs ← dict_get (fst it) (dof_map e);
  node_dofs !! j.

End SpecLevelNumbering.

Section SpecLevelForce.
Context {F : Type} {SF : Scalar F}.

(** The pairs [(dof, force)] one load adds to the force vector, in the
    order of the loop: the values zipped with the DOFs of the node, the
    inactive ones left out. *)
Definition load_contributions (dm : dict (list Z)) (load : Load.t F) : list (nat * F) :=
  match Load.node_id load with
  | Some node_id =>
      match dict_get node_id dm with
      | Some node_dofs =>
          flat_map (fun '(i, (force, dof)) =>
                      if (0 <=? dof)%Z then [(Z.to_nat dof, force)] else [])
                   (enumerate_zip (Load.values load) node_dofs)
      | None => []
      end
  | None => []
  end.

(** Every [(dof, force)] the force assembly adds. *)
Definition force_contributions (e : FEMEngine (F := F)) : list (nat * F) :=
  flat_map (load_contributions (dof_map e)) (loads e).

(** [Fv] is the vector of length [N] that the contributions [cs] build. *)
Definition accumulated (N : nat) (cs : list (nat * F)) (Fv : list F) : Prop :=
  length Fv = N /\
  (forall d : nat, d < N ->
     Fv !! d = Some (fold_left fadd (contributions_at d cs) f0)) /\
  (forall d x, (d, x) ∈ cs -> d < N).

End SpecLevelForce.

(** The model with masked-off slots, numbered, with four loads: two on node
    5 (the second with three values only), one on node 2, and one that names
    no node. *)
Definition loaded_nodes : World (F := float) :=
  after (add_load (nodal_load 1 5 [1; 2; 3; 4; 5; 6]) ;;
         add_load (nodal_load 2 2 [10; 20; 30; 40; 50; 60]) ;;
         add_load (nodal_load 3 5 [1; 0; 0]) ;;
         add_load (Load.mk 4 None (Some 1%Z) "pressure" "global" [7; 7; 7; 7; 7; 7]) ;;
         _setup_dof_mapping)%float
        masked_nodes.

Section CentralDifference.
Context {F : Type} {SF : Scalar F} {SP : Scipy F}.

(** One round of the loop of [_central_difference_integration], for step
    [i]. *)
Definition _central_difference_step (u_history v_history a_history force_history : loc)
    (C M_eff : csr F) (dt : F) (i : nat) : Py unit :=
  (* Current state *)
  u_n ← ndarray2_row u_history i;
  v_n ← ndarray2_row v_history i;
  (* Load at current time step *)
  forces ← read_ndarray2 force_history;
  let idx := Z.min (Z.of_nat i) (Z.of_nat (length forces) - 1) in
  F_n ← (if (idx <? 0)%Z then raise IndexError
         else lift (list_getitem forces (Z.to_nat idx)));
  (* Effective force *)
  e ← get_fem;
  K ← read_csr_field (K_global e);
  Ku ← lift (csr_matvec K u_n);
  F_K ← lift (np_sub F_n Ku);
  Cv ← lift (csr_matvec C v_n);
  F_eff ← lift (np_sub F_K Cv);
  (* Solve for acceleration *)
  a_n ← lift (spsolve M_eff F_eff);
  (* Update velocity and displacement *)
  v_next ← lift (np_add v_n (np_scale dt a_n));
  u_next ← lift (np_add u_n (np_scale dt v_next));
  (* Store results *)
  ndarray2_set_row u_history (i + 1) u_next ;;
  ndarray2_set_row v_history (i + 1) v_next ;;
  ndarray2_set_row a_history (i + 1) a_n.

(** [M + dt/2 * C] *)
Definition effective_mass (M C : csr F) (dt : F) : Res (csr F) :=
  csr_add M (csr_scale (fdiv dt (fofZ 2)) C).

Definition _central_difference_integration
    (u_history v_history a_history force_history : loc) (C : loc) (dt : F)
  : Py (Outcome unit) :=
  try_except
    (uh ← read_ndarray2 u_history;
     let n_steps := (Z.of_nat (length uh) - 1)%Z in
     (* Effective mass matrix *)
     e ← get_fem;
     M ← read_csr_field (M_global e);
     Cm ← read_csr C;
     M_eff ← lift (effective_mass M Cm dt);
     for_each (seq 0 (Z.to_nat n_steps))
       (_central_difference_step u_history v_history a_history force_history Cm M_eff dt) ;;
     mret (Success tt))
    (fun e => mret (Failure (Str e))).

(** One step of the scheme: from the state [(u, v)] and the load [F_n] at
    step i,
      F* = F_n - K u - C v,   M* a = F*,
      v' = v + dt a,          u' = u + dt v'. *)
Definition central_difference_spec_step (K C M_eff : csr F) (dt : F)
    (F_n u v : list F) : Res (list F * list F * list F) :=
  res_bind (csr_matvec K u) (fun Ku =>
  res_bind (np_sub F_n Ku) (fun F_K =>
  res_bind (csr_matvec C v) (fun Cv =>
  res_bind (np_sub F_K Cv) (fun F_eff =>
  res_bind (spsolve M_eff F_eff) (fun a =>
  res_bind (np_add v (np_scale dt a)) (fun v' =>
  res_bind (np_add u (np_scale dt v')) (fun u' =>
  Val (u', v', a)))))))).

(** The index of the load used at step [i]: [i], clamped to the last entry. *)
Definition clamped_current (i len : nat) : Z :=
  Z.min (Z.of_nat i) (Z.of_nat len - 1).

(** Rows [i] and [i + 1] of the histories are related by the scheme; the
    acceleration solved at step [i] is stored in row [i + 1]. *)
Definition central_difference_related (K C M_eff : csr F) (dt : F)
    (U V A Fh : list (list F)) (i : nat) : Prop :=
  exists u v F_n u' v' a ru rv ra,
    U !! i = Some u /\ V !! i = Some v /\
    (0 <= clamped_current i (length Fh))%Z /\
    Fh !! Z.to_nat (clamped_current i (length Fh)) = Some F_n /\
    central_difference_spec_step K C M_eff dt F_n u v = Val (u', v', a) /\
    U !! (i + 1) = Some ru /\ broadcast_row ru u' /\
    V !! (i + 1) = Some rv /\ broadcast_row rv v' /\
    A !! (i + 1) = Some ra /\ broadcast_row ra a.

End CentralDifference.

(** *** The rest of [AdvancedSolvers]: buckling and dynamic response *)

(** Three more library routines: Python's [int()] on a float (truncation
    towards zero; [ValueError] on a NaN, [OverflowError] on an infinity),
    [np.linspace(start, stop, num)] and [np.sin]. *)
Class Builtins (F : Type) := {
  py_int : F -> Res Z;
  np_linspace : F -> F -> Z -> Res (list F);
  np_sin : F -> F
}.

(** [int(x)] on binary64. *)
Definition float_int (x : float) : Res Z :=
  match Prim2SF x with
  | S754_zero _ => Val 0%Z
  | S754_infinity _ => Exc OverflowError
  | S754_nan => Exc (ValueError "cannot convert float NaN to integer")
  | S754_finite s m e =>
      let magnitude := match e with
                       | Zneg p => (Zpos m / 2 ^ Zpos p)%Z
                       | _ => (Zpos m * 2 ^ e)%Z
                       end in
      Val (if s then (- magnitude)%Z else magnitude)
  end.

(** [DynamicOptions] of solvers.py. *)
Module DynamicOptions.
Record t (F : Type) : Type := mk {
  time_step : F;
  total_time : F;
  damping_ratio : F;
  integration_method : string;
  beta : F;
  gamma : F
}.
Arguments mk {F}.
Arguments time_step {F}.
Arguments total_time {F}.
Arguments damping_ratio {F}.
Arguments integration_method {F}.
Arguments beta {F}.
Arguments gamma {F}.
End DynamicOptions.

(** The payload of [solve_buckling_analysis]'s success dict. *)
Module BucklingResult.
Record t (F : Type) : Type := mk {
  critical_loads : list F;
  buckling_modes : list (list F);
  num_modes : Z;
  first_critical_load : F
}.
Arguments mk {F}.
Arguments critical_loads {F}.
Arguments buckling_modes {F}.
Arguments num_modes {F}.
Arguments first_critical_load {F}.
End BucklingResult.

(** The payload of [solve_dynamic_response]'s success dict. *)
Module DynamicResult.
Record t (F : Type) : Type := mk {
  displacement_history : list (list F);
  velocity_history : list (list F);
  acceleration_history : list (list F);
  time_vector : list F;
  max_displacement : F;
  max_velocity : F;
  max_acceleration : F;
  time_step : F;
  total_time : F
}.
Arguments mk {F}.
Arguments displacement_history {F}.
Arguments velocity_history {F}.
Arguments acceleration_history {F}.
Arguments time_vector {F}.
Arguments max_displacement {F}.
Arguments max_velocity {F}.
Arguments max_acceleration {F}.
Arguments time_step {F}.
Arguments total_time {F}.
End DynamicResult.

(** The dict [solve_buckling_analysis] returns: its inner handler has a
    message of its own. *)
Inductive BucklingOutcome (F : Type) : Type :=
| BucklingSuccess (payload : BucklingResult.t F)
| EigenvalueSolverFailed (e : Exn)     (* f"Eigenvalue solver failed: {str(e)}" *)
| BucklingFailure (e : Exn).           (* str(e) *)
Arguments BucklingSuccess {F} payload.
Arguments EigenvalueSolverFailed {F} e.
Arguments BucklingFailure {F} e.

Section SolversRest.
Context {F : Type} {SF : Scalar F} {SP : Scipy F} {BI : Builtins F}.

(** [-A] *)
Definition csr_neg (A : csr F) : csr F := mk_csr (csr_shape A) (fneg <$> csr_data A).

Definition _assemble_geometric_stiffness : Py (F := F) nat :=
  (* Simplified implementation *)
  e ← get_fem;
  K_geo ← lift (csr_matrix_shape (total_dofs e));
  alloc (OCsr K_geo).

Definition solve_buckling_analysis (num_modes : Z) : Py (BucklingOutcome F) :=
  try_except
    ((* Setup system *)
     _setup_dof_mapping ;;
     _assemble_global_stiffness ;;
     (* Assemble geometric stiffness matrix *)
     K_geometric ← _assemble_geometric_stiffness;
     (* Apply boundary conditions *)
     e ← get_fem;
     kg ← not_none (K_global e);
     K_elastic ← copy kg;
     K_geo_constrained ← copy K_geometric;
     (* Solve generalized eigenvalue problem: (K_e + λ*K_g)*φ = 0 *)
     try_except
       (Kg ← read_csr K_geo_constrained;
        Ke ← read_csr K_elastic;
        '(eigenvals, eigenvecs) ← lift (eigsh (csr_neg Kg) num_modes Ke);
        (* Critical load factors (eigenvalues) *)
        let critical_loads := map fneg eigenvals in
        first ← lift (list_getitem critical_loads 0);
        mret (BucklingSuccess
                (BucklingResult.mk critical_loads eigenvecs num_modes first)))
       (fun e => mret (EigenvalueSolverFailed e)))
    (fun e => mret (BucklingFailure e)).

(** [C = α*M + β*K] with [α = 0.0] and [β = 2 * damping_ratio / 100.0]. *)
Definition rayleigh_beta (damping_ratio : F) : F :=
  fdiv (fmul (fofZ 2) damping_ratio) (fofZ 100).

Definition _assemble_rayleigh_damping (damping_ratio : F) : Py (F := F) nat :=
  let alpha := fofZ 0 in   (* Mass proportional *)
  let beta := rayleigh_beta damping_ratio in   (* Stiffness proportional (simplified) *)
  e ← get_fem;
  M ← read_csr_field (M_global e);
  K ← read_csr_field (K_global e);
  C ← lift (csr_add (csr_scale alpha M) (csr_scale beta K));
  alloc (OCsr C).

(** [np.zeros((n, m))] for ints [n], [m]. *)
Definition np_zeros2_int (n m : Z) : Res (list (list F)) :=
  if ((n <? 0) || (m <? 0))%Z
  then Exc (ValueError "negative dimensions are not allowed")
  else Val (replicate (Z.to_nat n) (np_zeros (Z.to_nat m))).

(** [np.max(np.abs(h))] on a two-dimensional array object. *)
Definition max_abs_history (h : nat) : Py (F := F) F :=
  rows ← read_ndarray2 h;
  lift (np_max_abs (concat rows)).

Definition solve_dynamic_response (time_history_loads : nat)
    (options : DynamicOptions.t F) : Py (Outcome (DynamicResult.t F)) :=
  try_except
    ((* Setup system *)
     _setup_dof_mapping ;;
     _assemble_global_stiffness ;;
     _assemble_global_mass ;;
     (* Assemble damping matrix (Rayleigh damping) *)
     C_global ← _assemble_rayleigh_damping (DynamicOptions.damping_ratio options);
     (* Time parameters *)
     let dt := DynamicOptions.time_step options in
     let t_total := DynamicOptions.total_time options in
     q ← lift (py_div t_total dt);
     n_steps ← lift (py_int q);
     (* Initialize response arrays *)
     e ← get_fem;
     zeros2 ← lift (np_zeros2_int (n_steps + 1) (total_dofs e));
     u_history ← alloc (ONdarray2 zeros2);
     v_history ← alloc (ONdarray2 zeros2);
     a_history ← alloc (ONdarray2 zeros2);
     (* Initial conditions (zero) *)
     u ← lift (np_zeros_int (total_dofs e));
     v ← lift (np_zeros_int (total_dofs e));
     (* Calculate initial acceleration *)
     loads ← read_ndarray2 time_history_loads;
     F0 ← (if Nat.ltb 0 (length loads) then lift (list_getitem loads 0)
           else lift (np_zeros_int (total_dofs e)));
     Cm ← read_csr C_global;
     Cv ← lift (csr_matvec Cm v);
     r1 ← lift (np_sub F0 Cv);
     K ← read_csr_field (K_global e);
     Ku ← lift (csr_matvec K u);
     r2 ← lift (np_sub r1 Ku);
     M ← read_csr_field (M_global e);
     a ← lift (spsolve M r2);
     ndarray2_set_row u_history 0 u ;;
     ndarray2_set_row v_history 0 v ;;
     ndarray2_set_row a_history 0 a ;;
     (* Time integration *)
     result ←
       (if String.eqb (DynamicOptions.integration_method options) "newmark"
        then _newmark_integration u_history v_history a_history time_history_loads
               C_global dt (DynamicOptions.beta options) (DynamicOptions.gamma options)
        else if String.eqb (DynamicOptions.integration_method options) "central_difference"
        then _central_difference_integration u_history v_history a_history
               time_history_loads C_global dt
        else raise (ValueError "Unknown integration method"));
     match result with
     | Failure error => mret (Failure error)
     | Success _ =>
         (* Calculate response statistics *)
         max_displacement ← max_abs_history u_history;
         max_velocity ← max_abs_history v_history;
         max_acceleration ← max_abs_history a_history;
         U ← read_ndarray2 u_history;
         V ← read_ndarray2 v_history;
         A ← read_ndarray2 a_history;
         time_vector ← lift (np_linspace (fofZ 0) t_total (n_steps + 1));
         mret (Success (DynamicResult.mk U V A time_vector
                          max_displacement max_velocity max_acceleration dt t_total))
     end)
    (fun e => mret (Failure (Str e))).

End SolversRest.

Section SpecLevelDynamic.
Context {F : Type} {SF : Scalar F} {SP : Scipy F} {BI : Builtins F}.

(** The Rayleigh damping matrix of [_assemble_rayleigh_damping]. *)
Definition rayleigh (M K : csr F) (damping_ratio : F) : Res (csr F) :=
  csr_add (csr_scale (fofZ 0) M) (csr_scale (rayleigh_beta damping_ratio) K).

(** The load at time 0: the first row of the history, or zeros for an
    empty history. *)
Definition first_load (Fh : list (list F)) (N : nat) : list F :=
  default (np_zeros N) (Fh !! 0).

(** [a] is the initial acceleration [spsolve(M, F0 - C @ v - K @ u)] for
    zero [u] and [v] of [N] entries. *)
Definition initial_acceleration (M K C : csr F) (N : nat) (F0 a : list F) : Prop :=
  exists Cv r1 Ku r2,
    csr_matvec C (np_zeros N) = Val Cv /\ np_sub F0 Cv = Val r1 /\
    csr_matvec K (np_zeros N) = Val Ku /\ np_sub r1 Ku = Val r2 /\
    spsolve M r2 = Val a.

(** What a successful [solve_dynamic_response] has done before it hands the
    histories to the integrator, and what it returns of it: [n_steps] is
    int(total_time / time_step); the three histories have [n_steps + 1]
    rows; rows 0 hold the zero initial displacement and velocity and the
    initial acceleration. *)
Definition dynamic_postcondition (w : World (F := F)) (Fh : list (list F))
    (options : DynamicOptions.t F) (r : DynamicResult.t F) : Prop :=
  let wc := snd ((_setup_dof_mapping ;; _assemble_global_stiffness ;;
                  _assemble_global_mass) w) in
  let N := count_true (all_slots (nodes (fem w))) in
  exists q n_steps Cm a_init ra,
    py_div (DynamicOptions.total_time options) (DynamicOptions.time_step options) = Val q /\
    py_int q = Val n_steps /\ (0 <= n_steps)%Z /\
    rayleigh (mass_of wc) (stiffness_of wc) (DynamicOptions.damping_ratio options) = Val Cm /\
    initial_acceleration (mass_of wc) (stiffness_of wc) Cm N (first_load Fh N) a_init /\
    length (DynamicResult.displacement_history r) = Z.to_nat (n_steps + 1) /\
    length (DynamicResult.velocity_history r) = Z.to_nat (n_steps + 1) /\
    length (DynamicResult.acceleration_history r) = Z.to_nat (n_steps + 1) /\
    DynamicResult.displacement_history r !! 0 = Some (np_zeros N) /\
    DynamicResult.velocity_history r !! 0 = Some (np_zeros N) /\
    DynamicResult.acceleration_history r !! 0 = Some ra /\ broadcast_row ra a_init /\
    (DynamicOptions.integration_method options = "newmark"%string \/
     DynamicOptions.integration_method options = "central_difference"%string) /\
    np_linspace (fofZ 0) (DynamicOptions.total_time options) (n_steps + 1)
      = Val (DynamicResult.time_vector r) /\
    DynamicResult.time_step r = DynamicOptions.time_step options /\
    DynamicResult.total_time r = DynamicOptions.total_time options.

End SpecLevelDynamic.

(** *** The analysis endpoints ([backend/app/api/analysis.py])

    The request models [NodeModel], [MaterialModel], [LoadModel] and
    [ConstraintModel] have the fields of the engine's dataclasses and are
    represented by them; a section arrives without section moduli and an
    element with its type as a string. *)

Module SectionModel.
Record t (F : Type) : Type := mk {
  id : Z; name : string;
  A : F; Ix : F; Iy : F; Iz : F; J : F
}.
Arguments mk {F}.
Arguments id {F}.
Arguments name {F}.
Arguments A {F}.
Arguments Ix {F}.
Arguments Iy {F}.
Arguments Iz {F}.
Arguments J {F}.
End SectionModel.

Module ElementModel.
Record t : Type := mk {
  id : Z;
  type : string;
  nodes : list Z;
  material_id : Z;
  section_id : option Z
}.
End ElementModel.

Module StructuralModel.
Record t (F : Type) : Type := mk {
  nodes : list (Node.t F);
  materials : list (Material.t F);
  sections : list (SectionModel.t F);
  elements : list ElementModel.t;
  loads : list (Load.t F);
  constraints : list (Constraint.t F)
}.
Arguments mk {F}.
Arguments nodes {F}.
Arguments materials {F}.
Arguments sections {F}.
Arguments elements {F}.
Arguments loads {F}.
Arguments constraints {F}.
End StructuralModel.

(** [ElementType(value)]: the member with that value, or [ValueError]. *)
Definition ElementType_of_value (value : string) : Res ElementType :=
  if String.eqb value "truss" then Val TRUSS
  else if String.eqb value "beam" then Val BEAM
  else if String.eqb value "frame" then Val FRAME
  else if String.eqb value "plate" then Val PLATE
  else if String.eqb value "shell" then Val SHELL
  else if String.eqb value "solid" then Val SOLID
  else Exc (ValueError "is not a valid ElementType").

(** The entries of [validate_model]'s error and warning lists. *)
Inductive ValidationError : Type :=
| TooFewNodes                                   (* Model must have at least 2 nodes *)
| NoElement                                     (* Model must have at least 1 element *)
| NoMaterial                                    (* Model must have at least 1 material *)
| MissingNode (element_id node_id : Z)          (* references non-existent node *)
| MissingMaterial (element_id material_id : Z). (* references non-existent material *)

Inductive ValidationWarning : Type :=
| NoBoundaryConditions
| NoLoads.

Module ValidationReport.
Record t : Type := mk {
  valid : bool;
  errors : list ValidationError;
  warnings : list ValidationWarning;
  summary_nodes : nat;
  summary_elements : nat;
  summary_materials : nat;
  summary_loads : nat;
  summary_constraints : nat
}.
End ValidationReport.

(** The options dict of a dynamic request, by key ([None]: key absent). *)
Module DynamicRequest.
Record t (F : Type) : Type := mk {
  time_step : option F;
  total_time : option F;
  damping_ratio : option F;
  integration_method : option string;
  frequency : option F;
  amplitude : option F
}.
Arguments mk {F}.
Arguments time_step {F}.
Arguments total_time {F}.
Arguments damping_ratio {F}.
Arguments integration_method {F}.
Arguments frequency {F}.
Arguments amplitude {F}.
End DynamicRequest.

Section Endpoints.
Context {F : Type} {SF : Scalar F} {SP : Scipy F} {BI : Builtins F}.

Definition validate_model (model : StructuralModel.t F) : ValidationReport.t :=
  (* Check for minimum requirements *)
  let e1 := if Nat.ltb (length (StructuralModel.nodes model)) 2 then [TooFewNodes] else [] in
  let e2 := if Nat.ltb (length (StructuralModel.elements model)) 1 then [NoElement] else [] in
  let e3 := if Nat.ltb (length (StructuralModel.materials model)) 1 then [NoMaterial] else [] in
  (* Check node connectivity *)
  let node_ids := map Node.id (StructuralModel.nodes model) in
  let e4 := flat_map (fun element =>
                flat_map (fun node_id =>
                            if bool_decide (node_id ∈ node_ids) then []
                            else [MissingNode (ElementModel.id element) node_id])
                         (ElementModel.nodes element))
              (StructuralModel.elements model) in
  (* Check material references *)
  let material_ids := map Material.id (StructuralModel.materials model) in
  let e5 := flat_map (fun element =>
                if bool_decide (ElementModel.material_id element ∈ material_ids) then []
                else [MissingMaterial (ElementModel.id element)
                                      (ElementModel.material_id element)])
              (StructuralModel.elements model) in
  let validation_errors := e1 ++ e2 ++ e3 ++ e4 ++ e5 in
  (* Check for boundary conditions and loads *)
  let w1 := if Nat.ltb 0 (length (StructuralModel.constraints model)) then []
            else [NoBoundaryConditions] in
  let w2 := if Nat.ltb 0 (length (StructuralModel.loads model)) then [] else [NoLoads] in
  ValidationReport.mk (Nat.eqb (length validation_errors) 0) validation_errors (w1 ++ w2)
    (length (StructuralModel.nodes model)) (length (StructuralModel.elements model))
    (length (StructuralModel.materials model)) (length (StructuralModel.loads model))
    (length (StructuralModel.constraints model)).

(** [build_model(engine, model)]; its handler logs and re-raises. *)
Definition build_model (model : StructuralModel.t F) : Py (F := F) unit :=
  (* Add nodes *)
  for_each (StructuralModel.nodes model) add_node ;;
  (* Add materials *)
  for_each (StructuralModel.materials model) add_material ;;
  (* Add sections *)
  for_each (StructuralModel.sections model) (fun s =>
    add_section (CrossSection.mk (SectionModel.id s) (SectionModel.name s)
                   (SectionModel.A s) (SectionModel.Ix s) (SectionModel.Iy s)
                   (SectionModel.Iz s) (SectionModel.J s) None None)) ;;
  (* Add elements *)
  for_each (StructuralModel.elements model) (fun el =>
    type ← lift (ElementType_of_value (ElementModel.type el));
    add_element (Element.mk (ElementModel.id el) type (ElementModel.nodes el)
                   (ElementModel.material_id el) (ElementModel.section_id el) None)) ;;
  (* Add loads *)
  for_each (StructuralModel.loads model) add_load ;;
  (* Add constraints *)
  for_each (StructuralModel.constraints model) add_constraint.

(** [h[:, j] = v] on a two-dimensional array object. *)
Definition ndarray2_set_column (l : nat) (j : nat) (v : list F) : Py (F := F) unit :=
  rows ← read_ndarray2 l;
  if negb (forallb (fun row => Nat.ltb j (length row)) rows) then raise IndexError
  else
    vals ← lift (if Nat.eqb (length v) (length rows) then Val v
                 else match v with
                      | [b] => Val (replicate (length rows) b)
                      | _ => Exc (ValueError "could not broadcast input array")
                      end);
    store l (ONdarray2 (zip_with (fun row x => <[j := x]> row) rows vals)).

(** The body of [run_dynamic_analysis] on a new engine: what it hands back
    as [results], an exception standing for the [HTTPException] (status 500)
    its handler raises.  The analysis id, the timestamps and the module's
    store of past results are left out. *)
Definition run_dynamic_analysis (model : StructuralModel.t F)
    (request_options : DynamicRequest.t F) : Py (Outcome (DynamicResult.t F)) :=
  (* Create FEM engine and build model *)
  build_model model ;;
  (* Setup dynamic options *)
  let options :=
    DynamicOptions.mk
      (default (fdecimal 1 (-2)) (DynamicRequest.time_step request_options))
      (default (fofZ 10) (DynamicRequest.total_time request_options))
      (default (fdecimal 5 (-2)) (DynamicRequest.damping_ratio request_options))
      (default "newmark"%string (DynamicRequest.integration_method request_options))
      (fdecimal 25 (-2)) (fdecimal 5 (-1)) in
  (* Get time history loads *)
  q ← lift (py_div (DynamicOptions.total_time options) (DynamicOptions.time_step options));
  n_steps ← lift (py_int q);
  e ← get_fem;
  zeros2 ← lift (np_zeros2_int (n_steps + 1) (total_dofs e));
  time_history ← alloc (ONdarray2 zeros2);
  (* Apply harmonic loading for demonstration *)
  match DynamicRequest.frequency request_options with
  | Some freq =>
      let amplitude := default (fofZ 1000) (DynamicRequest.amplitude request_options) in
      time_vec ← lift (np_linspace (fofZ 0) (DynamicOptions.total_time options) (n_steps + 1));
      (* Apply to first DOF for demonstration *)
      if (0 <? total_dofs e)%Z
      then ndarray2_set_column time_history 0
             (map (fun t => fmul amplitude
                              (np_sin (fmul (fmul (fmul (fofZ 2) fpi) freq) t)))
                  time_vec)
      else mret tt
  | None => mret tt
  end ;;
  (* Run dynamic analysis *)
  solve_dynamic_response time_history options.

End Endpoints.

(** A truss bar over the reals, its nodes carrying translations only, with
    its DOFs numbered and K and M assembled. *)
Definition unit_truss_exact : World (F := R) :=
  after (add_node (Node.mk 0 0 0 0 [true; true; true; false; false; false]) ;;
         add_node (Node.mk 1 1 0 0 [true; true; true; false; false; false]) ;;
         add_material steel_exact ;;
         add_section beam_section_exact ;;
         add_element (element 1 TRUSS [0; 1]%Z 1 (Some 1%Z)) ;;
         _setup_dof_mapping ;;
         _assemble_global_stiffness ;;
         _assemble_global_mass)%R
        fresh.

(** *** Library routines for the executable examples *)

(** [np.linspace(start, stop, num)] as documented: [num] evenly spaced
    samples from [start], the last one [stop]. *)
Definition example_linspace (start stop : float) (num : Z) : Res (list float) :=
  if (num <? 0)%Z then Exc (ValueError "Number of samples must be non-negative")
  else
    let n := Z.to_nat num in
    let step := ((stop - start) / float_ofZ (num - 1))%float in
    Val (map (fun i => if Nat.eqb (S i) n then stop
                       else (start + float_ofZ (Z.of_nat i) * step)%float)
             (seq 0 n)).

(** [int()] is computed; [np.sin] is not needed by the examples (no example
    reaches the harmonic load), so its first-order term stands in for it. *)
Definition example_builtins : Builtins float := {|
  py_int := float_int;
  np_linspace := example_linspace;
  np_sin := fun x => x
|}.

(** The free truss bar with a load history of three rows as its first
    array object, and the options of a run of two steps of 0.01 s. *)
Definition dynamic_world : World (F := float) :=
  after (alloc (ONdarray2 [np_zeros 6; [0; 0; 0; 1e5; 0; 0]; [0; 0; 0; 1e5; 0; 0]]%float))
        translational_truss.

Definition two_steps (integration_method : string) : DynamicOptions.t float :=
  DynamicOptions.mk 0.01%float 0.02%float 0.05%float integration_method
                    0.25%float 0.5%float.

(** The same bar with a load history whose rows have three entries. *)
Definition misshaped_world : World (F := float) :=
  after (alloc (ONdarray2 [[0; 0; 0]; [1e5; 0; 0]]%float)) translational_truss.

(** A request: the bar with all six DOFs per node, fixed at node 0. *)
Definition bar_request : StructuralModel.t float :=
  StructuralModel.mk
    [node 0 0 0 0; node 1 1 0 0]%float
    [material 1 "steel" 2e11 0.3 7850]%float
    [SectionModel.mk 1 "bar" 0.01 0 8.33e-6 8.33e-6 1e-6]%float
    [ElementModel.mk 1 "beam" [0; 1]%Z 1 (Some 1%Z)]
    [nodal_load 1 1 [0; -1e4; 0; 0; 0; 0]]%float
    [constraint 1 0 [true; true; true; true; true; true]].

Definition harmonic_request : DynamicRequest.t float :=
  DynamicRequest.mk (Some 0.01%float) (Some 0.02%float) None None
                    (Some 5%float) (Some 1000%float).

Section SpecLevelKernels.

Open Scope R_scope.

(** The length of the bar between two nodes and its direction cosines. *)
Definition bar_length (node1 node2 : Node.t R) : R :=
  sqrt ((Node.x node2 - Node.x node1) * (Node.x node2 - Node.x node1)
        + (Node.y node2 - Node.y node1) * (Node.y node2 - Node.y node1)
        + (Node.z node2 - Node.z node1) * (Node.z node2 - Node.z node1)).

Definition direction_cosines (node1 node2 : Node.t R) : list R :=
  [ (Node.x node2 - Node.x node1) / bar_length node1 node2;
    (Node.y node2 - Node.y node1) / bar_length node1 node2;
    (Node.z node2 - Node.z node1) / bar_length node1 node2 ].

(** The 6 x 6 matrix [k [c c^T, -c c^T; -c c^T, c c^T]] on the translations
    of the two end nodes. *)
Definition axial_matrix (k : R) (c : list R) : matrix R :=
  map (fun i =>
         map (fun j =>
                (if Nat.eqb (i / 3) (j / 3) then k else - k)
                * nth (i mod 3) c 0 * nth (j mod 3) c 0)
             (seq 0 6))
      (seq 0 6).

(** A dense matrix is symmetric. *)
Definition symmetric (A : matrix R) : Prop :=
  forall i j : nat, mat_get A i j = mat_get A j i.

End SpecLevelKernels.

Section SpecLevelBeam.

Open Scope R_scope.

(** The 12 x 12 matrix of [_beam_stiffness] for a bar along x, entry by
    entry as the code fills it: DOFs (ux, uy, uz, rx, ry, rz) of node 1, then
    of node 2. *)
Definition beam_matrix (E G A Iy Iz J L : R) : matrix R :=
  let ax := E * A / L in
  let by3 := E * Iy / (L * L * L) in
  let by2 := E * Iy / (L * L) in
  let by1 := E * Iy / L in
  let bz3 := E * Iz / (L * L * L) in
  let bz2 := E * Iz / (L * L) in
  let bz1 := E * Iz / L in
  let t := G * J / L in
  [ [ax; 0; 0; 0; 0; 0; - ax; 0; 0; 0; 0; 0];
    [0; 12 * bz3; 0; 0; 0; - (6 * bz2); 0; - (12 * bz3); 0; 0; 0; - (6 * bz2)];
    [0; 0; 12 * by3; 0; 6 * by2; 0; 0; 0; - (12 * by3); 0; 6 * by2; 0];
    [0; 0; 0; t; 0; 0; 0; 0; 0; - t; 0; 0];
    [0; 0; 6 * by2; 0; 4 * by1; 0; 0; 0; - (6 * by2); 0; 2 * by1; 0];
    [0; - (6 * bz2); 0; 0; 0; 4 * bz1; 0; 6 * bz2; 0; 0; 0; 2 * bz1];
    [- ax; 0; 0; 0; 0; 0; ax; 0; 0; 0; 0; 0];
    [0; - (12 * bz3); 0; 0; 0; 6 * bz2; 0; 12 * bz3; 0; 0; 0; 6 * bz2];
    [0; 0; - (12 * by3); 0; - (6 * by2); 0; 0; 0; 12 * by3; 0; - (6 * by2); 0];
    [0; 0; 0; - t; 0; 0; 0; 0; 0; t; 0; 0];
    [0; 0; 6 * by2; 0; 2 * by1; 0; 0; 0; - (6 * by2); 0; 4 * by1; 0];
    [0; - (6 * bz2); 0; 0; 0; 2 * bz1; 0; 6 * bz2; 0; 0; 0; 4 * bz1] ].

(** The nodal displacements of a bar of length [L] along x in a rigid
    motion: translations [tx], [ty], [tz] and rotations [rx], [ry], [rz],
    the far node moving by [- rz L] along y and [+ ry L] along z. *)
Definition rigid_motion (L tx ty tz rx ry rz : R) : list R :=
  [tx; ty; tz; rx; ry; rz; tx; ty - rz * L; tz + ry * L; rx; ry; rz].

End SpecLevelBeam.

(* ================================================================== *)
(** ** Reasoning about computations *)

Section Monad.
Context {F : Type} {SF : Scalar F}.

Lemma bind_val {A B} (m : Py A) (k : A -> Py B) (w w' : World (F := F)) (a : A) :
  m w = (Val a, w') -> (m ≫= k) w = k a w'.
Proof. intros E. unfold mbind, py_bind. now rewrite E. Qed.

Lemma bind_exc {A B} (m : Py A) (k : A -> Py B) (w w' : World (F := F)) (e : Exn) :
  m w = (Exc e, w') -> (m ≫= k) w = (Exc e, w').
Proof. intros E. unfold mbind, py_bind. now rewrite E. Qed.

(** A sequence returns only if its first part does. *)
Lemma bind_inv {A B} (m : Py A) (k : A -> Py B) (w w2 : World (F := F)) (b : B) :
  (m ≫= k) w = (Val b, w2) ->
  exists a w1, m w = (Val a, w1) /\ k a w1 = (Val b, w2).
Proof.
  unfold mbind, py_bind. destruct (m w) as [[a|e] w1]; intros E.
  - exists a, w1. split; [reflexivity | exact E].
  - discriminate E.
Qed.

Lemma lift_inv {A} (r : Res A) (w w' : World (F := F)) (a : A) :
  lift r w = (Val a, w') -> r = Val a /\ w' = w.
Proof. unfold lift. intros E. inversion E. split; reflexivity. Qed.

Lemma mret_inv {A} (x a : A) (w w' : World (F := F)) :
  mret (M := Py) x w = (Val a, w') -> x = a /\ w' = w.
Proof. unfold mret, py_ret. intros E. inversion E. split; reflexivity. Qed.

(** A handler that returns makes the whole [try] return. *)
Lemma try_except_returns {A} (m : Py A) (h : Exn -> Py A) (w : World (F := F)) :
  (forall e w1, exists a w2, h e w1 = (Val a, w2)) ->
  exists a w2, try_except m h w = (Val a, w2).
Proof.
  intros Hh. unfold try_except. destruct (m w) as [[a|e] w1].
  - exists a, w1. reflexivity.
  - apply Hh.
Qed.

Lemma pair_of_fst {A B} (p : A * B) (a : A) : fst p = a -> p = (a, snd p).
Proof. intros <-. now destruct p. Qed.

Lemma res_bind_inv {A B} (r : Res A) (f : A -> Res B) (b : B) :
  res_bind r f = Val b -> exists a, r = Val a /\ f a = Val b.
Proof. destruct r as [a|e]; simpl; intros E; [eauto | discriminate]. Qed.

End Monad.

(** Running the monadic primitives. *)
Ltac py_run :=
  cbv [mbind py_bind mret py_ret lift raise get_fem get_world modify_fem
       deref not_none read_csr read_ndarray read_ndarray2 read_csr_field];
  cbn [fst snd].

(* ================================================================== *)
(** ** DOF numbering ([_setup_dof_mapping]) *)

Section DofNumbering.
Context {F : Type} {SF : Scalar F}.

Lemma dict_get_set_eq {V} (k : Z) (v : V) (d : dict V) :
  dict_get k (dict_set k v d) = Some v.
Proof.
  induction d as [|[k' v'] d IH]; simpl.
  - now rewrite Z.eqb_refl.
  - destruct (Z.eqb k k') eqn:E; simpl; rewrite ?Z.eqb_refl, ?E; auto.
Qed.

Lemma dict_get_set_ne {V} (k k' : Z) (v : V) (d : dict V) :
  k <> k' -> dict_get k (dict_set k' v d) = dict_get k d.
Proof.
  intros Hne. induction d as [|[k2 v2] d IH]; simpl.
  - destruct (Z.eqb_spec k k'); [contradiction | reflexivity].
  - destruct (Z.eqb_spec k' k2) as [->|Hk]; simpl.
    + destruct (Z.eqb_spec k k2); [contradiction | reflexivity].
    + destruct (Z.eqb_spec k k2); [reflexivity | exact IH].
Qed.

(** The counter after a node is the counter before it plus its active slots. *)
Lemma number_dofs_counter (mask : list bool) (c : Z) :
  snd (number_dofs c mask) = (c + Z.of_nat (count_true mask))%Z.
Proof.
  revert c. induction mask as [|b mask IH]; intros c; simpl.
  - lia.
  - destruct b.
    + specialize (IH (c + 1)%Z). destruct (number_dofs (c + 1) mask). simpl in *. lia.
    + specialize (IH c). destruct (number_dofs c mask). simpl in *. lia.
Qed.

Lemma number_dofs_length (mask : list bool) (c : Z) :
  length (fst (number_dofs c mask)) = length mask.
Proof.
  revert c. induction mask as [|b mask IH]; intros c; simpl; [reflexivity|].
  destruct b.
  - specialize (IH (c + 1)%Z). destruct (number_dofs (c + 1) mask). simpl in *. lia.
  - specialize (IH c). destruct (number_dofs c mask). simpl in *. lia.
Qed.

(** An active slot gets the counter advanced by the active slots before it
    in the node; an inactive slot gets -1. *)
Lemma number_dofs_lookup (mask : list bool) (c : Z) (j : nat) (b : bool) :
  mask !! j = Some b ->
  fst (number_dofs c mask) !! j
  = Some (if b then (c + Z.of_nat (count_true (take j mask)))%Z else (-1)%Z).
Proof.
  revert c j. induction mask as [|b0 mask IH]; intros c j Hj; [discriminate|].
  destruct j as [|j]; simpl in Hj.
  - inversion Hj; subst b0. simpl. destruct b.
    + destruct (number_dofs (c + 1) mask). simpl. f_equal. lia.
    + destruct (number_dofs c mask). reflexivity.
  - simpl. destruct b0.
    + specialize (IH (c + 1)%Z j Hj). destruct (number_dofs (c + 1) mask). simpl in *.
      rewrite IH. destruct b; [f_equal; lia | reflexivity].
    + specialize (IH c j Hj). destruct (number_dofs c mask). simpl in *.
      rewrite IH. destruct b; reflexivity.
Qed.

Lemma set_dof_map_twice (a b : dict (list Z)) (w : World (F := F)) :
  with_fem (set_dof_map a) (with_fem (set_dof_map b) w) = with_fem (set_dof_map a) w.
Proof. reflexivity. Qed.

Lemma with_fem_dof_map_id (w : World (F := F)) :
  with_fem (set_dof_map (dof_map (fem w))) w = w.
Proof. destruct w as [[] ? ? ?]. reflexivity. Qed.

Lemma _setup_dof_mapping_loop_spec (items : dict (Node.t F)) (c : Z) (w : World) :
  _setup_dof_mapping_loop items c w
  = (Val (snd (dof_map_after items c (dof_map (fem w)))),
     with_fem (set_dof_map (fst (dof_map_after items c (dof_map (fem w))))) w).
Proof.
  revert c w. induction items as [|[node_id node] rest IH]; intros c w.
  - simpl. now rewrite with_fem_dof_map_id.
  - simpl. destruct (number_dofs c (Node.dofs node)) as [node_dofs c'].
    unfold mbind, py_bind, modify_fem. rewrite IH. reflexivity.
Qed.

Lemma dof_map_after_counter (items : dict (Node.t F)) (c : Z) (dm : dict (list Z)) :
  snd (dof_map_after items c dm) = (c + Z.of_nat (count_true (all_slots items)))%Z.
Proof.
  revert c dm. induction items as [|[k node] rest IH]; intros c dm; simpl.
  - unfold all_slots. simpl. lia.
  - pose proof (number_dofs_counter (Node.dofs node) c) as Hc.
    destruct (number_dofs c (Node.dofs node)) as [nd c']. simpl in Hc.
    rewrite IH, Hc. unfold all_slots. simpl.
    assert (Happ : forall a b, count_true (a ++ b) = count_true a + count_true b).
    { clear. induction a; simpl; intros; [reflexivity | rewrite IHa; lia]. }
    rewrite Happ. lia.
Qed.

Lemma count_true_app (a b : list bool) :
  count_true (a ++ b) = count_true a + count_true b.
Proof. induction a; simpl; [reflexivity | rewrite IHa; lia]. Qed.

(** Keys that are not assigned keep their entry. *)
Lemma dof_map_after_other (items : dict (Node.t F)) (c : Z) (dm : dict (list Z)) (k : Z) :
  k ∉ dict_keys items ->
  dict_get k (fst (dof_map_after items c dm)) = dict_get k dm.
Proof.
  revert c dm. induction items as [|[k' node] rest IH]; intros c dm Hk; [reflexivity|].
  simpl. destruct (number_dofs c (Node.dofs node)) as [nd c'].
  unfold dict_keys in Hk. simpl in Hk. rewrite not_elem_of_cons in Hk. destruct Hk as [Hne Hk].
  rewrite IH by exact Hk. now apply dict_get_set_ne.
Qed.

(** The entry of the [p]-th node. *)
Lemma dof_map_after_lookup (items : dict (Node.t F)) (c : Z) (dm : dict (list Z))
    (p : nat) (node_id : Z) (node : Node.t F) :
  NoDup (dict_keys items) ->
  items !! p = Some (node_id, node) ->
  dict_get node_id (fst (dof_map_after items c dm))
  = Some (fst (number_dofs (c + Z.of_nat (count_true (all_slots (take p items))))
                           (Node.dofs node))).
Proof.
  revert c dm p. induction items as [|[k nd0] rest IH]; intros c dm p Hnd Hp; [discriminate|].
  unfold dict_keys in Hnd. simpl in Hnd. apply NoDup_cons in Hnd as [Hk Hnd].
  destruct p as [|p]; simpl in Hp.
  - inversion Hp; subst k nd0. simpl.
    destruct (number_dofs c (Node.dofs node)) as [nd c'] eqn:E.
    rewrite dof_map_after_other by exact Hk.
    rewrite dict_get_set_eq. unfold all_slots. simpl.
    replace (c + Z.of_nat 0)%Z with c by lia. now rewrite E.
  - simpl. pose proof (number_dofs_counter (Node.dofs nd0) c) as Hc.
    destruct (number_dofs c (Node.dofs nd0)) as [nd c']. simpl in Hc.
    rewrite (IH c' _ p Hnd Hp). unfold all_slots. simpl. rewrite count_true_app.
    do 3 f_equal. fold (all_slots (take p rest)). lia.
Qed.

(** C3. [_setup_dof_mapping] never raises; it visits the nodes in dict
    (insertion) order and the slots of each node in list order; an active
    slot receives the number of active slots met before it (so the numbers
    are 0, 1, 2, ... in that order), an inactive slot receives -1; and
    [total_dofs] is the number of [True] entries over all node masks. *)
Theorem setup_dof_mapping_numbers_active_slots (w : World (F := F)) :
  NoDup (dict_keys (nodes (fem w))) ->
  exists w',
    _setup_dof_mapping w = (Val tt, w') /\
    total_dofs (fem w') = Z.of_nat (count_true (all_slots (nodes (fem w)))) /\
    forall (p : nat) (node_id : Z) (node : Node.t F),
      nodes (fem w) !! p = Some (node_id, node) ->
      exists node_dofs : list Z,
        dict_get node_id (dof_map (fem w')) = Some node_dofs /\
        length node_dofs = length (Node.dofs node) /\
        forall (j : nat) (b : bool),
          Node.dofs node !! j = Some b ->
          node_dofs !! j
          = Some (if b then Z.of_nat (active_before (nodes (fem w)) p j) else (-1)%Z).
Proof.
  intros Hnd. unfold _setup_dof_mapping.
  set (items := nodes (fem w)) in *.
  eexists. split; [|split].
  - unfold mbind, py_bind, get_fem. fold items. unfold dict_items.
    rewrite _setup_dof_mapping_loop_spec. unfold modify_fem. reflexivity.
  - simpl. rewrite dof_map_after_counter. lia.
  - intros p node_id node Hp.
    exists (fst (number_dofs (Z.of_nat (count_true (all_slots (take p items))))
                             (Node.dofs node))).
    split; [|split].
    + simpl. apply (dof_map_after_lookup items 0 _ p node_id node Hnd Hp).
    + apply number_dofs_length.
    + intros j b Hj. rewrite (number_dofs_lookup _ _ j b Hj).
      unfold active_before. fold items. rewrite Hp. simpl.
      destruct b; [f_equal; lia | reflexivity].
Qed.

End DofNumbering.

Lemma setup_dof_mapping_witness :
  NoDup (dict_keys (nodes (fem masked_nodes))) /\
  exists w',
    _setup_dof_mapping masked_nodes = (Val tt, w') /\
    total_dofs (fem w') = Z.of_nat (count_true (all_slots (nodes (fem masked_nodes)))) /\
    forall (p : nat) (node_id : Z) (node : Node.t float),
      nodes (fem masked_nodes) !! p = Some (node_id, node) ->
      exists node_dofs : list Z,
        dict_get node_id (dof_map (fem w')) = Some node_dofs /\
        length node_dofs = length (Node.dofs node) /\
        forall (j : nat) (b : bool),
          Node.dofs node !! j = Some b ->
          node_dofs !! j
          = Some (if b then Z.of_nat (active_before (nodes (fem masked_nodes)) p j)
                  else (-1)%Z).
Proof.
  assert (Hnd : NoDup (dict_keys (nodes (fem masked_nodes)))).
  { apply (bool_decide_unpack _). vm_compute. exact I. }
  split; [exact Hnd | exact (setup_dof_mapping_numbers_active_slots masked_nodes Hnd)].
Defined.

(** The numbering of [masked_nodes], computed. *)
Example setup_dof_mapping_masked_nodes :
  dof_map (fem (after _setup_dof_mapping masked_nodes))
  = [(5, [0; 1; 2; -1; -1; -1]); (2, [3; -1; 4; -1; 5; -1])]%Z
  /\ total_dofs (fem (after _setup_dof_mapping masked_nodes)) = 6%Z.
Proof. split; reflexivity. Qed.

(* ================================================================== *)
(** ** The axial-truss scenario and exceptions out of [solve_static] *)

(** C1. On the axial-truss scenario [solve_static] does not return: the
    truss kernel hands back a 6x6 matrix (36 values) with the 12 DOF indices
    of its two nodes, all active, so the assembly builds 144 row and column
    indices for 36 values and scipy's constructor raises [ValueError]; the
    assembly is outside the [try] of [solve_static], so the exception leaves
    the call.  This holds whatever the linear solver does. *)
Theorem axial_truss_solve_static_raises (SP : Scipy float) :
  fst (solve_static axial_truss)
  = Exc (ValueError "row, column, and data array must all be the same length").
Proof. vm_compute. reflexivity. Qed.

(** The element matrix and the index list of the scenario's truss. *)
Example axial_truss_kernel_sizes :
  match fst (_truss_stiffness (element 1 TRUSS [0; 1]%Z 1 (Some 1%Z))
               (after _setup_dof_mapping axial_truss)) with
  | Val (k_elem, dofs) =>
      (length (mat_flatten k_elem), length (meshgrid_rows (active dofs)))
  | Exc _ => (0, 0)
  end = (36, 144).
Proof. vm_compute. reflexivity. Qed.

(** C2. [solve_static] lets an exception out: on a model whose element
    names a material that does not exist, the lookup in the assembly raises
    [KeyError] before the [try] is entered. *)
Theorem solve_static_raises_on_dangling_material (SP : Scipy float) :
  fst (solve_static dangling_material) = Exc (KeyError (Some 7%Z)).
Proof. vm_compute. reflexivity. Qed.
(* ================================================================== *)
(** ** The backtracking line search ([_line_search]) *)

Section LineSearch.
Context {F : Type} {SF : Scalar F} {SP : Scipy F}.

Lemma np_map2_same_length (op : F -> F -> F) (u v : list F) :
  length u = length v -> np_map2 op u v = Val (zip_with op u v).
Proof.
  intros E. unfold np_map2.
  destruct (Nat.eqb_spec (length u) (length v)); [reflexivity | contradiction].
Qed.

Lemma residual_norm_at_spec (w : World) (K : csr F) (u target_force : list F) :
  has_stiffness w K ->
  length u = snd (csr_shape K) ->
  length target_force = fst (csr_shape K) ->
  residual_norm_at u target_force w = (Val (residual_norm K u target_force), w).
Proof.
  intros (l & Hl & Hh) Hu Ht.
  unfold residual_norm_at, _calculate_internal_force. py_run.
  rewrite Hl. py_run. rewrite Hh. py_run.
  unfold csr_matvec.
  destruct (Nat.eqb_spec (snd (csr_shape K)) (length u)) as [_|Hne]; [|now rewrite Hu in Hne].
  unfold np_sub. rewrite np_map2_same_length; [reflexivity|].
  now rewrite length_map, length_seq.
Qed.

Lemma _line_search_loop_spec (w : World) (K : csr F) (u du target_force : list F)
    (r0 : F) (n : nat) (alpha : F) :
  has_stiffness w K ->
  length u = snd (csr_shape K) ->
  length du = length u ->
  length target_force = fst (csr_shape K) ->
  let ok a := armijo_test a (residual_norm K (trial_point u du a) target_force) r0 in
  let contract j := Nat.iter j (fun a => fmul a half) alpha in
  exists j, j <= n /\
    _line_search_loop n alpha u du target_force r0 w = (Val (contract j), w) /\
    (forall i, i < j -> ok (contract i) = false) /\
    (j < n -> ok (contract j) = true).
Proof.
  intros HK Hu Hdu Ht ok contract. subst contract.
  revert alpha. induction n as [|n IH]; intros alpha.
  - exists 0. repeat split; [lia | intros; lia | intros; lia].
  - simpl. unfold np_add. rewrite np_map2_same_length
      by (unfold np_scale; rewrite length_map; lia).
    unfold mbind at 1, py_bind at 1, lift at 1.
    unfold mbind at 1, py_bind at 1.
    rewrite (residual_norm_at_spec w K _ target_force HK)
      by (rewrite ?length_zip_with, ?length_map; unfold np_scale; rewrite ?length_map; lia).
    fold (trial_point u du alpha).
    destruct (armijo_test alpha _ r0) eqn:E.
    + exists 0. repeat split; [lia | intros; lia | intros _; exact E].
    + destruct (IH (fmul alpha half)) as (j & Hj & Hrun & Hfail & Hok).
      assert (Hshift : forall k a,
                 Nat.iter (S k) (fun a => fmul a half) a
                 = Nat.iter k (fun a => fmul a half) (fmul a half)).
      { intros k a. induction k as [|k IHk]; [reflexivity|]. simpl in *. now rewrite IHk. }
      exists (S j). rewrite Hshift. repeat split.
      * lia.
      * exact Hrun.
      * intros [|i] Hi; [exact E|]. rewrite Hshift. apply Hfail. lia.
      * intros Hlt. apply Hok. lia.
Qed.

(** C8. The line search starts at alpha = 1 and tests at most ten step
    sizes 1, 1/2, 1/4, ...: it returns [alpha_seq j] for some [j <= 10],
    every earlier step size failed the sufficient-decrease test
    [‖R(u + alpha du)‖ < (1 - c1 alpha) ‖R(u)‖] with c1 = 1e-4, the norms
    being those of [target_force - K u] at the trial point and at [u], and
    when [j < 10] the returned one passes it; so when all ten trials fail
    the result is the step size after the tenth halving.  The world is left
    unchanged. *)
Theorem line_search_returns_first_sufficient_decrease
    (w : World) (K : csr F) (u du target_force : list F) :
  has_stiffness w K ->
  length u = snd (csr_shape K) ->
  length du = length u ->
  length target_force = fst (csr_shape K) ->
  exists j, j <= 10 /\
    _line_search u du target_force w = (Val (alpha_seq j), w) /\
    (forall i, i < j -> sufficient_decrease K u du target_force (alpha_seq i) = false) /\
    (j < 10 -> sufficient_decrease K u du target_force (alpha_seq j) = true).
Proof.
  intros HK Hu Hdu Ht. unfold _line_search.
  unfold mbind, py_bind. rewrite (residual_norm_at_spec w K u target_force HK Hu Ht).
  exact (_line_search_loop_spec w K u du target_force
           (residual_norm K u target_force) 10 (fofZ 1) HK Hu Hdu Ht).
Qed.

End LineSearch.

(** The constants of the line search in binary64: [c1 = 1e-4], in the code
    and in the test as stated; the first step size is 1, a product with 0.5
    is the half, and the step size after ten halvings is 2^-10. *)
Example line_search_constants :
  c1 = 1e-4%float /\ fdecimal 1 (-4) = 1e-4%float /\ fdecimal 5 (-1) = 0.5%float /\
  alpha_seq 0 = 1%float /\ alpha_seq 1 = (1 / 2)%float /\ alpha_seq 10 = 0x1p-10%float.
Proof. repeat split; reflexivity. Qed.

Lemma line_search_witness :
  exists j, j <= 10 /\
    _line_search (np_zeros 12) (replicate 12 1e-7%float) (force_of cantilever_assembled)
                 cantilever_assembled
    = (Val (alpha_seq j), cantilever_assembled) /\
    (forall i, i < j ->
       sufficient_decrease (stiffness_of cantilever_assembled) (np_zeros 12)
         (replicate 12 1e-7%float) (force_of cantilever_assembled) (alpha_seq i) = false) /\
    (j < 10 ->
       sufficient_decrease (stiffness_of cantilever_assembled) (np_zeros 12)
         (replicate 12 1e-7%float) (force_of cantilever_assembled) (alpha_seq j) = true).
Proof.
  apply (line_search_returns_first_sufficient_decrease cantilever_assembled
           (stiffness_of cantilever_assembled)).
  - exists 1. split; vm_compute; reflexivity.
  - vm_compute; reflexivity.
  - vm_compute; reflexivity.
  - vm_compute; reflexivity.
Defined.

(* ================================================================== *)
(** ** Frames: what a computation leaves unchanged *)

Section Frames.
Context {F : Type} {SF : Scalar F}.

Lemma preserves_ret {A} (R : relation (World (F := F))) `{!Reflexive R} (a : A) :
  preserves R (mret a).
Proof. intros w. apply reflexivity. Qed.

Lemma preserves_lift {A} (R : relation (World (F := F))) `{!Reflexive R} (r : Res A) :
  preserves R (lift r).
Proof. intros w. apply reflexivity. Qed.

Lemma preserves_raise {A} (R : relation (World (F := F))) `{!Reflexive R} (e : Exn) :
  preserves R (raise (A := A) e).
Proof. intros w. apply reflexivity. Qed.

Lemma preserves_get_fem (R : relation (World (F := F))) `{!Reflexive R} : preserves R get_fem.
Proof. intros w. apply reflexivity. Qed.

Lemma preserves_get_world (R : relation (World (F := F))) `{!Reflexive R} : preserves R get_world.
Proof. intros w. apply reflexivity. Qed.

Lemma preserves_deref (R : relation (World (F := F))) `{!Reflexive R} (l : loc) :
  preserves R (deref l).
Proof. intros w. unfold deref. destruct (heap w !! l); apply reflexivity. Qed.

Lemma preserves_bind {A B} (R : relation (World (F := F))) `{!PreOrder R}
    (m : Py A) (k : A -> Py B) :
  preserves R m -> (forall a, preserves R (k a)) -> preserves R (m ≫= k).
Proof.
  intros Hm Hk w. unfold mbind, py_bind. specialize (Hm w).
  destruct (m w) as [[a|e] w1]; simpl in *.
  - etransitivity; [exact Hm | apply Hk].
  - exact Hm.
Qed.

Lemma preserves_try_except {A} (R : relation (World (F := F))) `{!PreOrder R}
    (m : Py A) (h : Exn -> Py A) :
  preserves R m -> (forall e, preserves R (h e)) -> preserves R (try_except m h).
Proof.
  intros Hm Hh w. unfold try_except. specialize (Hm w).
  destruct (m w) as [[a|e] w1]; simpl in *.
  - exact Hm.
  - etransitivity; [exact Hm | apply Hh].
Qed.

Lemma preserves_for_each {A} (R : relation (World (F := F))) `{!PreOrder R}
    (l : list A) (body : A -> Py unit) :
  (forall x, preserves R (body x)) -> preserves R (for_each l body).
Proof.
  intros Hb. induction l as [|x l IH]; simpl.
  - apply preserves_ret; apply _.
  - apply preserves_bind; [apply _ | apply Hb | intros _; exact IH].
Qed.

Lemma preserves_weaken {A} (R R' : relation (World (F := F))) (m : Py A) :
  (forall w w', R w w' -> R' w w') -> preserves R m -> preserves R' m.
Proof. intros H Hm w. apply H, Hm. Qed.

Lemma preserves_not_none (R : relation (World (F := F))) `{!Reflexive R} (r : option loc) :
  preserves R (not_none r).
Proof. destruct r; [apply preserves_ret | apply preserves_raise]; assumption. Qed.

Lemma preserves_read_csr (R : relation (World (F := F))) `{!PreOrder R} (l : loc) :
  preserves R (read_csr l).
Proof.
  apply preserves_bind; [apply _ | apply preserves_deref; apply _ |].
  intros []; first [apply preserves_ret | apply preserves_raise]; apply _.
Qed.

Lemma preserves_read_ndarray (R : relation (World (F := F))) `{!PreOrder R} (l : loc) :
  preserves R (read_ndarray l).
Proof.
  apply preserves_bind; [apply _ | apply preserves_deref; apply _ |].
  intros []; first [apply preserves_ret | apply preserves_raise]; apply _.
Qed.

Lemma preserves_read_ndarray2 (R : relation (World (F := F))) `{!PreOrder R} (l : loc) :
  preserves R (read_ndarray2 l).
Proof.
  apply preserves_bind; [apply _ | apply preserves_deref; apply _ |].
  intros []; first [apply preserves_ret | apply preserves_raise]; apply _.
Qed.

End Frames.

(** Structural proofs of [preserves]. *)
Ltac preserves_step :=
  first
    [ apply preserves_ret; apply _
    | apply preserves_lift; apply _
    | apply preserves_raise; apply _
    | apply preserves_get_fem; apply _
    | apply preserves_get_world; apply _
    | apply preserves_not_none; apply _
    | apply preserves_read_csr; apply _
    | apply preserves_read_ndarray; apply _
    | apply preserves_read_ndarray2; apply _
    | apply preserves_deref; apply _
    | apply preserves_for_each; [apply _ | intros ?]
    | apply preserves_try_except; [apply _ | | intros ?]
    | apply preserves_bind; [apply _ | | intros ?]
    | match goal with
      | |- preserves _ (match ?x with _ => _ end) => destruct x
      end
    | progress cbv zeta ].

Ltac preserves_auto := repeat preserves_step.

Section KernelsReadOnly.
Context {F : Type} {SF : Scalar F}.

(** The element kernels only read. *)
Lemma _get_element_stiffness_matrix_read_only (element : Element.t F) :
  preserves eq (_get_element_stiffness_matrix element).
Proof.
  unfold _get_element_stiffness_matrix, _frame_stiffness, _beam_stiffness, _truss_stiffness.
  destruct (Element.type element); preserves_auto.
Qed.

End KernelsReadOnly.
(* ================================================================== *)
(** ** Constraints by the penalty method ([_apply_constraints]) *)

Section Penalty.
Context {F : Type} {SF : Scalar F}.

Lemma penalized_by_refl (K : csr F) (Fv : list F) :
  penalized_by (fun _ => []) K Fv K Fv.
Proof. repeat split; auto. Qed.

Lemma penalized_by_trans (h1 h2 : nat -> list F) (K1 K2 K3 : csr F) (F1 F2 F3 : list F) :
  penalized_by h1 K1 F1 K2 F2 ->
  penalized_by h2 K2 F2 K3 F3 ->
  penalized_by (fun d => h1 d ++ h2 d) K1 F1 K3 F3.
Proof.
  intros (S1 & L1 & O1 & D1 & V1) (S2 & L2 & O2 & D2 & V2).
  repeat split.
  - congruence.
  - congruence.
  - intros i j Hij. rewrite O2, O1; auto.
  - intros d. rewrite fold_left_app, D2, D1. reflexivity.
  - intros d a Ha. rewrite fold_left_app. apply V2, V1, Ha.
Qed.

Lemma penalized_by_ext (h h' : nat -> list F) (K1 K2 : csr F) (F1 F2 : list F) :
  (forall d, h d = h' d) ->
  penalized_by h K1 F1 K2 F2 -> penalized_by h' K1 F1 K2 F2.
Proof.
  intros E (S1 & L1 & O1 & D1 & V1). repeat split; auto.
  - intros d. rewrite <- E. apply D1.
  - intros d a Ha. rewrite <- E. now apply V1.
Qed.

Lemma writes_only_refl (kc fc : loc) (w : World (F := F)) : writes_only kc fc w w.
Proof. repeat split; auto. Qed.

Lemma writes_only_trans (kc fc : loc) (w1 w2 w3 : World (F := F)) :
  writes_only kc fc w1 w2 -> writes_only kc fc w2 w3 -> writes_only kc fc w1 w3.
Proof.
  intros (A1 & B1 & C1) (A2 & B2 & C2). repeat split; try congruence.
  intros l H1 H2. rewrite C2, C1; auto.
Qed.

Lemma read_csr_inv (l : loc) (w w' : World (F := F)) (A : csr F) :
  read_csr l w = (Val A, w') -> heap w !! l = Some (OCsr A) /\ w' = w.
Proof.
  unfold read_csr. py_run. destruct (heap w !! l) as [[]|]; intros E; inversion E; auto.
Qed.

Lemma read_ndarray_inv (l : loc) (w w' : World (F := F)) (v : list F) :
  read_ndarray l w = (Val v, w') -> heap w !! l = Some (ONdarray v) /\ w' = w.
Proof.
  unfold read_ndarray. py_run. destruct (heap w !! l) as [[]|]; intros E; inversion E; auto.
Qed.

(** [K[dof, dof] += penalty; F[dof] += penalty * value]. *)
Lemma penalty_step (kc fc : loc) (w w' : World (F := F)) (K1 : csr F) (F1 : list F)
    (dof : Z) (values : list F) (i : nat) :
  kc <> fc ->
  holds kc fc w K1 F1 ->
  (0 <= dof)%Z ->
  (csr_iadd_item kc dof dof penalty ;;
   value ← lift (list_getitem values i);
   ndarray_iadd_item fc dof (fmul penalty value)) w = (Val tt, w') ->
  exists K2 F2,
    holds kc fc w' K2 F2 /\ writes_only kc fc w w' /\
    penalized_by (fun d => if (dof =? Z.of_nat d)%Z then [default f0 (values !! i)] else [])
                 K1 F1 K2 F2.
Proof.
  intros Hne [HK HF] Hdof Hrun.
  apply bind_inv in Hrun as (? & w1 & H1 & Hrun).
  apply bind_inv in Hrun as (value & w2 & H2 & H3).
  apply lift_inv in H2 as [H2 ->].
  unfold list_getitem in H2. destruct (values !! i) as [v|] eqn:Ev; [|discriminate].
  inversion H2; subst v. clear H2.
  (* the matrix update *)
  unfold csr_iadd_item in H1.
  apply bind_inv in H1 as (A & wa & Ha & H1). apply read_csr_inv in Ha as [Ha ->].
  assert (A = K1) by congruence. subst A. clear Ha.
  apply bind_inv in H1 as (a & wa & Ha & H1). apply lift_inv in Ha as [Ha ->].
  apply bind_inv in H1 as (A' & wa & Hs & H1). apply lift_inv in Hs as [Hs ->].
  unfold csr_getitem in Ha. unfold csr_setitem in Hs.
  destruct (index_ok (fst (csr_shape K1)) dof && index_ok (snd (csr_shape K1)) dof) eqn:Eok;
    [|discriminate].
  inversion Ha; subst a. inversion Hs; subst A'. clear Ha Hs.
  unfold store in H1. inversion H1; subst w1. clear H1.
  (* the vector update *)
  unfold ndarray_iadd_item in H3.
  apply bind_inv in H3 as (v & wa & Hv & H3). apply read_ndarray_inv in Hv as [Hv ->].
  simpl in Hv. rewrite list_lookup_insert_ne in Hv by exact Hne.
  assert (v = F1) by congruence. subst v. clear Hv.
  destruct (index_ok (length F1) dof) eqn:Ei; [|discriminate].
  unfold store in H3. inversion H3; subst w'. clear H3. simpl.
  set (d0 := Z.to_nat dof).
  assert (Hd0 : Z.of_nat d0 = dof) by (subst d0; lia).
  pose proof (lookup_lt_Some _ _ _ HK) as Hkl.
  pose proof (lookup_lt_Some _ _ _ HF) as Hfl.
  eexists _, _. split; [|split].
  - split; simpl.
    + rewrite list_lookup_insert_ne by congruence.
      apply list_lookup_insert_eq. exact Hkl.
    + apply list_lookup_insert_eq. rewrite length_insert. exact Hfl.
  - repeat split; simpl.
    + now rewrite !length_insert.
    + intros l Hl1 Hl2. rewrite !list_lookup_insert_ne by congruence. reflexivity.
  - repeat split; simpl.
    + apply length_alter.
    + intros a b Hab. apply lookup_insert_ne. intros E. inversion E. lia.
    + intros d. destruct (Z.eqb_spec dof (Z.of_nat d)) as [E|E]; simpl.
      * assert (d = d0) by lia. subst d. unfold csr_entry at 1. simpl.
        now rewrite lookup_insert_eq.
      * unfold csr_entry. simpl. rewrite lookup_insert_ne; [reflexivity|].
        intros E'. inversion E'. lia.
    + intros d a Ha. destruct (Z.eqb_spec dof (Z.of_nat d)) as [E|E]; simpl.
      * assert (d = d0) by lia. subst d. rewrite list_lookup_alter_eq, Ha. reflexivity.
      * rewrite list_lookup_alter_ne by lia. exact Ha.
Qed.

Lemma penalize_slots_spec (kc fc : loc) (c : Constraint.t F)
    (slots : list (nat * (bool * Z))) (w w' : World (F := F)) (K1 : csr F) (F1 : list F) :
  kc <> fc ->
  holds kc fc w K1 F1 ->
  for_each slots (penalize_slot kc fc c) w = (Val tt, w') ->
  exists K2 F2,
    holds kc fc w' K2 F2 /\ writes_only kc fc w w' /\
    penalized_by (fun d => slot_hits d (Constraint.values c) slots) K1 F1 K2 F2.
Proof.
  intros Hne. revert w K1 F1.
  induction slots as [|[i [constrained dof]] slots IH]; intros w K1 F1 Hh Hrun.
  - apply mret_inv in Hrun as [_ ->]. exists K1, F1.
    split; [exact Hh|]. split; [apply writes_only_refl | apply penalized_by_refl].
  - simpl in Hrun. apply bind_inv in Hrun as ([] & w1 & Hstep & Hrest).
    assert (Hone : exists K2 F2,
               holds kc fc w1 K2 F2 /\ writes_only kc fc w w1 /\
               penalized_by
                 (fun d => if constrained && (0 <=? dof)%Z && (dof =? Z.of_nat d)%Z
                           then [default f0 (Constraint.values c !! i)] else [])
                 K1 F1 K2 F2).
    { unfold penalize_slot in Hstep.
      destruct (constrained && (0 <=? dof)%Z) eqn:E.
      - apply andb_true_iff in E as [_ E]. apply Z.leb_le in E.
        destruct (penalty_step kc fc w w1 K1 F1 dof (Constraint.values c) i Hne Hh E Hstep)
          as (K2 & F2 & H1 & H2 & H3).
        exists K2, F2. auto.
      - apply mret_inv in Hstep as [_ ->]. exists K1, F1.
        split; [exact Hh|]. split; [apply writes_only_refl | apply penalized_by_refl]. }
    destruct Hone as (K2 & F2 & Hh2 & Hw2 & Hp2).
    destruct (IH w1 K2 F2 Hh2 Hrest) as (K3 & F3 & Hh3 & Hw3 & Hp3).
    exists K3, F3. split; [exact Hh3|]. split; [eapply writes_only_trans; eassumption|].
    eapply penalized_by_ext; [|eapply penalized_by_trans; eassumption].
    intros d. reflexivity.
Qed.

Lemma penalize_constraints_spec (kc fc : loc) (dm : dict (list Z))
    (cs : list (Constraint.t F)) (w w' : World (F := F)) (K1 : csr F) (F1 : list F) :
  kc <> fc ->
  holds kc fc w K1 F1 ->
  for_each cs (penalize_constraint kc fc dm) w = (Val tt, w') ->
  exists K2 F2,
    holds kc fc w' K2 F2 /\ writes_only kc fc w w' /\
    penalized_by (fun d => flat_map (constraint_hits dm d) cs) K1 F1 K2 F2.
Proof.
  intros Hne. revert w K1 F1.
  induction cs as [|c cs IH]; intros w K1 F1 Hh Hrun.
  - apply mret_inv in Hrun as [_ ->]. exists K1, F1.
    split; [exact Hh|]. split; [apply writes_only_refl | apply penalized_by_refl].
  - simpl in Hrun. apply bind_inv in Hrun as ([] & w1 & Hstep & Hrest).
    unfold penalize_constraint in Hstep.
    apply bind_inv in Hstep as (node_dofs & w0 & Hget & Hslots).
    apply lift_inv in Hget as [Hget ->].
    unfold dict_getitem in Hget.
    destruct (dict_get (Constraint.node_id c) dm) as [nd|] eqn:Ed; [|discriminate].
    inversion Hget; subst nd. clear Hget.
    destruct (penalize_slots_spec kc fc c _ w w1 K1 F1 Hne Hh Hslots)
      as (K2 & F2 & Hh2 & Hw2 & Hp2).
    destruct (IH w1 K2 F2 Hh2 Hrest) as (K3 & F3 & Hh3 & Hw3 & Hp3).
    exists K3, F3. split; [exact Hh3|]. split; [eapply writes_only_trans; eassumption|].
    eapply penalized_by_ext; [|eapply penalized_by_trans; eassumption].
    intros d. simpl. unfold constraint_hits at 2. now rewrite Ed.
Qed.

Lemma penalize_spec (kc fc : loc) (w w' : World (F := F)) (K1 : csr F) (F1 : list F) :
  kc <> fc ->
  holds kc fc w K1 F1 ->
  penalize kc fc w = (Val tt, w') ->
  exists K2 F2,
    holds kc fc w' K2 F2 /\ writes_only kc fc w w' /\
    penalized_by (hits (fem w)) K1 F1 K2 F2.
Proof.
  intros Hne Hh Hrun. unfold penalize in Hrun.
  apply bind_inv in Hrun as (e & w0 & He & Hrun). inversion He; subst e w0. clear He.
  exact (penalize_constraints_spec kc fc _ _ w w' K1 F1 Hne Hh Hrun).
Qed.

(** [copy] makes a new object with the same content and changes nothing. *)
Lemma copy_inv (l : loc) (w w' : World (F := F)) (l' : loc) :
  copy l w = (Val l', w') ->
  exists o, heap w !! l = Some o /\ l' = length (heap w) /\
            fem w' = fem w /\ heap w' = heap w ++ [o].
Proof.
  unfold copy. intros H. apply bind_inv in H as (o & w0 & Hd & Ha).
  unfold deref in Hd. destruct (heap w !! l) as [o'|] eqn:E; [|discriminate].
  inversion Hd; subst o' w0. clear Hd.
  unfold alloc in Ha. inversion Ha; subst. exists o. auto.
Qed.

Lemma not_none_inv (r : option loc) (w w' : World (F := F)) (l : loc) :
  not_none r w = (Val l, w') -> r = Some l /\ w' = w.
Proof. destruct r; simpl; intros E; inversion E; auto. Qed.

(** The penalty method on copies: the first half of C4. *)
Lemma _apply_constraints_spec (w w' : World (F := F)) (lk lf kc fc : loc)
    (K : csr F) (Fg : list F) :
  K_global (fem w) = Some lk -> heap w !! lk = Some (OCsr K) ->
  F_global (fem w) = Some lf -> heap w !! lf = Some (ONdarray Fg) ->
  _apply_constraints w = (Val (kc, fc), w') ->
  fem w' = fem w /\
  (forall l o, heap w !! l = Some o -> heap w' !! l = Some o) /\
  length (heap w) <= kc /\ length (heap w) <= fc /\
  exists Kc Fc,
    heap w' !! kc = Some (OCsr Kc) /\ heap w' !! fc = Some (ONdarray Fc) /\
    penalized_by (hits (fem w)) K Fg Kc Fc.
Proof.
  intros HlK HK HlF HF H. unfold _apply_constraints in H.
  apply bind_inv in H as (e & w0 & He & H). inversion He; subst e w0. clear He.
  apply bind_inv in H as (lk' & w0 & Hk & H). apply not_none_inv in Hk as [Hk ->].
  assert (lk' = lk) by congruence. subst lk'.
  apply bind_inv in H as (kc' & w1 & Hc1 & H).
  apply copy_inv in Hc1 as (o1 & Ho1 & Hkc & Hf1 & Hh1).
  assert (o1 = OCsr K) by congruence. subst o1.
  apply bind_inv in H as (lf' & w0 & Hf & H). apply not_none_inv in Hf as [Hf ->].
  assert (lf' = lf) by congruence. subst lf'.
  apply bind_inv in H as (fc' & w2 & Hc2 & H).
  apply copy_inv in Hc2 as (o2 & Ho2 & Hfc & Hf2 & Hh2).
  pose proof (lookup_lt_Some _ _ _ HK) as HlkLt.
  pose proof (lookup_lt_Some _ _ _ HF) as HlfLt.
  rewrite Hh1, lookup_app_l in Ho2 by exact HlfLt.
  assert (o2 = ONdarray Fg) by congruence. subst o2.
  apply bind_inv in H as ([] & w3 & Hp & H).
  apply mret_inv in H as [H ->]. inversion H; subst kc fc. clear H.
  assert (Hne : kc' <> fc').
  { subst kc' fc'. rewrite Hh1, length_app. simpl. lia. }
  assert (Hholds : holds kc' fc' w2 K Fg).
  { split.
    - rewrite Hh2, Hh1, Hkc. rewrite lookup_app_l by (rewrite length_app; simpl; lia).
      rewrite lookup_app_r by lia. now rewrite Nat.sub_diag.
    - rewrite Hh2, Hfc. rewrite lookup_app_r by lia. now rewrite Nat.sub_diag. }
  destruct (penalize_spec kc' fc' w2 w3 K Fg Hne Hholds Hp)
    as (Kc & Fc & [HKc HFc] & (Hfem & Hlen & Hother) & Hpen).
  split; [congruence|]. split; [|split; [|split]].
  - intros l o Hl. pose proof (lookup_lt_Some _ _ _ Hl) as Hlt.
    rewrite Hother.
    + rewrite Hh2, Hh1, !lookup_app_l; [exact Hl | exact Hlt | rewrite length_app; lia].
    + subst kc'. lia.
    + subst fc'. rewrite Hh1, length_app. lia.
  - subst kc'. lia.
  - subst fc'. rewrite Hh1, length_app. lia.
  - exists Kc, Fc. split; [exact HKc|]. split; [exact HFc|].
    replace (fem w) with (fem w2) by congruence. exact Hpen.
Qed.

End Penalty.

Section StaticReactions.
Context {F : Type} {SF : Scalar F} {SP : Scipy F}.

Lemma writes_only_preorder (kc fc : loc) :
  PreOrder (writes_only (F := F) kc fc).
Proof.
  split; [intros w; apply writes_only_refl | intros a b c; apply writes_only_trans].
Qed.
#[local] Existing Instance writes_only_preorder.

Lemma preserves_store_writes_only_l (kc fc : loc) (o : Obj (F := F)) :
  preserves (writes_only kc fc) (store kc o).
Proof.
  intros w. repeat split; simpl.
  - apply length_insert.
  - intros l H1 _. now rewrite list_lookup_insert_ne by congruence.
Qed.

Lemma preserves_store_writes_only_r (kc fc : loc) (o : Obj (F := F)) :
  preserves (writes_only kc fc) (store fc o).
Proof.
  intros w. repeat split; simpl.
  - apply length_insert.
  - intros l _ H2. now rewrite list_lookup_insert_ne by congruence.
Qed.

(** The penalty loop writes to the two copies only, whatever it meets. *)
Lemma penalize_writes_only (kc fc : loc) :
  preserves (writes_only kc fc) (penalize kc fc).
Proof.
  unfold penalize, penalize_constraint, penalize_slot, csr_iadd_item, ndarray_iadd_item.
  preserves_auto.
  all: first [apply preserves_store_writes_only_l | apply preserves_store_writes_only_r].
Qed.

(** What [_apply_constraints] guarantees without knowing what the two
    fields point to. *)
Lemma _apply_constraints_frame (w w' : World (F := F)) (kc fc : loc) :
  _apply_constraints w = (Val (kc, fc), w') ->
  fem w' = fem w /\
  (forall l o, heap w !! l = Some o -> heap w' !! l = Some o) /\
  (forall l o, l < length (heap w) -> heap w' !! l = Some o -> heap w !! l = Some o) /\
  kc = length (heap w) /\
  (exists lk lf, K_global (fem w) = Some lk /\ lk < length (heap w) /\
                 F_global (fem w) = Some lf /\ lf <= length (heap w)).
Proof.
  intros H. unfold _apply_constraints in H.
  apply bind_inv in H as (e & w0 & He & H). inversion He; subst e w0. clear He.
  apply bind_inv in H as (lk & w0 & Hk & H). apply not_none_inv in Hk as [Hk ->].
  apply bind_inv in H as (kc' & w1 & Hc1 & H).
  apply copy_inv in Hc1 as (o1 & Ho1 & Hkc & Hf1 & Hh1).
  apply bind_inv in H as (lf & w0 & Hf & H). apply not_none_inv in Hf as [Hf ->].
  apply bind_inv in H as (fc' & w2 & Hc2 & H).
  apply copy_inv in Hc2 as (o2 & Ho2 & Hfc & Hf2 & Hh2).
  apply bind_inv in H as ([] & w3 & Hp & H).
  apply mret_inv in H as [H ->]. inversion H; subst kc fc. clear H.
  pose proof (penalize_writes_only kc' fc' w2) as (Hfem & Hlen & Hother).
  rewrite Hp in Hfem, Hlen, Hother. simpl in Hfem, Hlen, Hother.
  assert (Hsame : forall l, l < length (heap w) -> heap w3 !! l = heap w !! l).
  { intros l Hlt. rewrite Hother.
    - rewrite Hh2, Hh1, !lookup_app_l; [reflexivity | exact Hlt | rewrite length_app; lia].
    - subst kc'. lia.
    - subst fc'. rewrite Hh1, length_app. lia. }
  split; [congruence|]. split; [|split; [|split]].
  - intros l o Hl. rewrite Hsame; [exact Hl | eapply lookup_lt_Some; exact Hl].
  - intros l o Hlt Hl. now rewrite <- Hsame.
  - exact Hkc.
  - exists lk, lf. split; [exact Hk|]. split; [eapply lookup_lt_Some; exact Ho1|].
    split; [congruence|].
    apply lookup_lt_Some in Ho2. rewrite Hh1, length_app in Ho2. simpl in Ho2. lia.
Qed.

Lemma same_arrays_preorder : PreOrder (same_arrays (F := F)).
Proof.
  split.
  - intros w. repeat split.
  - intros a b c (A1 & A2 & A3 & A4 & A5 & A6) (B1 & B2 & B3 & B4 & B5 & B6).
    repeat split; congruence.
Qed.
#[local] Existing Instance same_arrays_preorder.

Lemma _calculate_element_forces_frame :
  preserves same_arrays _calculate_element_forces.
Proof.
  unfold _calculate_element_forces, _element_force.
  preserves_auto.
  all: first
         [ eapply preserves_weaken; [|apply _get_element_stiffness_matrix_read_only];
           intros ? ? <-; reflexivity
         | intros w; repeat split ].
Qed.

Lemma try_except_inv_success {A} (m : Py (Outcome A)) (h : Exn -> ErrorMsg)
    (w w' : World (F := F)) (r : A) :
  try_except m (fun e => mret (Failure (h e))) w = (Val (Success r), w') ->
  m w = (Val (Success r), w').
Proof.
  unfold try_except. destruct (m w) as [[a|e] w1]; [auto|].
  unfold mret, py_ret. intros E. inversion E.
Qed.

Lemma alloc_inv (o : Obj (F := F)) (w w' : World (F := F)) (l : loc) :
  alloc o w = (Val l, w') ->
  l = length (heap w) /\ fem w' = fem w /\ heap w' = heap w ++ [o].
Proof. unfold alloc. intros E. inversion E. auto. Qed.

Lemma modify_fem_inv (f : FEMEngine -> FEMEngine) (w w' : World (F := F)) (u : unit) :
  modify_fem f w = (Val u, w') -> fem w' = f (fem w) /\ heap w' = heap w.
Proof. unfold modify_fem. intros E. inversion E. auto. Qed.

(** The second half of C4: what a successful [solve_static] has done. *)
Lemma solve_static_reactions (w w' : World (F := F)) (r : StaticResult.t F) :
  solve_static w = (Val (Success r), w') ->
  exists w3 lk lf lr K Fg Kc Fc Ku rv,
    assemble_system w = (Val tt, w3) /\
    (* the assembled, un-penalized system *)
    K_global (fem w3) = Some lk /\ heap w3 !! lk = Some (OCsr K) /\
    F_global (fem w3) = Some lf /\ heap w3 !! lf = Some (ONdarray Fg) /\
    (* the system that was solved *)
    penalized_by (hits (fem w3)) K Fg Kc Fc /\
    spsolve Kc Fc = Val (StaticResult.displacements r) /\
    (* the stored system is still the un-penalized one *)
    K_global (fem w') = Some lk /\ heap w' !! lk = Some (OCsr K) /\
    F_global (fem w') = Some lf /\ heap w' !! lf = Some (ONdarray Fg) /\
    (* reactions = K u - F *)
    reactions (fem w') = Some lr /\ heap w' !! lr = Some (ONdarray rv) /\
    csr_matvec K (StaticResult.displacements r) = Val Ku /\
    np_sub Ku Fg = Val rv.
Proof.
  intros H. unfold solve_static in H.
  apply bind_inv in H as ([] & w1 & H1 & H).
  apply bind_inv in H as ([] & w2 & H2 & H).
  apply bind_inv in H as ([] & w3 & H3 & H).
  apply bind_inv in H as ([kc fc] & w4 & H4 & H).
  apply try_except_inv_success with (h := Str) in H.
  apply bind_inv in H as (Kc & wa & Hkc & H). apply read_csr_inv in Hkc as [Hkc ->].
  apply bind_inv in H as (Fc & wa & Hfc & H). apply read_ndarray_inv in Hfc as [Hfc ->].
  apply bind_inv in H as (u & wa & Hu & H). apply lift_inv in Hu as [Hu ->].
  apply bind_inv in H as (ul & w5 & Hul & H). apply alloc_inv in Hul as (Hul & Hf5 & Hh5).
  apply bind_inv in H as ([] & w6 & Hm6 & H). apply modify_fem_inv in Hm6 as [Hf6 Hh6].
  apply bind_inv in H as (e6 & wa & He & H). inversion He; subst e6 wa. clear He.
  apply bind_inv in H as (lk & wa & Hlk & H). apply not_none_inv in Hlk as [Hlk ->].
  apply bind_inv in H as (K & wa & HK & H). apply read_csr_inv in HK as [HK ->].
  apply bind_inv in H as (Ku & wa & HKu & H). apply lift_inv in HKu as [HKu ->].
  apply bind_inv in H as (lf & wa & Hlf & H). apply not_none_inv in Hlf as [Hlf ->].
  apply bind_inv in H as (Fg & wa & HFg & H). apply read_ndarray_inv in HFg as [HFg ->].
  apply bind_inv in H as (rv & wa & Hrv & H). apply lift_inv in Hrv as [Hrv ->].
  apply bind_inv in H as (rl & w7 & Hrl & H). apply alloc_inv in Hrl as (Hrl & Hf7 & Hh7).
  apply bind_inv in H as ([] & w8 & Hm8 & H). apply modify_fem_inv in Hm8 as [Hf8 Hh8].
  apply bind_inv in H as ([] & w9 & Hcef & H).
  apply bind_inv in H as (e9 & wa & He & H). inversion He; subst e9 wa. clear He.
  apply bind_inv in H as (ul' & wa & Hul' & H). apply not_none_inv in Hul' as [Hul' ->].
  apply bind_inv in H as (u' & wa & Hu' & H). apply read_ndarray_inv in Hu' as [Hu' ->].
  apply bind_inv in H as (mx & wa & Hmx & H). apply lift_inv in Hmx as [Hmx ->].
  apply mret_inv in H as [H ->]. inversion H; subst r. clear H. simpl.
  (* the frame of the element-force loop *)
  pose proof (_calculate_element_forces_frame w8) as (Gh & GK & GF & Gd & Gr & Gt).
  rewrite Hcef in Gh, GK, GF, Gd, Gr, Gt. simpl in Gh, GK, GF, Gd, Gr, Gt.
  (* the frame of the penalty method *)
  destruct (_apply_constraints_frame w3 w4 kc fc H4)
    as (Af & Akeep & Aback & Akc & (lk0 & lf0 & AK & AKlt & AF & AFle)).
  (* the fields, traced back to the assembled world *)
  assert (HlkE : K_global (fem w3) = Some lk).
  { rewrite <- Af, <- Hf5. rewrite Hf6 in Hlk. exact Hlk. }
  assert (HlfE : F_global (fem w3) = Some lf).
  { rewrite <- Af, <- Hf5. rewrite Hf6 in Hlf. exact Hlf. }
  assert (lk0 = lk) by congruence. subst lk0.
  assert (lf0 = lf) by congruence. subst lf0.
  assert (Hkc4 : kc < length (heap w4)) by (eapply lookup_lt_Some; exact Hkc).
  rewrite Hh6, Hh5 in HK, HFg.
  rewrite lookup_app_l in HK by lia.
  assert (HK3 : heap w3 !! lk = Some (OCsr K)) by (apply Aback; [lia | exact HK]).
  assert (HFlt : lf < length (heap w3)).
  { destruct (decide (lf < length (heap w3))) as [Hlt|Hge]; [exact Hlt|]. exfalso.
    assert (lf = kc) by lia. subst lf.
    rewrite lookup_app_l in HFg by lia. congruence. }
  rewrite lookup_app_l in HFg by lia.
  assert (HF3 : heap w3 !! lf = Some (ONdarray Fg)) by (apply Aback; [lia | exact HFg]).
  destruct (_apply_constraints_spec w3 w4 lk lf kc fc K Fg HlkE HK3 HlfE HF3 H4)
    as (_ & _ & _ & _ & Kc' & Fc' & HKc' & HFc' & Hpen).
  assert (Kc' = Kc) by congruence. subst Kc'.
  assert (Fc' = Fc) by congruence. subst Fc'.
  (* the final heap *)
  assert (Hh9 : heap w9 = (heap w4 ++ [ONdarray u]) ++ [ONdarray rv]).
  { rewrite Gh, Hh8, Hh7, Hh6, Hh5. reflexivity. }
  assert (Hul9 : ul' = length (heap w4)).
  { rewrite Gd, Hf8 in Hul'. simpl in Hul'. rewrite Hf7, Hf6 in Hul'. simpl in Hul'.
    congruence. }
  assert (u' = u).
  { rewrite Hh9, Hul9 in Hu'. rewrite lookup_app_l in Hu' by (rewrite length_app; simpl; lia).
    rewrite lookup_app_r in Hu' by lia. rewrite Nat.sub_diag in Hu'. simpl in Hu'.
    congruence. }
  subst u'.
  exists w3, lk, lf, rl, K, Fg, Kc, Fc, Ku, rv.
  split.
  { unfold assemble_system. rewrite (bind_val _ _ _ _ _ H1).
    rewrite (bind_val _ _ _ _ _ H2). exact H3. }
  split; [exact HlkE|]. split; [exact HK3|]. split; [exact HlfE|]. split; [exact HF3|].
  split; [exact Hpen|]. split; [exact Hu|].
  split. { rewrite GK, Hf8. simpl. rewrite Hf7. exact Hlk. }
  split. { rewrite Hh9, !lookup_app_l; [exact HK | lia | rewrite length_app; simpl; lia]. }
  split. { rewrite GF, Hf8. simpl. rewrite Hf7. exact Hlf. }
  split. { rewrite Hh9, !lookup_app_l; [exact HFg | lia | rewrite length_app; simpl; lia]. }
  split. { rewrite Gr, Hf8. reflexivity. }
  split. { rewrite Hh9, Hrl, Hh6, Hh5. rewrite lookup_app_r by lia. now rewrite Nat.sub_diag. }
  split; [exact HKu | exact Hrv].
Qed.

End StaticReactions.

Section PenaltyTheorem.
Context {F : Type} {SF : Scalar F} {SP : Scipy F}.

(** C4. (1) When [_apply_constraints] returns, the two references it
    returns are new objects holding the stored K and F with, for every
    constraint slot that is constrained and maps to an active DOF d, the
    penalty added to K[d,d] and penalty times the prescribed value added to
    F[d]; the engine fields and every object that existed before, the stored
    [K_global] and [F_global] among them, are unchanged.
    (2) When [solve_static] succeeds, the system it solved is that penalized
    copy, the stored [K_global] and [F_global] are still the assembled,
    un-penalized ones, and the stored reactions are [K u - F] with them. *)
Theorem penalty_on_copies_and_reactions_from_unpenalized_K :
  (forall (w w' : World (F := F)) (lk lf kc fc : loc) (K : csr F) (Fg : list F),
     K_global (fem w) = Some lk -> heap w !! lk = Some (OCsr K) ->
     F_global (fem w) = Some lf -> heap w !! lf = Some (ONdarray Fg) ->
     _apply_constraints w = (Val (kc, fc), w') ->
     fem w' = fem w /\
     (forall l o, heap w !! l = Some o -> heap w' !! l = Some o) /\
     length (heap w) <= kc /\ length (heap w) <= fc /\
     exists Kc Fc,
       heap w' !! kc = Some (OCsr Kc) /\ heap w' !! fc = Some (ONdarray Fc) /\
       penalized_by (hits (fem w)) K Fg Kc Fc)
  /\
  (forall (w w' : World (F := F)) (r : StaticResult.t F),
     solve_static w = (Val (Success r), w') ->
     exists w3 lk lf lr K Fg Kc Fc Ku rv,
       assemble_system w = (Val tt, w3) /\
       K_global (fem w3) = Some lk /\ heap w3 !! lk = Some (OCsr K) /\
       F_global (fem w3) = Some lf /\ heap w3 !! lf = Some (ONdarray Fg) /\
       penalized_by (hits (fem w3)) K Fg Kc Fc /\
       spsolve Kc Fc = Val (StaticResult.displacements r) /\
       K_global (fem w') = Some lk /\ heap w' !! lk = Some (OCsr K) /\
       F_global (fem w') = Some lf /\ heap w' !! lf = Some (ONdarray Fg) /\
       reactions (fem w') = Some lr /\ heap w' !! lr = Some (ONdarray rv) /\
       csr_matvec K (StaticResult.displacements r) = Val Ku /\
       np_sub Ku Fg = Val rv).
Proof.
  split.
  - intros w w' lk lf kc fc K Fg. apply _apply_constraints_spec.
  - intros w w' r. apply solve_static_reactions.
Qed.

End PenaltyTheorem.

Lemma penalty_witness :
  penalty_postcondition cantilever_assembled (snd (_apply_constraints cantilever_assembled))
    3 4 (stiffness_of cantilever_assembled) (force_of cantilever_assembled)
  /\
  reactions_postcondition (SP := gauss_backend) cantilever_beam (snd cantilever_static)
    (static_payload (fst cantilever_static)).
Proof.
  split.
  - apply (proj1 (penalty_on_copies_and_reactions_from_unpenalized_K (SP := gauss_backend))
             cantilever_assembled _ 1 2 3 4); vm_compute; reflexivity.
  - apply (proj2 (penalty_on_copies_and_reactions_from_unpenalized_K (SP := gauss_backend))).
    vm_compute. reflexivity.
Defined.

(** On the cantilever the penalty 1e12 lands on the six diagonal entries of
    node 0 and nowhere else, and the stored matrix keeps its entries. *)
Example cantilever_penalized_diagonal :
  let w := cantilever_assembled in
  let w' := snd (_apply_constraints w) in
  match heap w' !! 3, heap w' !! 1 with
  | Some (OCsr Kc), Some (OCsr K) =>
      K = stiffness_of w /\
      map (fun d => csr_entry Kc d d) (seq 0 12)
      = map (fun d => if d <? 6 then fadd (csr_entry K d d) 1e12%float
                      else csr_entry K d d) (seq 0 12)
  | _, _ => False
  end.
Proof. vm_compute. split; reflexivity. Qed.
(* ================================================================== *)
(** ** Modal analysis does not read the constraints *)

Section IgnoresConstraints.
Context {F : Type} {SF : Scalar F} {SP : Scipy F}.

Lemma ic_ret {A} (a : A) : ignores_constraints (F := F) (mret a).
Proof. intros c w. reflexivity. Qed.

Lemma ic_lift {A} (r : Res A) : ignores_constraints (F := F) (lift r).
Proof. intros c w. reflexivity. Qed.

Lemma ic_raise {A} (e : Exn) : ignores_constraints (F := F) (raise (A := A) e).
Proof. intros c w. reflexivity. Qed.

Lemma ic_alloc (o : Obj (F := F)) : ignores_constraints (alloc o).
Proof. intros c w. reflexivity. Qed.

Lemma ic_store (l : loc) (o : Obj (F := F)) : ignores_constraints (store l o).
Proof. intros c w. reflexivity. Qed.

Lemma ic_deref (l : loc) : ignores_constraints (F := F) (deref l).
Proof. intros c w. unfold deref. simpl. destruct (heap w !! l); reflexivity. Qed.

Lemma ic_not_none (r : option loc) : ignores_constraints (F := F) (not_none r).
Proof. destruct r; [apply ic_ret | apply ic_raise]. Qed.

Lemma ic_bind {A B} (m : Py A) (k : A -> Py (F := F) B) :
  ignores_constraints m -> (forall a, ignores_constraints (k a)) ->
  ignores_constraints (m ≫= k).
Proof.
  intros Hm Hk c w. unfold mbind, py_bind. rewrite Hm.
  destruct (m w) as [[a|e] w1]; simpl.
  - rewrite Hk. reflexivity.
  - reflexivity.
Qed.

(** Reading the engine is harmless when what follows does not look at the
    constraint list. *)
Lemma ic_get_fem_bind {B} (k : FEMEngine -> Py (F := F) B) :
  (forall c e, k (set_constraints c e) = k e) ->
  (forall e, ignores_constraints (k e)) ->
  ignores_constraints (get_fem ≫= k).
Proof.
  intros Hk Hic c w. unfold mbind, py_bind, get_fem. simpl.
  rewrite Hk. apply Hic.
Qed.

Lemma ic_modify_fem (f : FEMEngine (F := F) -> FEMEngine) :
  (forall c e, f (set_constraints c e) = set_constraints c (f e)) ->
  ignores_constraints (modify_fem f).
Proof.
  intros Hf c w. unfold modify_fem, replace_constraints, with_fem. simpl.
  now rewrite Hf.
Qed.

Lemma ic_try_except {A} (m : Py A) (h : Exn -> Py (F := F) A) :
  ignores_constraints m -> (forall e, ignores_constraints (h e)) ->
  ignores_constraints (try_except m h).
Proof.
  intros Hm Hh c w. unfold try_except. rewrite Hm.
  destruct (m w) as [[a|e] w1]; simpl.
  - reflexivity.
  - rewrite Hh. reflexivity.
Qed.

Lemma ic_for_each {A} (l : list A) (body : A -> Py (F := F) unit) :
  (forall x, ignores_constraints (body x)) -> ignores_constraints (for_each l body).
Proof.
  intros Hb. induction l as [|x l IH]; simpl.
  - apply ic_ret.
  - apply ic_bind; [apply Hb | intros _; exact IH].
Qed.

End IgnoresConstraints.

Ltac ic_step :=
  first
    [ apply ic_ret
    | apply ic_lift
    | apply ic_raise
    | apply ic_alloc
    | apply ic_store
    | apply ic_deref
    | apply ic_not_none
    | apply ic_modify_fem; intros ? ?; reflexivity
    | apply ic_for_each; intros ?
    | apply ic_try_except; [| intros ?]
    | apply ic_get_fem_bind; [intros ? ?; reflexivity | intros ?]
    | apply ic_bind; [| intros ?]
    | match goal with
      | |- ignores_constraints (match ?x with _ => _ end) => destruct x
      end
    | progress cbv zeta ].

Ltac ic_auto := repeat ic_step.

Section ModalIgnoresConstraints.
Context {F : Type} {SF : Scalar F} {SP : Scipy F}.

Lemma ic_copy (l : loc) : ignores_constraints (F := F) (copy l).
Proof. unfold copy. ic_auto. Qed.

Lemma ic_read_csr (l : loc) : ignores_constraints (F := F) (read_csr l).
Proof. unfold read_csr. ic_auto. Qed.

Lemma ic_setup_dof_mapping_loop (items : list (Z * Node.t F)) (c : Z) :
  ignores_constraints (_setup_dof_mapping_loop items c).
Proof.
  revert c. induction items as [|[node_id node] rest IH]; intros c; simpl.
  - apply ic_ret.
  - destruct (number_dofs c (Node.dofs node)) as [node_dofs c'].
    apply ic_bind; [ic_auto | intros _; apply IH].
Qed.

Lemma ic_setup_dof_mapping : ignores_constraints (F := F) _setup_dof_mapping.
Proof.
  unfold _setup_dof_mapping.
  apply ic_get_fem_bind; [intros; reflexivity | intros e].
  apply ic_bind; [apply ic_setup_dof_mapping_loop | intros c; ic_auto].
Qed.

Lemma ic_get_element_stiffness_matrix (element : Element.t F) :
  ignores_constraints (_get_element_stiffness_matrix element).
Proof.
  unfold _get_element_stiffness_matrix, _frame_stiffness, _beam_stiffness, _truss_stiffness.
  destruct (Element.type element); ic_auto.
Qed.

Lemma ic_assemble_global_stiffness :
  ignores_constraints (F := F) _assemble_global_stiffness.
Proof.
  unfold _assemble_global_stiffness, _assemble_element.
  ic_auto; try apply ic_get_element_stiffness_matrix; try apply ic_read_csr.
Qed.

Lemma ic_csr_iadd_item (l : loc) (i j : Z) (x : F) :
  ignores_constraints (csr_iadd_item l i j x).
Proof. unfold csr_iadd_item. ic_auto; apply ic_read_csr. Qed.

Lemma ic_assemble_global_mass : ignores_constraints (F := F) _assemble_global_mass.
Proof.
  unfold _assemble_global_mass, _assemble_element_mass.
  ic_auto; try apply ic_csr_iadd_item.
Qed.

(** C6. [solve_modal] never reads the constraint list: with the list
    replaced by any other, it returns the same dict (the same frequencies and
    mode shapes, or the same error) and leaves the same world up to that
    list. *)
Theorem solve_modal_ignores_constraints
    (c : list (Constraint.t F)) (num_modes : Z) (w : World (F := F)) :
  solve_modal num_modes (replace_constraints c w)
  = (fst (solve_modal num_modes w),
     replace_constraints c (snd (solve_modal num_modes w))).
Proof.
  revert c w. change (ignores_constraints (solve_modal num_modes)).
  unfold solve_modal.
  apply ic_try_except; [|intros e; apply ic_ret].
  apply ic_bind; [apply ic_setup_dof_mapping | intros _].
  apply ic_bind; [apply ic_assemble_global_stiffness | intros _].
  apply ic_bind; [apply ic_assemble_global_mass | intros _].
  ic_auto; first [apply ic_copy | apply ic_read_csr].
Qed.

End ModalIgnoresConstraints.
(* ================================================================== *)
(** ** The lumped mass matrix ([_assemble_global_mass]) *)

Section LumpedMass.
Context {F : Type} {SF : Scalar F}.

Lemma csr_iadd_item_inv (l : loc) (dof : Z) (x : F) (w w' : World (F := F)) (M : csr F) :
  heap w !! l = Some (OCsr M) ->
  (0 <= dof)%Z ->
  csr_iadd_item l dof dof x w = (Val tt, w') ->
  Z.to_nat dof < fst (csr_shape M) /\ Z.to_nat dof < snd (csr_shape M) /\
  fem w' = fem w /\
  heap w' !! l
  = Some (OCsr (mk_csr (csr_shape M)
                  (<[(Z.to_nat dof, Z.to_nat dof) :=
                       fadd (csr_entry M (Z.to_nat dof) (Z.to_nat dof)) x]> (csr_data M)))).
Proof.
  intros HM Hdof H. unfold csr_iadd_item in H.
  apply bind_inv in H as (A & wa & Ha & H). apply read_csr_inv in Ha as [Ha ->].
  assert (A = M) by congruence. subst A.
  apply bind_inv in H as (a & wa & Hg & H). apply lift_inv in Hg as [Hg ->].
  apply bind_inv in H as (A' & wa & Hs & H). apply lift_inv in Hs as [Hs ->].
  unfold csr_getitem in Hg. unfold csr_setitem in Hs.
  destruct (index_ok (fst (csr_shape M)) dof && index_ok (snd (csr_shape M)) dof) eqn:Eok;
    [|discriminate].
  inversion Hg; subst a. inversion Hs; subst A'. clear Hg Hs.
  unfold store in H. inversion H; subst w'. clear H. simpl.
  apply andb_true_iff in Eok as [E1 E2]. unfold index_ok in E1, E2.
  apply andb_true_iff in E1 as [_ E1]. apply andb_true_iff in E2 as [_ E2].
  apply Z.ltb_lt in E1, E2.
  split; [lia|]. split; [lia|]. split; [reflexivity|].
  apply list_lookup_insert_eq. eapply lookup_lt_Some; exact HM.
Qed.

Lemma contributions_at_app (d : nat) (a b : list (nat * F)) :
  contributions_at d (a ++ b) = contributions_at d a ++ contributions_at d b.
Proof. unfold contributions_at. apply flat_map_app. Qed.

Lemma lumped_empty (N : nat) : lumped N [] (csr_empty N N).
Proof.
  split; [reflexivity|]. split; [|split].
  - intros i j _. apply lookup_empty.
  - intros d. reflexivity.
  - intros d m Hin. inversion Hin.
Qed.

(** Adding [x] to the diagonal entry [d] is one more contribution. *)
Lemma lumped_add (N : nat) (cs : list (nat * F)) (M : csr F) (d : nat) (x : F) :
  lumped N cs M -> d < N ->
  lumped N (cs ++ [(d, x)])
    (mk_csr (csr_shape M) (<[(d, d) := fadd (csr_entry M d d) x]> (csr_data M))).
Proof.
  intros (Hs & Hoff & Hd & Hlt) HdN. split; [|split; [|split]]; simpl.
  - exact Hs.
  - intros i j Hij. rewrite lookup_insert_ne; [auto|]. intros E. inversion E. lia.
  - intros d'. rewrite contributions_at_app, fold_left_app. simpl.
    destruct (Nat.eqb_spec d d') as [->|Hne]; simpl.
    + unfold csr_entry at 1. simpl. rewrite lookup_insert_eq. simpl. now rewrite Hd.
    + unfold csr_entry at 1. simpl. rewrite lookup_insert_ne.
      * apply Hd.
      * intros E. inversion E. contradiction.
  - intros d' m Hin. apply elem_of_app in Hin as [Hin|Hin]; [eauto|].
    apply list_elem_of_singleton in Hin. inversion Hin. subst. exact HdN.
Qed.

Lemma _mass_slots_spec (ml : loc) (N : nat) (node_dofs : list Z) (m : F)
    (slots : list nat) (w w' : World (F := F)) (cs : list (nat * F)) :
  mass_state ml N w cs ->
  for_each slots (_mass_slot ml node_dofs m) w = (Val tt, w') ->
  fem w' = fem w /\
  mass_state ml N w'
    (cs ++ flat_map (fun i => match node_dofs !! i with
                              | Some dof => if (0 <=? dof)%Z then [(Z.to_nat dof, m)] else []
                              | None => []
                              end) slots).
Proof.
  revert w cs. induction slots as [|i slots IH]; intros w cs Hst Hrun.
  - apply mret_inv in Hrun as [_ ->]. simpl. rewrite app_nil_r. auto.
  - simpl in Hrun. apply bind_inv in Hrun as ([] & w1 & Hstep & Hrest).
    unfold _mass_slot in Hstep.
    apply bind_inv in Hstep as (dof & wa & Hget & Hstep). apply lift_inv in Hget as [Hget ->].
    unfold list_getitem in Hget. destruct (node_dofs !! i) as [dof'|] eqn:Ei; [|discriminate].
    inversion Hget; subst dof'. clear Hget.
    assert (Hone : fem w1 = fem w /\
                   mass_state ml N w1
                     (cs ++ (if (0 <=? dof)%Z then [(Z.to_nat dof, m)] else []))).
    { destruct (0 <=? dof)%Z eqn:E.
      - apply Z.leb_le in E. destruct Hst as (M & HM & HL).
        destruct (csr_iadd_item_inv ml dof m w w1 M HM E Hstep) as (H1 & H2 & H3 & H4).
        split; [exact H3|]. eexists. split; [exact H4|].
        apply lumped_add; [exact HL|]. destruct HL as (Hs & _). rewrite Hs in H1. exact H1.
      - apply mret_inv in Hstep as [_ ->]. rewrite app_nil_r. auto. }
    destruct Hone as [Hf1 Hst1].
    destruct (IH w1 _ Hst1 Hrest) as [Hf2 Hst2].
    split; [congruence|]. simpl. rewrite Ei. rewrite app_assoc. exact Hst2.
Qed.

Lemma _mass_nodes_spec (ml : loc) (N : nat) (dm : dict (list Z)) (m : F)
    (node_ids : list Z) (w w' : World (F := F)) (cs : list (nat * F)) :
  mass_state ml N w cs ->
  for_each node_ids (_mass_node ml dm m) w = (Val tt, w') ->
  fem w' = fem w /\ mass_state ml N w' (cs ++ node_contributions dm node_ids m).
Proof.
  revert w cs. induction node_ids as [|node_id node_ids IH]; intros w cs Hst Hrun.
  - apply mret_inv in Hrun as [_ ->]. unfold node_contributions. simpl.
    rewrite app_nil_r. auto.
  - simpl in Hrun. apply bind_inv in Hrun as ([] & w1 & Hstep & Hrest).
    unfold _mass_node in Hstep.
    apply bind_inv in Hstep as (nd & wa & Hget & Hstep). apply lift_inv in Hget as [Hget ->].
    unfold dict_getitem in Hget.
    destruct (dict_get node_id dm) as [nd'|] eqn:Ed; [|discriminate].
    inversion Hget; subst nd'. clear Hget.
    destruct (_mass_slots_spec ml N nd m _ w w1 cs Hst Hstep) as [Hf1 Hst1].
    destruct (IH w1 _ Hst1 Hrest) as [Hf2 Hst2].
    split; [congruence|].
    unfold node_contributions in *. simpl. rewrite Ed. rewrite app_assoc. exact Hst2.
Qed.

Lemma _assemble_element_mass_spec (ml : loc) (N : nat) (el : Element.t F)
    (w w' : World (F := F)) (cs : list (nat * F)) :
  M_global (fem w) = Some ml ->
  mass_state ml N w cs ->
  _assemble_element_mass el w = (Val tt, w') ->
  fem w' = fem w /\ mass_state ml N w' (cs ++ element_contributions (fem w) el).
Proof.
  intros Hml Hst H. unfold _assemble_element_mass in H.
  apply bind_inv in H as (e & wa & He & H). inversion He; subst e wa. clear He.
  apply bind_inv in H as (material & wa & Hmat & H). apply lift_inv in Hmat as [Hmat ->].
  unfold dict_getitem in Hmat.
  destruct (dict_get (Element.material_id el) (materials (fem w))) as [mat|] eqn:Emat;
    [|discriminate].
  inversion Hmat; subst mat. clear Hmat.
  unfold element_contributions, element_nodal_mass, element_mass_opt. rewrite Emat.
  destruct (dict_get_opt (Element.section_id el) (sections (fem w))) as [section|] eqn:Esec.
  - apply bind_inv in H as (n1 & wa & Hn1 & H). apply lift_inv in Hn1 as [Hn1 ->].
    apply bind_inv in H as (node1 & wa & Hnode1 & H). apply lift_inv in Hnode1 as [Hnode1 ->].
    apply bind_inv in H as (n2 & wa & Hn2 & H). apply lift_inv in Hn2 as [Hn2 ->].
    apply bind_inv in H as (node2 & wa & Hnode2 & H). apply lift_inv in Hnode2 as [Hnode2 ->].
    apply bind_inv in H as (L & wa & HL & H). apply lift_inv in HL as [HL ->].
    apply bind_inv in H as (ml' & wa & Hml' & H). apply not_none_inv in Hml' as [Hml' ->].
    assert (ml' = ml) by congruence. subst ml'.
    unfold list_getitem in Hn1, Hn2.
    destruct (Element.nodes el) as [|a [|b rest]] eqn:En; try discriminate.
    simpl in Hn1, Hn2. inversion Hn1; subst a. inversion Hn2; subst b. clear Hn1 Hn2.
    unfold dict_getitem in Hnode1, Hnode2.
    destruct (dict_get n1 (nodes (fem w))) as [nd1|]; [|discriminate].
    destruct (dict_get n2 (nodes (fem w))) as [nd2|]; [|discriminate].
    inversion Hnode1; subst nd1. inversion Hnode2; subst nd2. clear Hnode1 Hnode2.
    rewrite HL. simpl.
    exact (_mass_nodes_spec ml N _ _ _ w w' cs Hst H).
  - apply mret_inv in H as [_ ->]. simpl.
    destruct (Element.nodes el) as [|? [|? ?]]; rewrite app_nil_r; auto.
Qed.

Lemma _assemble_elements_mass_spec (ml : loc) (N : nat) (els : list (Element.t F))
    (w w' : World (F := F)) (cs : list (nat * F)) :
  M_global (fem w) = Some ml ->
  mass_state ml N w cs ->
  for_each els _assemble_element_mass w = (Val tt, w') ->
  fem w' = fem w /\ mass_state ml N w' (cs ++ flat_map (element_contributions (fem w)) els).
Proof.
  revert w cs. induction els as [|el els IH]; intros w cs Hml Hst Hrun.
  - apply mret_inv in Hrun as [_ ->]. simpl. rewrite app_nil_r. auto.
  - simpl in Hrun. apply bind_inv in Hrun as ([] & w1 & Hstep & Hrest).
    destruct (_assemble_element_mass_spec ml N el w w1 cs Hml Hst Hstep) as [Hf1 Hst1].
    assert (Hml1 : M_global (fem w1) = Some ml) by congruence.
    destruct (IH w1 _ Hml1 Hst1 Hrest) as [Hf2 Hst2].
    split; [congruence|]. simpl. rewrite app_assoc. rewrite Hf1 in Hst2. exact Hst2.
Qed.

(** When the mass assembly returns, [M_global] holds the diagonal matrix
    built from the contributions of the elements: for every DOF [d] the
    entry [(d, d)] is the sum, from zero and in loop order, of the half
    masses that land on [d]. *)
Lemma _assemble_global_mass_spec (w w' : World (F := F)) :
  _assemble_global_mass w = (Val tt, w') ->
  lumped (Z.to_nat (total_dofs (fem w))) (mass_contributions (fem w)) (mass_of w').
Proof.
  intros H. unfold _assemble_global_mass in H.
  apply bind_inv in H as (e & wa & He & H). inversion He; subst e wa. clear He.
  apply bind_inv in H as (M0 & wa & HM0 & H). apply lift_inv in HM0 as [HM0 ->].
  unfold csr_matrix_shape in HM0. destruct (total_dofs (fem w) <? 0)%Z; [discriminate|].
  inversion HM0; subst M0. clear HM0.
  apply bind_inv in H as (ml & w1 & Hal & H). apply alloc_inv in Hal as (Hml & Hf1 & Hh1).
  apply bind_inv in H as ([] & w2 & Hmod & H). apply modify_fem_inv in Hmod as [Hf2 Hh2].
  set (N := Z.to_nat (total_dofs (fem w))) in *.
  assert (Hst : mass_state ml N w2 []).
  { exists (csr_empty N N). split; [|apply lumped_empty].
    rewrite Hh2, Hh1, Hml. rewrite lookup_app_r by lia. now rewrite Nat.sub_diag. }
  assert (Hml2 : M_global (fem w2) = Some ml) by (rewrite Hf2; reflexivity).
  destruct (_assemble_elements_mass_spec ml N _ w2 w' [] Hml2 Hst H) as [Hf3 (M & HM & HL)].
  unfold mass_of. rewrite Hf3, Hml2, HM. simpl in HL.
  unfold mass_contributions.
  rewrite Hf2, Hf1 in HL. exact HL.
Qed.

End LumpedMass.

Section LumpedMassExact.

Open Scope R_scope.

Lemma fold_left_Rplus (l : list R) (a : R) : fold_left Rplus l a = a + Rsum l.
Proof.
  revert a. induction l as [|x l IH]; intros a; simpl.
  - lra.
  - rewrite IH. lra.
Qed.

Lemma Rsum_app (a b : list R) : Rsum (a ++ b) = Rsum a + Rsum b.
Proof. induction a as [|x a IH]; simpl; [lra | rewrite IH; lra]. Qed.

Lemma Rsum_nonneg (l : list R) : (forall x, x ∈ l -> 0 <= x) -> 0 <= Rsum l.
Proof.
  induction l as [|x l IH]; intros H; simpl; [lra|].
  assert (0 <= x) by (apply H; left).
  assert (0 <= Rsum l) by (apply IH; intros y Hy; apply H; now right).
  lra.
Qed.

Lemma fold_left_pointwise {A B} (f g : A -> B -> A) (l : list B) (a : A) :
  (forall x y, f x y = g x y) -> fold_left f l a = fold_left g l a.
Proof.
  intros H. revert a. induction l as [|y l IH]; intros a; simpl; [reflexivity|].
  rewrite H. apply IH.
Qed.

(** Summing over the DOFs [s, s+1, ..., s+n-1]. *)
Lemma sum_over_dofs_app (f g : nat -> R) (l : list nat) :
  fold_left (fun acc d => acc + (f d + g d)) l 0
  = fold_left (fun acc d => acc + f d) l 0 + fold_left (fun acc d => acc + g d) l 0.
Proof.
  assert (H : forall a b,
             fold_left (fun acc d => acc + (f d + g d)) l (a + b)
             = fold_left (fun acc d => acc + f d) l a
               + fold_left (fun acc d => acc + g d) l b).
  { induction l as [|x l IH]; intros a b; simpl; [reflexivity|].
    replace (a + b + (f x + g x)) with ((a + f x) + (b + g x)) by lra. apply IH. }
  specialize (H 0 0). now rewrite Rplus_0_l in H.
Qed.

Lemma sum_indicator (d0 : nat) (m : R) (s n : nat) (a : R) :
  fold_left (fun acc d => acc + (if Nat.eqb d0 d then m else 0)) (seq s n) a
  = a + (if (s <=? d0)%nat && (d0 <? s + n)%nat then m else 0).
Proof.
  revert s a. induction n as [|n IH]; intros s a; simpl.
  - replace (d0 <? s + 0)%nat with (d0 <? s)%nat by (f_equal; lia).
    destruct (Nat.leb_spec s d0), (Nat.ltb_spec d0 s); simpl; try lra; lia.
  - rewrite IH.
    destruct (Nat.eqb_spec d0 s) as [->|Hne].
    + replace (S s <=? s)%nat with false by (symmetry; apply Nat.leb_gt; lia).
      replace (s <=? s)%nat with true by (symmetry; apply Nat.leb_le; lia).
      replace (s <? s + S n)%nat with true by (symmetry; apply Nat.ltb_lt; lia).
      simpl. lra.
    + replace (d0 <? S s + n)%nat with (d0 <? s + S n)%nat by (f_equal; lia).
      destruct (Nat.leb_spec (S s) d0), (Nat.leb_spec s d0); simpl; try lra; try lia.
Qed.

(** The trace of a lumped matrix is the sum of all contributions. *)
Lemma trace_of_lumped (N : nat) (cs : list (nat * R)) (M : csr R) :
  lumped N cs M -> csr_trace M = Rsum (map snd cs).
Proof.
  intros (Hs & _ & Hd & Hlt). unfold csr_trace. rewrite Hs. simpl fst.
  rewrite (fold_left_pointwise _ (fun acc d => acc + Rsum (contributions_at d cs))).
  2:{ intros acc d. rewrite Hd. change (@fadd R R_scalar) with Rplus.
      change (@f0 R R_scalar) with (IZR 0). rewrite fold_left_Rplus. f_equal. lra. }
  change (@f0 R R_scalar) with 0.
  clear Hs Hd. induction cs as [|[d0 m] cs IH].
  - simpl. clear. induction (seq 0 N) as [|x l IH] using rev_ind; simpl; [reflexivity|].
    rewrite fold_left_app. simpl. unfold Rsum in *. simpl. rewrite IH. lra.
  - rewrite (fold_left_pointwise _
      (fun acc d => acc + ((if Nat.eqb d0 d then m else 0) + Rsum (contributions_at d cs)))).
    2:{ intros acc d. unfold contributions_at. simpl. rewrite Rsum_app.
        destruct (Nat.eqb d0 d); simpl; lra. }
    rewrite sum_over_dofs_app, sum_indicator, IH.
    + assert (d0 < N)%nat by (apply (Hlt d0 m); left).
      replace (0 <=? d0)%nat with true by (symmetry; apply Nat.leb_le; lia).
      replace (d0 <? 0 + N)%nat with true by (symmetry; apply Nat.ltb_lt; lia).
      simpl. lra.
    + intros d m' Hin. apply (Hlt d m'). now right.
Qed.

End LumpedMassExact.

Section LumpedMassTheorem.

Open Scope R_scope.

Lemma slot_contributions_mass (node_dofs : list Z) (nm : R) (d : nat) (m : R) :
  (d, m) ∈ slot_contributions node_dofs nm -> m = nm.
Proof.
  unfold slot_contributions. intros H. apply list_elem_of_In, in_flat_map in H.
  destruct H as (i & _ & H). destruct (node_dofs !! i) as [dof|]; [|destruct H].
  destruct (0 <=? dof)%Z; [|destruct H]. destruct H as [H|[]]. now inversion H.
Qed.

Lemma node_contributions_mass (dm : dict (list Z)) (ids : list Z) (nm : R)
    (d : nat) (m : R) :
  (d, m) ∈ node_contributions dm ids nm -> m = nm.
Proof.
  unfold node_contributions. intros H. apply list_elem_of_In, in_flat_map in H.
  destruct H as (node_id & _ & H). destruct (dict_get node_id dm) as [nd|]; [|destruct H].
  apply list_elem_of_In in H. eapply slot_contributions_mass; exact H.
Qed.

(** Every contribution is the half mass of some element. *)
Lemma mass_contributions_origin (e : FEMEngine (F := R)) (d : nat) (m : R) :
  (d, m) ∈ mass_contributions e ->
  exists el, el ∈ dict_values (elements e) /\ element_nodal_mass e el = Some m.
Proof.
  unfold mass_contributions. intros H. apply list_elem_of_In, in_flat_map in H.
  destruct H as (el & Hel & H). exists el. split; [now apply list_elem_of_In|].
  unfold element_contributions in H.
  destruct (element_nodal_mass e el) as [nm|]; [|destruct H].
  apply list_elem_of_In, node_contributions_mass in H. now subst.
Qed.

Lemma element_length_nonneg (node1 node2 : Node.t R) (L : R) :
  element_length node1 node2 = Val L -> 0 <= L.
Proof.
  unfold element_length, py_pow2. simpl. intros H. inversion H. apply sqrt_pos.
Qed.

Lemma element_mass_opt_nonneg (e : FEMEngine (F := R)) (el : Element.t R) (m : R) :
  nonnegative_properties e -> element_mass_opt e el = Some m -> 0 <= m.
Proof.
  intros [Hrho HA] H. unfold element_mass_opt in H.
  destruct (dict_get (Element.material_id el) (materials e)) as [material|] eqn:Em;
    [|discriminate].
  destruct (Element.section_id el) as [sid|] eqn:Es; simpl in H; [|discriminate].
  destruct (dict_get sid (sections e)) as [section|] eqn:Esec; [|discriminate].
  destruct (Element.nodes el) as [|n1 [|n2 rest]]; try discriminate.
  destruct (dict_get n1 (nodes e)) as [node1|]; [|discriminate].
  destruct (dict_get n2 (nodes e)) as [node2|]; [|discriminate].
  unfold element_length, py_pow2 in H. simpl in H. inversion H.
  apply Hrho in Em. apply HA in Esec.
  apply Rmult_le_pos; [apply Rmult_le_pos; assumption | apply sqrt_pos].
Qed.

Lemma lumped_entries_nonneg (N : nat) (cs : list (nat * R)) (M : csr R) :
  lumped N cs M -> (forall d m, (d, m) ∈ cs -> 0 <= m) ->
  forall d, 0 <= csr_entry M d d.
Proof.
  intros (_ & _ & Hd & _) Hm d. rewrite Hd.
  change (@fadd R R_scalar) with Rplus. change (@f0 R R_scalar) with 0.
  rewrite fold_left_Rplus.
  assert (0 <= Rsum (contributions_at d cs)); [|lra].
  apply Rsum_nonneg. intros x Hx. unfold contributions_at in Hx.
  apply list_elem_of_In, in_flat_map in Hx. destruct Hx as ([d' m] & Hin & Hx).
  destruct (Nat.eqb d' d); [|destruct Hx]. destruct Hx as [<-|[]].
  apply (Hm d' m). now apply list_elem_of_In.
Qed.

Lemma slot_contributions_active (node_dofs : list Z) (nm : R) :
  translations_active node_dofs ->
  Rsum (map snd (slot_contributions node_dofs nm)) = 3 * nm.
Proof.
  intros (tx & ty & tz & rest & -> & Hx & Hy & Hz). unfold slot_contributions. simpl.
  apply Z.leb_le in Hx, Hy, Hz. rewrite Hx, Hy, Hz. simpl. lra.
Qed.

Lemma map_snd_flat_map {A} (f : A -> list (nat * R)) (l : list A) :
  Rsum (map snd (flat_map f l)) = Rsum (map (fun x => Rsum (map snd (f x))) l).
Proof.
  induction l as [|x l IH]; simpl; [reflexivity|].
  rewrite map_app, Rsum_app, IH. reflexivity.
Qed.

(** With two fully translational nodes an element contributes six half
    masses: three times its mass. *)
Lemma element_contributions_total (e : FEMEngine (F := R)) (el : Element.t R) :
  two_node_elements e -> el ∈ dict_values (elements e) ->
  Rsum (map snd (element_contributions e el)) = 3 * element_mass e el.
Proof.
  intros H2 Hel. destruct (H2 el Hel) as (n1 & n2 & d1 & d2 & Hn & Hd1 & Ha1 & Hd2 & Ha2).
  unfold element_contributions, element_mass, element_nodal_mass.
  destruct (element_mass_opt e el) as [m|]; simpl; [|lra].
  rewrite Hn. unfold node_contributions. simpl. rewrite Hd1, Hd2, app_nil_r.
  rewrite map_app, Rsum_app, !slot_contributions_active by assumption.
  change (@fdiv R R_scalar) with Rdiv. change (@fofZ R R_scalar 2) with 2. lra.
Qed.

Lemma mass_contributions_total (e : FEMEngine (F := R)) :
  two_node_elements e ->
  Rsum (map snd (mass_contributions e)) = 3 * total_mass e.
Proof.
  intros H2. unfold mass_contributions, total_mass. rewrite map_snd_flat_map.
  change (@fadd R R_scalar) with Rplus. change (@f0 R R_scalar) with 0.
  assert (Hall : forall el, el ∈ dict_values (elements e) ->
                   Rsum (map snd (element_contributions e el)) = 3 * element_mass e el).
  { intros el Hel. now apply element_contributions_total. }
  revert Hall. generalize (dict_values (elements e)) as els.
  intros els Hall.
  assert (G : forall a, fold_left (fun acc el => acc + element_mass e el) els a
                        = a + Rsum (map (element_mass e) els)).
  { clear. induction els as [|el els IH]; intros a; simpl; [lra|]. rewrite IH. lra. }
  rewrite G, Rplus_0_l. clear G.
  induction els as [|el els IH]; simpl; [lra|].
  rewrite Hall by left. rewrite IH; [lra|].
  intros el' Hel'. apply Hall. now right.
Qed.

End LumpedMassTheorem.

Section LumpedMassMain.

Open Scope R_scope.


End LumpedMassMain.



(* ================================================================== *)
(** ** Newmark integration ([_newmark_integration]) *)

Ltac inv_lift H x Hx :=
  let w0 := fresh "w" in
  apply bind_inv in H as (x & w0 & Hx & H); apply lift_inv in Hx as [Hx ->].

Section Newmark.
Context {F : Type} {SF : Scalar F} {SP : Scipy F}.

Lemma read_ndarray2_inv (l : loc) (w w' : World (F := F)) (rows : list (list F)) :
  read_ndarray2 l w = (Val rows, w') -> heap w !! l = Some (ONdarray2 rows) /\ w' = w.
Proof.
  unfold read_ndarray2. py_run. destruct (heap w !! l) as [[]|]; intros E; inversion E; auto.
Qed.

Lemma ndarray2_row_inv (l : loc) (i : nat) (w w' : World (F := F)) (rows : list (list F))
    (r : list F) :
  heap w !! l = Some (ONdarray2 rows) ->
  ndarray2_row l i w = (Val r, w') -> rows !! i = Some r /\ w' = w.
Proof.
  intros Hl H. unfold ndarray2_row in H.
  apply bind_inv in H as (rows' & wa & Hr & H). apply read_ndarray2_inv in Hr as [Hr ->].
  assert (rows' = rows) by congruence. subst rows'.
  apply lift_inv in H as [H ->]. unfold list_getitem in H.
  destruct (rows !! i); inversion H. auto.
Qed.

Lemma row_assign_broadcast (row v r : list F) :
  row_assign row v = Val r -> broadcast_row r v /\ length r = length row.
Proof.
  unfold row_assign, broadcast_row. destruct (Nat.eqb_spec (length v) (length row)).
  - intros E. inversion E. subst. auto.
  - destruct v as [|b [|]]; try discriminate. intros E. inversion E.
    rewrite length_replicate. split; [right; exists b; auto | reflexivity].
Qed.

Lemma ndarray2_set_row_inv (l : loc) (i : nat) (v : list F) (w w' : World (F := F))
    (rows : list (list F)) :
  heap w !! l = Some (ONdarray2 rows) ->
  ndarray2_set_row l i v w = (Val tt, w') ->
  exists r, broadcast_row r v /\ i < length rows /\
            fem w' = fem w /\ heap w' = <[l := ONdarray2 (<[i := r]> rows)]> (heap w).
Proof.
  intros Hl H. unfold ndarray2_set_row in H.
  apply bind_inv in H as (rows' & wa & Hr & H). apply read_ndarray2_inv in Hr as [Hr ->].
  assert (rows' = rows) by congruence. subst rows'.
  inv_lift H row Hrow. inv_lift H r Hr'.
  unfold store in H. inversion H; subst w'. clear H.
  unfold list_getitem in Hrow. destruct (rows !! i) as [row'|] eqn:E; [|discriminate].
  apply row_assign_broadcast in Hr' as [Hb _].
  exists r. split; [exact Hb|]. split; [eapply lookup_lt_Some; exact E|]. auto.
Qed.

(** One round of the loop: it reads rows [i], computes the recurrence and
    writes rows [i + 1]. *)
Lemma _newmark_step_spec (uh vh ah fh : loc) (M Cm K_eff : csr F)
    (k : NewmarkConstants) (dt gamma : F) (i : nat) (w w' : World (F := F))
    (U V A Fh : list (list F)) :
  uh <> vh -> uh <> ah -> vh <> ah -> fh <> uh -> fh <> vh -> fh <> ah ->
  histories uh vh ah fh w U V A Fh ->
  _newmark_step uh vh ah fh M Cm K_eff k dt gamma i w = (Val tt, w') ->
  exists ru rv ra,
    histories uh vh ah fh w' (<[i + 1 := ru]> U) (<[i + 1 := rv]> V) (<[i + 1 := ra]> A) Fh /\
    fem w' = fem w /\
    i + 1 < length U /\ i + 1 < length V /\ i + 1 < length A /\
    newmark_related M Cm K_eff k dt gamma
      (<[i + 1 := ru]> U) (<[i + 1 := rv]> V) (<[i + 1 := ra]> A) Fh i.
Proof.
  intros Huv Hua Hva Hfu Hfv Hfa (HU & HV & HA & HF) H.
  unfold _newmark_step in H.
  apply bind_inv in H as (u_n & wa & Hu & H). apply (ndarray2_row_inv _ _ _ _ U) in Hu as [Hu ->]; [|exact HU].
  apply bind_inv in H as (v_n & wa & Hv & H). apply (ndarray2_row_inv _ _ _ _ V) in Hv as [Hv ->]; [|exact HV].
  apply bind_inv in H as (a_n & wa & Ha & H). apply (ndarray2_row_inv _ _ _ _ A) in Ha as [Ha ->]; [|exact HA].
  apply bind_inv in H as (forces & wa & Hf & H). apply read_ndarray2_inv in Hf as [Hf ->].
  assert (forces = Fh) by congruence. subst forces.
  apply bind_inv in H as (F_next & wa & Hn & H).
  fold (clamped_index i (length Fh)) in Hn.
  destruct (clamped_index i (length Fh) <? 0)%Z eqn:Eidx; [discriminate|].
  apply Z.ltb_ge in Eidx. apply lift_inv in Hn as [Hn ->].
  unfold list_getitem in Hn.
  destruct (Fh !! Z.to_nat (clamped_index i (length Fh))) as [Fn|] eqn:EF; [|discriminate].
  inversion Hn; subst Fn. clear Hn.
  inv_lift H mu Hmu. inv_lift H Mu HMu. inv_lift H F_M HFM.
  inv_lift H cu Hcu. inv_lift H Cu HCu. inv_lift H F_eff HFeff.
  inv_lift H u_next Hun. inv_lift H du Hdu. inv_lift H acc1 Hacc.
  inv_lift H a_next Han. inv_lift H mix Hmix. inv_lift H v_next Hvn.
  apply bind_inv in H as ([] & w1 & Hs1 & H).
  apply bind_inv in H as ([] & w2 & Hs2 & H).
  destruct (ndarray2_set_row_inv uh (i + 1) u_next w w1 U HU Hs1) as (ru & Bu & Lu & Fu & Hh1).
  assert (HV1 : heap w1 !! vh = Some (ONdarray2 V)).
  { rewrite Hh1, list_lookup_insert_ne by congruence. exact HV. }
  destruct (ndarray2_set_row_inv vh (i + 1) v_next w1 w2 V HV1 Hs2) as (rv & Bv & Lv & Fv & Hh2).
  assert (HA2 : heap w2 !! ah = Some (ONdarray2 A)).
  { rewrite Hh2, Hh1, !list_lookup_insert_ne by congruence. exact HA. }
  destruct (ndarray2_set_row_inv ah (i + 1) a_next w2 w' A HA2 H) as (ra & Ba & La & Fa & Hh3).
  pose proof (lookup_lt_Some _ _ _ HU) as LU.
  pose proof (lookup_lt_Some _ _ _ HV) as LV.
  pose proof (lookup_lt_Some _ _ _ HA) as LA.
  exists ru, rv, ra. split; [|split; [congruence|]].
  - unfold histories. rewrite Hh3, Hh2, Hh1. repeat split.
    + rewrite !list_lookup_insert_ne by congruence. now apply list_lookup_insert_eq.
    + rewrite list_lookup_insert_ne by congruence.
      apply list_lookup_insert_eq. now rewrite length_insert.
    + apply list_lookup_insert_eq. now rewrite !length_insert.
    + rewrite !list_lookup_insert_ne by congruence. exact HF.
  - split; [exact Lu|]. split; [exact Lv|]. split; [exact La|].
    exists u_n, v_n, a_n, F_next, u_next, v_next, a_next, ru, rv, ra.
    rewrite !list_lookup_insert_ne by lia.
    rewrite !list_lookup_insert_eq by assumption.
    repeat (split; [first [assumption | reflexivity]|]).
    split.
    { unfold newmark_spec_step. unfold combine3 in Hmu, Hcu.
      apply res_bind_inv in Hmu as (mu2 & Hmu2 & Hmu).
      apply res_bind_inv in Hcu as (cu2 & Hcu2 & Hcu).
      rewrite Hmu2; simpl. rewrite Hcu2; simpl.
      rewrite Hmu; simpl. rewrite HMu; simpl. rewrite HFM; simpl. rewrite Hcu; simpl.
      rewrite HCu; simpl. rewrite HFeff; simpl. rewrite Hun; simpl. rewrite Hdu; simpl.
      rewrite Hacc; simpl. rewrite Han; simpl. rewrite Hmix; simpl. rewrite Hvn; simpl.
      reflexivity. }
    repeat (split; [first [assumption | reflexivity]|]). assumption.
Qed.

End Newmark.

Section NewmarkLoop.
Context {F : Type} {SF : Scalar F} {SP : Scipy F}.

(** The relation at step [i] only looks at rows [i] and [i + 1]. *)
Lemma newmark_related_rows (M Cm K_eff : csr F) (k : NewmarkConstants) (dt gamma : F)
    (U V A U' V' A' Fh : list (list F)) (i : nat) :
  (forall j, j <= i + 1 -> U' !! j = U !! j /\ V' !! j = V !! j /\ A' !! j = A !! j) ->
  newmark_related M Cm K_eff k dt gamma U V A Fh i ->
  newmark_related M Cm K_eff k dt gamma U' V' A' Fh i.
Proof.
  intros Hrows (u & v & a & Fn & u' & v' & a' & ru & rv & ra &
                H1 & H2 & H3 & H4 & H5 & H6 & H7 & H8 & H9 & H10 & H11 & H12).
  destruct (Hrows i ltac:(lia)) as (E1 & E2 & E3).
  destruct (Hrows (i + 1) ltac:(lia)) as (E4 & E5 & E6).
  exists u, v, a, Fn, u', v', a', ru, rv, ra.
  rewrite E1, E2, E3, E4, E5, E6. repeat (split; [assumption|]). assumption.
Qed.

Lemma _newmark_loop_spec (uh vh ah fh : loc) (M Cm K_eff : csr F)
    (k : NewmarkConstants) (dt gamma : F) (Fh : list (list F)) :
  uh <> vh -> uh <> ah -> vh <> ah -> fh <> uh -> fh <> vh -> fh <> ah ->
  forall (n s : nat) (w w' : World (F := F)) (U V A : list (list F)),
    histories uh vh ah fh w U V A Fh ->
    for_each (seq s n) (_newmark_step uh vh ah fh M Cm K_eff k dt gamma) w = (Val tt, w') ->
    exists U' V' A',
      histories uh vh ah fh w' U' V' A' Fh /\
      length U' = length U /\ length V' = length V /\ length A' = length A /\
      (forall j, j <= s -> U' !! j = U !! j /\ V' !! j = V !! j /\ A' !! j = A !! j) /\
      (forall i, s <= i < s + n ->
         newmark_related M Cm K_eff k dt gamma U' V' A' Fh i).
Proof.
  intros Huv Hua Hva Hfu Hfv Hfa.
  induction n as [|n IH]; intros s w w' U V A Hh Hrun.
  - apply mret_inv in Hrun as [_ ->]. exists U, V, A.
    split; [exact Hh|]. repeat (split; [reflexivity|]). split; [auto|].
    intros i Hi. lia.
  - simpl in Hrun. apply bind_inv in Hrun as ([] & w1 & Hstep & Hrest).
    destruct (_newmark_step_spec uh vh ah fh M Cm K_eff k dt gamma s w w1 U V A Fh
                Huv Hua Hva Hfu Hfv Hfa Hh Hstep)
      as (ru & rv & ra & Hh1 & _ & LU & LV & LA & Hrel).
    destruct (IH (S s) w1 w' _ _ _ Hh1 Hrest)
      as (U' & V' & A' & Hh' & EU & EV & EA & Hkeep & Hrels).
    rewrite !length_insert in EU, EV, EA.
    exists U', V', A'. split; [exact Hh'|].
    split; [exact EU|]. split; [exact EV|]. split; [exact EA|]. split.
    + intros j Hj. destruct (Hkeep j ltac:(lia)) as (E1 & E2 & E3).
      rewrite E1, E2, E3. rewrite !list_lookup_insert_ne by lia. auto.
    + intros i Hi. destruct (decide (i = s)) as [->|Hne].
      * eapply newmark_related_rows; [|exact Hrel].
        intros j Hj. apply Hkeep. lia.
      * apply Hrels. lia.
Qed.

Lemma py_div_inv (x y q : F) : py_div x y = Val q -> q = fdiv x y.
Proof. unfold py_div. destruct (feqb y f0); intros E; inversion E. reflexivity. Qed.

Lemma py_pow2_inv (x q : F) : py_pow2 x = Val q -> q = fmul x x.
Proof.
  unfold py_pow2. destruct (ffinite x && negb (ffinite (fmul x x)));
    intros E; inversion E. reflexivity.
Qed.

(** The constants the code computes are the specified ones. *)
Lemma newmark_constants_spec (dt beta gamma : F) (k : NewmarkConstants) :
  newmark_constants dt beta gamma = Val k ->
  newmark_constants_as_specified k dt beta gamma.
Proof.
  unfold newmark_constants. intros H.
  apply res_bind_inv in H as (dt2 & H1 & H). apply py_pow2_inv in H1. subst dt2.
  apply res_bind_inv in H as (q0 & H0 & H). apply py_div_inv in H0. subst q0.
  apply res_bind_inv in H as (q1 & H1 & H). apply py_div_inv in H1. subst q1.
  apply res_bind_inv in H as (q2 & H2 & H). apply py_div_inv in H2. subst q2.
  apply res_bind_inv in H as (q3 & H3 & H). apply py_div_inv in H3. subst q3.
  apply res_bind_inv in H as (q4 & H4 & H). apply py_div_inv in H4. subst q4.
  apply res_bind_inv in H as (q5 & H5 & H). apply py_div_inv in H5. subst q5.
  inversion H. repeat split.
Qed.

Lemma read_csr_field_inv (r : option loc) (w w' : World (F := F)) (A : csr F) :
  read_csr_field r w = (Val A, w') ->
  exists l, r = Some l /\ heap w !! l = Some (OCsr A) /\ w' = w.
Proof.
  destruct r as [l|]; simpl; [|discriminate].
  intros H. apply read_csr_inv in H as [H ->]. eauto.
Qed.

(** C9. When [_newmark_integration] succeeds on four distinct history
    arrays: the constants a0..a5 are the specified functions of beta, gamma
    and dt; one effective stiffness K* = (K + a0 M) + a1 C is formed, from
    the stored K and M and the damping matrix; the histories keep their row
    counts and their rows 0; and for every step i the rows i + 1 of the
    displacement, velocity and acceleration histories are the values the
    recurrence gives from rows i, with the load taken at index
    min(i + 1, last): K* u' = F_next + M (a0 u + a2 v + a3 a)
    + C (a1 u + a4 v + a5 a), a' = a0 (u' - u) - a2 v - a3 a,
    v' = v + dt ((1 - gamma) a + gamma a'). *)
Theorem newmark_integration_follows_recurrence
    (uh vh ah fh C : loc) (dt beta gamma : F) (w w' : World (F := F))
    (U0 V0 A0 Fh : list (list F)) :
  uh <> vh -> uh <> ah -> vh <> ah -> fh <> uh -> fh <> vh -> fh <> ah ->
  histories uh vh ah fh w U0 V0 A0 Fh ->
  _newmark_integration uh vh ah fh C dt beta gamma w = (Val (Success tt), w') ->
  exists k lk lm K M Cm KM K_eff U V A,
    newmark_constants_as_specified k dt beta gamma /\
    K_global (fem w) = Some lk /\ heap w !! lk = Some (OCsr K) /\
    M_global (fem w) = Some lm /\ heap w !! lm = Some (OCsr M) /\
    heap w !! C = Some (OCsr Cm) /\
    csr_add K (csr_scale (a0 k) M) = Val KM /\
    csr_add KM (csr_scale (a1 k) Cm) = Val K_eff /\
    histories uh vh ah fh w' U V A Fh /\
    length U = length U0 /\ length V = length V0 /\ length A = length A0 /\
    U !! 0 = U0 !! 0 /\ V !! 0 = V0 !! 0 /\ A !! 0 = A0 !! 0 /\
    forall i, i + 1 < length U -> newmark_related M Cm K_eff k dt gamma U V A Fh i.
Proof.
  intros Huv Hua Hva Hfu Hfv Hfa Hh H. unfold _newmark_integration in H.
  apply try_except_inv_success with (h := Str) in H.
  apply bind_inv in H as (U0' & wa & HU0 & H). apply read_ndarray2_inv in HU0 as [HU0 ->].
  assert (U0' = U0) by (destruct Hh as (HU & _); congruence). subst U0'.
  inv_lift H k Hk.
  apply bind_inv in H as (e & wa & He & H). inversion He; subst e wa. clear He.
  apply bind_inv in H as (K & wa & HK & H).
  apply read_csr_field_inv in HK as (lk & HlK & HK & ->).
  apply bind_inv in H as (M & wa & HM & H).
  apply read_csr_field_inv in HM as (lm & HlM & HM & ->).
  apply bind_inv in H as (Cm & wa & HC & H). apply read_csr_inv in HC as [HC ->].
  inv_lift H K_eff HKeff.
  apply bind_inv in H as ([] & w1 & Hloop & H).
  apply mret_inv in H as [_ ->].
  destruct (_newmark_loop_spec uh vh ah fh M Cm K_eff k dt gamma Fh
              Huv Hua Hva Hfu Hfv Hfa _ 0 w w1 U0 V0 A0 Hh Hloop)
    as (U & V & A & Hh' & EU & EV & EA & Hkeep & Hrels).
  destruct (Hkeep 0 ltac:(lia)) as (E1 & E2 & E3).
  unfold effective_stiffness in HKeff.
  apply res_bind_inv in HKeff as (KM & HKM & HKeff).
  exists k, lk, lm, K, M, Cm, KM, K_eff, U, V, A.
  split; [now apply newmark_constants_spec|].
  repeat (split; [assumption|]).
  intros i Hi. apply Hrels. lia.
Qed.

End NewmarkLoop.

Lemma newmark_witness :
  exists k lk lm K M Cm KM K_eff U V A,
    newmark_constants_as_specified k 0.01%float 0.25%float 0.5%float /\
    K_global (fem newmark_world) = Some lk /\ heap newmark_world !! lk = Some (OCsr K) /\
    M_global (fem newmark_world) = Some lm /\ heap newmark_world !! lm = Some (OCsr M) /\
    heap newmark_world !! 7 = Some (OCsr Cm) /\
    csr_add K (csr_scale (a0 k) M) = Val KM /\
    csr_add KM (csr_scale (a1 k) Cm) = Val K_eff /\
    histories 3 4 5 6
      (snd (_newmark_integration (SP := gauss_backend) 3 4 5 6 7
              0.01%float 0.25%float 0.5%float newmark_world))
      U V A [np_zeros 6; [0; 0; 0; 1e5; 0; 0]%float] /\
    length U = length (replicate 3 (np_zeros (F := float) 6)) /\
    length V = length (replicate 3 (np_zeros (F := float) 6)) /\
    length A = length (replicate 3 (np_zeros (F := float) 6)) /\
    U !! 0 = replicate 3 (np_zeros 6) !! 0 /\
    V !! 0 = replicate 3 (np_zeros 6) !! 0 /\
    A !! 0 = replicate 3 (np_zeros 6) !! 0 /\
    forall i, i + 1 < length U ->
      newmark_related (SP := gauss_backend) M Cm K_eff k 0.01%float 0.5%float U V A
        [np_zeros 6; [0; 0; 0; 1e5; 0; 0]%float] i.
Proof.
  apply (newmark_integration_follows_recurrence (SP := gauss_backend)
           3 4 5 6 7 0.01%float 0.25%float 0.5%float newmark_world);
    try lia.
  - repeat split; vm_compute; reflexivity.
  - apply pair_of_fst. vm_compute. reflexivity.
Defined.

(** The run of the witness: two steps, the second with the load index
    clamped to the last row; the loaded end moves along +x. *)
Example newmark_run :
  let w' := snd (_newmark_integration (SP := gauss_backend) 3 4 5 6 7
                   0.01%float 0.25%float 0.5%float newmark_world) in
  match heap w' !! 3 with
  | Some (ONdarray2 [_; u1; u2]) =>
      clamped_index 1 2 = 1%Z /\
      match u1 !! 3, u2 !! 3 with
      | Some x1, Some x2 => PrimFloat.ltb 0 x1 && PrimFloat.ltb x1 x2 = true
      | _, _ => False
      end
  | _ => False
  end.
Proof. vm_compute. split; reflexivity. Qed.

(* ------------------------------------------------------------------ *)
(** ** The nonlinear driver against the linear solution *)

(** C7.  On the cantilever (one beam, node 0 fixed, F_y = -1e4 at the tip),
    solved with the direct solver of the examples, the linear static
    analysis succeeds with a tip deflection of -0.0020008 (= P L^3 / 3 E I),
    while the nonlinear static driver, whose tangent is the linear K, gives
    up in its first load step after 50 Newton iterations, with or without
    the line search: the residual it tests keeps the reaction at the
    constrained DOFs (1000, 866.02..., never below 1e-6). *)
Theorem solve_nonlinear_static_fails_on_cantilever :
  match fst cantilever_static with
  | Val (Success p) =>
      StaticResult.displacements p !! 7 = Some (-0.0020008203201280529)%float
  | _ => False
  end /\
  (let r := solve_nonlinear_static (SP := gauss_backend)
              default_nonlinear_options cantilever_beam in
   fst r = Val (Failure (NoConvergence 50)) /\
   length (convergence_history (snd r)) = 50 /\
   take 2 (convergence_history (snd r)) = [1000; 866.02540378443894]%float) /\
  fst (solve_nonlinear_static (SP := gauss_backend)
         (NonlinearOptions.mk 50 1e-6%float 10 false false) cantilever_beam)
  = Val (Failure (NoConvergence 50)).
Proof. vm_compute. repeat split; reflexivity. Qed.

(* ------------------------------------------------------------------ *)
(** ** What [solve_modal] returns *)

Section ModalFrequencies.
Context {F : Type} {SF : Scalar F} {SP : Scipy F}.

(** After the mass assembly, [M_global] names a matrix object. *)
Lemma _assemble_global_mass_object (w w' : World (F := F)) :
  _assemble_global_mass w = (Val tt, w') ->
  exists ml M, M_global (fem w') = Some ml /\ heap w' !! ml = Some (OCsr M).
Proof.
  intros H. unfold _assemble_global_mass in H.
  apply bind_inv in H as (e & wa & He & H). inversion He; subst e wa. clear He.
  apply bind_inv in H as (M0 & wa & HM0 & H). apply lift_inv in HM0 as [HM0 ->].
  unfold csr_matrix_shape in HM0. destruct (total_dofs (fem w) <? 0)%Z; [discriminate|].
  inversion HM0; subst M0. clear HM0.
  apply bind_inv in H as (ml & w1 & Hal & H). apply alloc_inv in Hal as (Hml & Hf1 & Hh1).
  apply bind_inv in H as ([] & w2 & Hmod & H). apply modify_fem_inv in Hmod as [Hf2 Hh2].
  set (N := Z.to_nat (total_dofs (fem w))) in *.
  assert (Hst : mass_state ml N w2 []).
  { exists (csr_empty N N). split; [|apply lumped_empty].
    rewrite Hh2, Hh1, Hml. rewrite lookup_app_r by lia. now rewrite Nat.sub_diag. }
  assert (Hml2 : M_global (fem w2) = Some ml) by (rewrite Hf2; reflexivity).
  destruct (_assemble_elements_mass_spec ml N _ w2 w' [] Hml2 Hst H) as [Hf3 (M & HM & HL)].
  exists ml, M. rewrite Hf3. auto.
Qed.

(** When [solve_modal] succeeds, its frequencies are sqrt(ev) / (2 pi) of
    the eigenvalues [eigsh] returned for the assembled, unconstrained K and
    M, in the order [eigsh] returned them; the mode shapes are the
    eigenvector array as returned, and [num_modes] is the number asked for. *)
Theorem solve_modal_frequencies_from_eigsh (num_modes : Z)
    (w w' : World (F := F)) (r : ModalResult.t F) :
  solve_modal num_modes w = (Val (Success r), w') ->
  exists w1 eigenvals eigenvecs,
    (_setup_dof_mapping ;; _assemble_global_stiffness ;; _assemble_global_mass) w
      = (Val (), w1) /\
    eigsh (stiffness_of w1) num_modes (mass_of w1) = Val (eigenvals, eigenvecs) /\
    ModalResult.frequencies r
    = map (fun ev => fdiv (fsqrt ev) (fmul (fofZ 2) fpi)) eigenvals /\
    ModalResult.mode_shapes r = eigenvecs /\
    ModalResult.num_modes r = num_modes.
Proof.
  intros H. unfold solve_modal in H.
  apply try_except_inv_success with (h := Str) in H.
  apply bind_inv in H as ([] & wa & H1 & H).
  apply bind_inv in H as ([] & wb & H2 & H).
  apply bind_inv in H as ([] & w1 & H3 & H).
  apply bind_inv in H as (e & w0 & He & H). inversion He; subst e w0. clear He.
  apply bind_inv in H as (kg & w0 & Hkg & H). apply not_none_inv in Hkg as [Hkg ->].
  apply bind_inv in H as (kc & w2 & Hkc & H).
  apply copy_inv in Hkc as (ok & Hok & -> & Hf2 & Hh2).
  apply bind_inv in H as (mg & w0 & Hmg & H). apply not_none_inv in Hmg as [Hmg ->].
  apply bind_inv in H as (mc & w3 & Hmc & H).
  apply copy_inv in Hmc as (om & Hom & -> & Hf3 & Hh3).
  apply bind_inv in H as (Kc & w0 & HKc & H). apply read_csr_inv in HKc as [HKc ->].
  apply bind_inv in H as (Mc & w0 & HMc & H). apply read_csr_inv in HMc as [HMc ->].
  apply bind_inv in H as ([eigenvals eigenvecs] & w0 & Hev & H).
  apply lift_inv in Hev as [Hev ->].
  apply mret_inv in H as [H _]. injection H as <-.
  destruct (_assemble_global_mass_object _ _ H3) as (ml & M & Hml & HM).
  assert (ml = mg) as -> by congruence.
  assert (Hk1 : heap w1 !! kg = Some (OCsr Kc)).
  { rewrite Hh3, Hh2 in HKc.
    rewrite lookup_app_l in HKc by (rewrite length_app; simpl; lia).
    rewrite lookup_app_r, Nat.sub_diag in HKc by lia. simpl in HKc. congruence. }
  assert (Hm1 : heap w1 !! mg = Some (OCsr Mc)).
  { rewrite Hh3 in HMc. rewrite lookup_app_r, Nat.sub_diag in HMc by lia.
    simpl in HMc. rewrite Hh2 in Hom.
    rewrite lookup_app_l in Hom by (eapply lookup_lt_Some; exact HM). congruence. }
  exists w1, eigenvals, eigenvecs.
  split.
  { py_run. cbv [mbind py_bind] in *. rewrite H1. destruct (_assemble_global_stiffness wa) as [[[]|] ?] eqn:E; inversion H2; subst. exact H3. }
  unfold stiffness_of, mass_of. rewrite Hkg, Hk1, Hmg, Hm1.
  repeat split; try reflexivity. exact Hev.
Qed.

End ModalFrequencies.

(** The theorem at the cantilever, with a backend that answers one mode. *)
Lemma solve_modal_frequencies_witness :
  exists w1 eigenvals eigenvecs,
    (_setup_dof_mapping ;; _assemble_global_stiffness ;; _assemble_global_mass)
      cantilever_beam = (Val (), w1) /\
    eigsh (Scipy := canned_backend [4%float] (replicate 12 [1%float]))
          (stiffness_of w1) 1 (mass_of w1) = Val (eigenvals, eigenvecs) /\
    ModalResult.frequencies
      (ModalResult.mk (natural_frequencies [4%float]) (replicate 12 [1%float]) 1)
      = map (fun ev => fdiv (fsqrt ev) (fmul (fofZ 2) fpi)) eigenvals /\
    ModalResult.mode_shapes
      (ModalResult.mk (natural_frequencies [4%float]) (replicate 12 [1%float]) 1)
      = eigenvecs /\
    ModalResult.num_modes
      (ModalResult.mk (natural_frequencies [4%float]) (replicate 12 [1%float]) 1)
      = 1%Z.
Proof.
  apply (solve_modal_frequencies_from_eigsh
           (SP := canned_backend [4%float] (replicate 12 [1%float]))
           1 cantilever_beam
           (snd (solve_modal (SP := canned_backend [4%float] (replicate 12 [1%float]))
                   1 cantilever_beam))).
  apply pair_of_fst. vm_compute. reflexivity.
Defined.


(* ------------------------------------------------------------------ *)
(** ** Solvers whose whole body is inside the [try] *)

Section Outcomes.
Context {F : Type} {SF : Scalar F} {SP : Scipy F}.

(** [solve_modal] never raises: whatever the model, it returns a success
    dict or a failure dict (its whole body sits in the [try]). *)
Theorem solve_modal_returns_an_outcome (num_modes : Z) (w : World (F := F)) :
  exists outcome w', solve_modal num_modes w = (Val outcome, w').
Proof.
  unfold solve_modal. apply try_except_returns.
  intros e w1. eexists _, _. reflexivity.
Qed.

(** [solve_nonlinear_static] never raises either. *)
Theorem solve_nonlinear_static_returns_an_outcome
    (options : NonlinearOptions.t F) (w : World (F := F)) :
  exists outcome w', solve_nonlinear_static options w = (Val outcome, w').
Proof.
  unfold solve_nonlinear_static. apply try_except_returns.
  intros e w1. eexists _, _. reflexivity.
Qed.

End Outcomes.

(* ------------------------------------------------------------------ *)
(** ** DOF numbering is a bijection *)

Section DofBijection.
Context {F : Type} {SF : Scalar F}.

Lemma count_true_take_le (l : list bool) (q : nat) :
  count_true (take q l) <= count_true l.
Proof.
  revert q. induction l as [|b l IH]; intros [|q]; simpl; try lia.
  specialize (IH q). lia.
Qed.

Lemma count_true_take_mono (l : list bool) (q q' : nat) :
  q <= q' -> count_true (take q l) <= count_true (take q' l).
Proof.
  intros Hq. replace (take q l) with (take q (take q' l)).
  - apply count_true_take_le.
  - rewrite take_take. f_equal. lia.
Qed.

Lemma count_true_take_S (l : list bool) (q : nat) :
  l !! q = Some true -> count_true (take (S q) l) = S (count_true (take q l)).
Proof.
  intros Hq. rewrite (take_S_r _ _ _ Hq), count_true_app. simpl. lia.
Qed.

(** Every number below the count is the rank of exactly one [True]. *)
Lemma count_true_rank (l : list bool) (d : nat) :
  d < count_true l -> exists q, l !! q = Some true /\ count_true (take q l) = d.
Proof.
  revert d. induction l as [|b l IH]; intros d Hd; simpl in Hd; [lia|].
  destruct b.
  - destruct d as [|d].
    + exists 0. split; reflexivity.
    + destruct (IH d) as (q & Hq & Hc); [lia|]. exists (S q). simpl. split; [exact Hq | lia].
  - destruct (IH d) as (q & Hq & Hc); [lia|]. exists (S q). simpl. split; [exact Hq | lia].
Qed.

Lemma all_slots_app (a b : dict (Node.t F)) :
  all_slots (a ++ b) = all_slots a ++ all_slots b.
Proof. unfold all_slots. now rewrite map_app, concat_app. Qed.

(** The position of slot [j] of the [p]-th node in the list of all slots. *)
Lemma all_slots_position (items : dict (Node.t F)) (p j : nat) (it : Z * Node.t F) (b : bool) :
  items !! p = Some it -> Node.dofs (snd it) !! j = Some b ->
  all_slots items !! (length (all_slots (take p items)) + j) = Some b /\
  take (length (all_slots (take p items)) + j) (all_slots items)
  = all_slots (take p items) ++ take j (Node.dofs (snd it)).
Proof.
  intros Hp Hj.
  assert (E : all_slots items
              = all_slots (take p items)
                ++ (Node.dofs (snd it) ++ all_slots (drop (S p) items))).
  { rewrite <- (take_drop_middle items p it Hp) at 1. rewrite all_slots_app.
    reflexivity. }
  rewrite E. split.
  - rewrite lookup_app_r by lia. rewrite Nat.add_comm, Nat.add_sub.
    rewrite lookup_app_l by (eapply lookup_lt_Some; exact Hj). exact Hj.
  - rewrite take_app_add'; [|reflexivity]. f_equal.
    rewrite take_app_le; [reflexivity|].
    apply Nat.lt_le_incl. eapply lookup_lt_Some. exact Hj.
Qed.

Lemma all_slots_take_S (items : dict (Node.t F)) (p : nat) (it : Z * Node.t F) :
  items !! p = Some it ->
  all_slots (take (S p) items) = all_slots (take p items) ++ Node.dofs (snd it).
Proof.
  intros Hp. rewrite (take_S_r _ _ _ Hp), all_slots_app. unfold all_slots at 2. simpl.
  now rewrite app_nil_r.
Qed.

Lemma all_slots_take_mono (items : dict (Node.t F)) (p p' : nat) :
  p <= p' -> length (all_slots (take p items)) <= length (all_slots (take p' items)).
Proof.
  intros Hp. replace (take p items) with (take p (take p' items))
    by (rewrite take_take; f_equal; lia).
  rewrite <- (take_drop p (take p' items)) at 2. rewrite all_slots_app, length_app. lia.
Qed.

(** Two slots of the model at one flat position are one slot. *)
Lemma all_slots_position_inj (items : dict (Node.t F)) (p j p' j' : nat)
    (it it' : Z * Node.t F) :
  items !! p = Some it -> j < length (Node.dofs (snd it)) ->
  items !! p' = Some it' -> j' < length (Node.dofs (snd it')) ->
  length (all_slots (take p items)) + j = length (all_slots (take p' items)) + j' ->
  p = p' /\ j = j'.
Proof.
  intros Hp Hj Hp' Hj' E.
  destruct (Nat.lt_trichotomy p p') as [Hlt|[->|Hlt]].
  - pose proof (all_slots_take_mono items (S p) p' ltac:(lia)) as Hm.
    rewrite (all_slots_take_S _ _ _ Hp), length_app in Hm. lia.
  - split; [reflexivity | lia].
  - pose proof (all_slots_take_mono items (S p') p ltac:(lia)) as Hm.
    rewrite (all_slots_take_S _ _ _ Hp'), length_app in Hm. lia.
Qed.

(** Every flat position is a slot of some node. *)
Lemma all_slots_locate (items : dict (Node.t F)) (q : nat) (b : bool) :
  all_slots items !! q = Some b ->
  exists p j it, items !! p = Some it /\ Node.dofs (snd it) !! j = Some b /\
                 q = length (all_slots (take p items)) + j.
Proof.
  revert q. induction items as [|it0 rest IH]; intros q Hq; [discriminate|].
  unfold all_slots in Hq. simpl in Hq.
  destruct (decide (q < length (Node.dofs (snd it0)))) as [Hlt|Hge].
  - rewrite lookup_app_l in Hq by exact Hlt. exists 0, q, it0. auto.
  - rewrite lookup_app_r in Hq by lia.
    destruct (IH _ Hq) as (p & j & it & Hp & Hj & E).
    exists (S p), j, it. split; [exact Hp|]. split; [exact Hj|].
    simpl. unfold all_slots at 1. simpl. rewrite length_app.
    fold (all_slots (take p rest)). lia.
Qed.

(** What [dof_at] reads after the numbering. *)
Lemma dof_at_after_setup (w : World (F := F)) (p j : nat) (it : Z * Node.t F) (b : bool) :
  NoDup (dict_keys (nodes (fem w))) ->
  nodes (fem w) !! p = Some it -> Node.dofs (snd it) !! j = Some b ->
  dof_at (fem (snd (_setup_dof_mapping w))) p j
  = Some (if b
          then Z.of_nat (count_true
                 (take (length (all_slots (take p (nodes (fem w)))) + j)
                       (all_slots (nodes (fem w)))))
          else (-1)%Z).
Proof.
  intros Hnd Hp Hj. unfold _setup_dof_mapping.
  unfold mbind, py_bind, get_fem, dict_items. rewrite _setup_dof_mapping_loop_spec.
  unfold modify_fem, dof_at. simpl. rewrite Hp. simpl. destruct it as [node_id node].
  simpl in *. rewrite (dof_map_after_lookup _ 0 _ p node_id node Hnd Hp). simpl.
  rewrite (number_dofs_lookup _ _ j b Hj).
  destruct (all_slots_position _ p j (node_id, node) b Hp Hj) as [_ ->].
  rewrite count_true_app. simpl. destruct b; [f_equal; lia | reflexivity].
Qed.

Lemma dof_at_some_slot (w : World (F := F)) (p j : nat) (d : Z) :
  dof_at (fem (snd (_setup_dof_mapping w))) p j = Some d ->
  NoDup (dict_keys (nodes (fem w))) ->
  exists it b, nodes (fem w) !! p = Some it /\ Node.dofs (snd it) !! j = Some b.
Proof.
  intros Hd Hnd.
  assert (Hn : nodes (fem (snd (_setup_dof_mapping w))) = nodes (fem w)).
  { unfold _setup_dof_mapping, mbind, py_bind, get_fem, dict_items.
    rewrite _setup_dof_mapping_loop_spec. reflexivity. }
  destruct (nodes (fem w) !! p) as [it|] eqn:Hp.
  - exists it. destruct (Node.dofs (snd it) !! j) as [b|] eqn:Hj; [eauto|].
    exfalso. unfold dof_at in Hd. rewrite Hn, Hp in Hd. simpl in Hd.
    unfold _setup_dof_mapping, mbind, py_bind, get_fem, dict_items in Hd.
    rewrite _setup_dof_mapping_loop_spec in Hd. simpl in Hd. destruct it as [node_id node].
    simpl in *. rewrite (dof_map_after_lookup _ 0 _ p node_id node Hnd Hp) in Hd.
    simpl in Hd. apply lookup_lt_Some in Hd. rewrite number_dofs_length in Hd.
    apply lookup_ge_None in Hj. lia.
  - unfold dof_at in Hd. rewrite Hn, Hp in Hd. discriminate.
Qed.

(** After [_setup_dof_mapping], the DOF numbers of the model's nodes are a
    bijection between the active slots and 0 .. total_dofs - 1: every entry
    is -1 or a number below [total_dofs], no number is given twice, and every
    number below [total_dofs] is given. *)
Theorem setup_dof_mapping_is_a_bijection (w : World (F := F)) :
  NoDup (dict_keys (nodes (fem w))) ->
  let e' := fem (snd (_setup_dof_mapping w)) in
  (forall p j d, dof_at e' p j = Some d -> d = (-1)%Z \/ (0 <= d < total_dofs e')%Z) /\
  (forall p j p' j' d,
     dof_at e' p j = Some d -> dof_at e' p' j' = Some d -> (0 <= d)%Z ->
     p = p' /\ j = j') /\
  (forall d, (0 <= d < total_dofs e')%Z -> exists p j, dof_at e' p j = Some d).
Proof.
  intros Hnd e'.
  assert (HN : total_dofs e' = Z.of_nat (count_true (all_slots (nodes (fem w))))).
  { unfold e', _setup_dof_mapping, mbind, py_bind, get_fem, dict_items.
    rewrite _setup_dof_mapping_loop_spec. simpl. rewrite dof_map_after_counter. lia. }
  split; [|split].
  - intros p j d Hd. destruct (dof_at_some_slot w p j d Hd Hnd) as (it & b & Hp & Hj).
    unfold e' in Hd. rewrite (dof_at_after_setup w p j it b Hnd Hp Hj) in Hd.
    injection Hd as <-. destruct b; [right | now left].
    destruct (all_slots_position _ p j it true Hp Hj) as [Hq _].
    pose proof (count_true_take_S _ _ Hq) as HS.
    pose proof (count_true_take_le (all_slots (nodes (fem w)))
                  (S (length (all_slots (take p (nodes (fem w)))) + j))) as Hle.
    rewrite HN. lia.
  - intros p j p' j' d Hd Hd' Hpos.
    destruct (dof_at_some_slot w p j d Hd Hnd) as (it & b & Hp & Hj).
    destruct (dof_at_some_slot w p' j' d Hd' Hnd) as (it' & b' & Hp' & Hj').
    unfold e' in Hd, Hd'.
    rewrite (dof_at_after_setup w p j it b Hnd Hp Hj) in Hd.
    rewrite (dof_at_after_setup w p' j' it' b' Hnd Hp' Hj') in Hd'.
    injection Hd as Hd. injection Hd' as Hd'.
    destruct b; [|lia]. destruct b'; [|lia].
    destruct (all_slots_position _ p j it true Hp Hj) as [Hq _].
    destruct (all_slots_position _ p' j' it' true Hp' Hj') as [Hq' _].
    set (l := all_slots (nodes (fem w))) in *.
    set (q := length (all_slots (take p (nodes (fem w)))) + j) in *.
    set (q' := length (all_slots (take p' (nodes (fem w)))) + j') in *.
    assert (q = q').
    { destruct (Nat.lt_trichotomy q q') as [Hlt|[E|Hlt]]; [|exact E|].
      - pose proof (count_true_take_mono l (S q) q' ltac:(lia)).
        pose proof (count_true_take_S l q Hq). lia.
      - pose proof (count_true_take_mono l (S q') q ltac:(lia)).
        pose proof (count_true_take_S l q' Hq'). lia. }
    apply (all_slots_position_inj (nodes (fem w)) p j p' j' it it' Hp
             ltac:(eapply lookup_lt_Some; exact Hj) Hp'
             ltac:(eapply lookup_lt_Some; exact Hj')).
    exact H.
  - intros d Hd. rewrite HN in Hd.
    destruct (count_true_rank (all_slots (nodes (fem w))) (Z.to_nat d) ltac:(lia))
      as (q & Hq & Hc).
    destruct (all_slots_locate _ q true Hq) as (p & j & it & Hp & Hj & ->).
    exists p, j. unfold e'. rewrite (dof_at_after_setup w p j it true Hnd Hp Hj).
    f_equal. lia.
Qed.

End DofBijection.

(** The bijection on the model with masked-off slots (two nodes, six active
    slots). *)
Lemma setup_dof_mapping_bijection_witness :
  NoDup (dict_keys (nodes (fem masked_nodes))) /\
  let e' := fem (snd (_setup_dof_mapping masked_nodes)) in
  (forall p j d, dof_at e' p j = Some d -> d = (-1)%Z \/ (0 <= d < total_dofs e')%Z) /\
  (forall p j p' j' d,
     dof_at e' p j = Some d -> dof_at e' p' j' = Some d -> (0 <= d)%Z ->
     p = p' /\ j = j') /\
  (forall d, (0 <= d < total_dofs e')%Z -> exists p j, dof_at e' p j = Some d).
Proof.
  assert (Hnd : NoDup (dict_keys (nodes (fem masked_nodes)))).
  { apply (bool_decide_unpack _). vm_compute. exact I. }
  split; [exact Hnd|].
  exact (setup_dof_mapping_is_a_bijection masked_nodes Hnd).
Defined.


(* ------------------------------------------------------------------ *)
(** ** The force vector *)

Section ForceAssembly.
Context {F : Type} {SF : Scalar F}.

Lemma accumulated_zeros (N : nat) : accumulated (F := F) N [] (np_zeros N).
Proof.
  split; [apply length_replicate|]. split.
  - intros d Hd. unfold np_zeros. now rewrite lookup_replicate_2.
  - intros d x Hin. inversion Hin.
Qed.

Lemma accumulated_add (N : nat) (cs : list (nat * F)) (Fv : list F) (d : nat) (x : F) :
  accumulated N cs Fv -> d < N ->
  accumulated N (cs ++ [(d, x)]) (alter (fun a => fadd a x) d Fv).
Proof.
  intros (Hlen & Hd & Hlt) HdN. split; [|split].
  - now rewrite length_alter.
  - intros d' Hd'. rewrite contributions_at_app, fold_left_app. simpl.
    destruct (Nat.eqb_spec d d') as [->|Hne]; simpl.
    + rewrite list_lookup_alter_eq, (Hd d' Hd'). reflexivity.
    + rewrite list_lookup_alter_ne by exact Hne. now apply Hd.
  - intros d' m Hin. apply elem_of_app in Hin as [Hin|Hin]; [eauto|].
    apply list_elem_of_singleton in Hin. inversion Hin. subst. exact HdN.
Qed.

Lemma ndarray_iadd_item_inv (l : nat) (i : Z) (x : F) (w w' : World (F := F))
    (v : list F) :
  heap w !! l = Some (ONdarray v) -> (0 <= i)%Z ->
  ndarray_iadd_item l i x w = (Val tt, w') ->
  Z.to_nat i < length v /\ fem w' = fem w /\
  length (heap w') = length (heap w) /\
  (forall l', l' <> l -> heap w' !! l' = heap w !! l') /\
  heap w' !! l = Some (ONdarray (alter (fun a => fadd a x) (Z.to_nat i) v)).
Proof.
  intros Hv Hi H. unfold ndarray_iadd_item in H.
  apply bind_inv in H as (v' & wa & Hr & H). apply read_ndarray_inv in Hr as [Hr ->].
  assert (v' = v) by congruence. subst v'.
  destruct (index_ok (length v) i) eqn:Eok; [|discriminate].
  unfold store in H. inversion H; subst w'. clear H. simpl.
  unfold index_ok in Eok. apply andb_true_iff in Eok as [_ E]. apply Z.ltb_lt in E.
  split; [lia|]. split; [reflexivity|]. split; [apply length_insert|]. split.
  - intros l' Hne. apply list_lookup_insert_ne. congruence.
  - apply list_lookup_insert_eq. eapply lookup_lt_Some; exact Hv.
Qed.

(** The force vector object during the assembly. *)
Lemma _force_slots_spec (fg : nat) (N : nat) (slots : list (nat * (F * Z)))
    (w w' : World (F := F)) (cs : list (nat * F)) (Fv : list F) :
  heap w !! fg = Some (ONdarray Fv) -> accumulated N cs Fv ->
  for_each slots (fun '(i, (force, dof)) =>
                    if (0 <=? dof)%Z then ndarray_iadd_item fg dof force
                    else mret tt) w = (Val tt, w') ->
  fem w' = fem w /\ length (heap w') = length (heap w) /\
  (forall l, l <> fg -> heap w' !! l = heap w !! l) /\
  exists Fv', heap w' !! fg = Some (ONdarray Fv') /\
    accumulated N
      (cs ++ flat_map (fun '(i, (force, dof)) =>
                         if (0 <=? dof)%Z then [(Z.to_nat dof, force)] else []) slots)
      Fv'.
Proof.
  revert w cs Fv. induction slots as [|[i [force dof]] slots IH]; intros w cs Fv HF Hacc Hrun.
  - apply mret_inv in Hrun as [_ ->]. simpl. rewrite app_nil_r. eauto 10.
  - simpl in Hrun. apply bind_inv in Hrun as ([] & w1 & Hstep & Hrest).
    destruct (0 <=? dof)%Z eqn:E.
    + pose proof E as E'. apply Z.leb_le in E'.
      destruct (ndarray_iadd_item_inv fg dof force w w1 Fv HF E' Hstep)
        as (Hlt & Hf1 & Hl1 & Ho1 & HF1).
      assert (Hacc1 : accumulated N (cs ++ [(Z.to_nat dof, force)])
                        (alter (fun a => fadd a force) (Z.to_nat dof) Fv)).
      { apply accumulated_add; [exact Hacc|]. destruct Hacc as (Hlen & _). lia. }
      destruct (IH w1 _ _ HF1 Hacc1 Hrest) as (Hf2 & Hl2 & Ho2 & Fv' & HF2 & Hacc2).
      split; [congruence|]. split; [congruence|]. split.
      { intros l Hl. rewrite Ho2 by exact Hl. now apply Ho1. }
      exists Fv'. split; [exact HF2|]. simpl. rewrite E. simpl.
      rewrite <- app_assoc in Hacc2. exact Hacc2.
    + apply mret_inv in Hstep as [_ ->].
      destruct (IH w _ _ HF Hacc Hrest) as (Hf2 & Hl2 & Ho2 & Fv' & HF2 & Hacc2).
      split; [exact Hf2|]. split; [exact Hl2|]. split; [exact Ho2|].
      exists Fv'. split; [exact HF2|]. simpl. rewrite E. exact Hacc2.
Qed.

Lemma _force_loads_spec (fg : nat) (N : nat) (dm : dict (list Z)) (ls : list (Load.t F))
    (w w' : World (F := F)) (cs : list (nat * F)) (Fv : list F) :
  heap w !! fg = Some (ONdarray Fv) -> accumulated N cs Fv ->
  for_each ls (fun load =>
    match Load.node_id load with
    | Some node_id =>
        node_dofs ← lift (dict_getitem node_id dm);
        for_each (enumerate_zip (Load.values load) node_dofs) (fun '(i, (force, dof)) =>
          if (0 <=? dof)%Z then ndarray_iadd_item fg dof force
          else mret tt)
    | None => mret tt
    end) w = (Val tt, w') ->
  fem w' = fem w /\ length (heap w') = length (heap w) /\
  (forall l, l <> fg -> heap w' !! l = heap w !! l) /\
  exists Fv', heap w' !! fg = Some (ONdarray Fv') /\
    accumulated N (cs ++ flat_map (load_contributions dm) ls) Fv'.
Proof.
  revert w cs Fv. induction ls as [|load ls IH]; intros w cs Fv HF Hacc Hrun.
  - apply mret_inv in Hrun as [_ ->]. simpl. rewrite app_nil_r. eauto 10.
  - simpl in Hrun. apply bind_inv in Hrun as ([] & w1 & Hstep & Hrest).
    assert (Hone : fem w1 = fem w /\ length (heap w1) = length (heap w) /\
                   (forall l, l <> fg -> heap w1 !! l = heap w !! l) /\
                   exists Fv1, heap w1 !! fg = Some (ONdarray Fv1) /\
                     accumulated N (cs ++ load_contributions dm load) Fv1).
    { unfold load_contributions. destruct (Load.node_id load) as [node_id|].
      - apply bind_inv in Hstep as (nd & wa & Hget & Hstep).
        apply lift_inv in Hget as [Hget ->]. unfold dict_getitem in Hget.
        destruct (dict_get node_id dm) as [nd'|]; [|discriminate].
        inversion Hget; subst nd'. clear Hget.
        exact (_force_slots_spec fg N _ w w1 cs Fv HF Hacc Hstep).
      - apply mret_inv in Hstep as [_ ->]. rewrite app_nil_r. eauto 10. }
    destruct Hone as (Hf1 & Hl1 & Ho1 & Fv1 & HF1 & Hacc1).
    destruct (IH w1 _ _ HF1 Hacc1 Hrest) as (Hf2 & Hl2 & Ho2 & Fv' & HF2 & Hacc2).
    split; [congruence|]. split; [congruence|]. split.
    { intros l Hl. rewrite Ho2 by exact Hl. now apply Ho1. }
    exists Fv'. split; [exact HF2|]. simpl. rewrite app_assoc. exact Hacc2.
Qed.

(** When [_assemble_global_force] returns, [F_global] is a new array of
    [total_dofs] entries; entry [d] is the sum, from zero and in the order
    of the load list, of the values that the loads put on DOF [d] (a load
    without a node, a value on an inactive slot and a value beyond the six
    slots add nothing); every other object and every other field of the
    engine is as before. *)
Theorem _assemble_global_force_accumulates (w w' : World (F := F)) :
  _assemble_global_force w = (Val tt, w') ->
  fem w' = set_F_global (Some (length (heap w))) (fem w) /\
  (forall l o, heap w !! l = Some o -> heap w' !! l = Some o) /\
  exists Fv,
    heap w' !! length (heap w) = Some (ONdarray Fv) /\
    accumulated (Z.to_nat (total_dofs (fem w))) (force_contributions (fem w)) Fv.
Proof.
  intros H. unfold _assemble_global_force in H.
  apply bind_inv in H as (e & wa & He & H). inversion He; subst e wa. clear He.
  apply bind_inv in H as (zeros & wa & Hz & H). apply lift_inv in Hz as [Hz ->].
  unfold np_zeros_int in Hz. destruct (total_dofs (fem w) <? 0)%Z; [discriminate|].
  inversion Hz; subst zeros. clear Hz.
  apply bind_inv in H as (fg & w1 & Hal & H). apply alloc_inv in Hal as (Hfg & Hf1 & Hh1).
  apply bind_inv in H as ([] & w2 & Hmod & H). apply modify_fem_inv in Hmod as [Hf2 Hh2].
  set (N := Z.to_nat (total_dofs (fem w))) in *.
  assert (HF : heap w2 !! fg = Some (ONdarray (np_zeros N))).
  { rewrite Hh2, Hh1, Hfg. rewrite lookup_app_r by lia. now rewrite Nat.sub_diag. }
  destruct (_force_loads_spec fg N _ _ w2 w' [] _ HF (accumulated_zeros N) H)
    as (Hf3 & Hl3 & Ho3 & Fv & HFv & Hacc).
  subst fg. split; [|split].
  - rewrite Hf3, Hf2, Hf1. reflexivity.
  - intros l o Hl. rewrite Ho3.
    + rewrite Hh2, Hh1. now apply lookup_app_l_Some.
    + apply lookup_lt_Some in Hl. lia.
  - exists Fv. split; [exact HFv|]. exact Hacc.
Qed.

End ForceAssembly.

(** The theorem on the model with masked-off slots and four loads. *)
Lemma _assemble_global_force_witness :
  let w := loaded_nodes in
  let w' := snd (_assemble_global_force loaded_nodes) in
  fem w' = set_F_global (Some (length (heap w))) (fem w) /\
  (forall l o, heap w !! l = Some o -> heap w' !! l = Some o) /\
  exists Fv,
    heap w' !! length (heap w) = Some (ONdarray Fv) /\
    accumulated (Z.to_nat (total_dofs (fem w))) (force_contributions (fem w)) Fv.
Proof.
  apply (_assemble_global_force_accumulates loaded_nodes).
  apply pair_of_fst. vm_compute. reflexivity.
Defined.

(** Its force vector: the values on inactive slots are dropped, the two
    loads on node 5 add up, the load without a node adds nothing. *)
Example loaded_nodes_force_vector :
  force_of (after _assemble_global_force loaded_nodes) = [2; 2; 3; 10; 30; 50]%float.
Proof. vm_compute. reflexivity. Qed.


(* ------------------------------------------------------------------ *)
(** ** Central difference integration *)

Section CentralDifferenceProofs.
Context {F : Type} {SF : Scalar F} {SP : Scipy F}.

(** One round of the loop: it reads rows [i] and the stored K, and writes
    rows [i + 1]. *)
Lemma _central_difference_step_spec (uh vh ah fh : nat) (Cm M_eff : csr F) (dt : F)
    (i : nat) (w w' : World (F := F)) (U V A Fh : list (list F)) :
  uh <> vh -> uh <> ah -> vh <> ah -> fh <> uh -> fh <> vh -> fh <> ah ->
  histories uh vh ah fh w U V A Fh ->
  _central_difference_step uh vh ah fh Cm M_eff dt i w = (Val tt, w') ->
  exists ru rv ra lk K,
    histories uh vh ah fh w' (<[i + 1 := ru]> U) (<[i + 1 := rv]> V) (<[i + 1 := ra]> A) Fh /\
    fem w' = fem w /\
    (forall l, l <> uh -> l <> vh -> l <> ah -> heap w' !! l = heap w !! l) /\
    i + 1 < length U /\ i + 1 < length V /\ i + 1 < length A /\
    K_global (fem w) = Some lk /\ heap w !! lk = Some (OCsr K) /\
    central_difference_related K Cm M_eff dt
      (<[i + 1 := ru]> U) (<[i + 1 := rv]> V) (<[i + 1 := ra]> A) Fh i.
Proof.
  intros Huv Hua Hva Hfu Hfv Hfa (HU & HV & HA & HF) H.
  unfold _central_difference_step in H.
  apply bind_inv in H as (u_n & wa & Hu & H).
  apply (ndarray2_row_inv _ _ _ _ U) in Hu as [Hu ->]; [|exact HU].
  apply bind_inv in H as (v_n & wa & Hv & H).
  apply (ndarray2_row_inv _ _ _ _ V) in Hv as [Hv ->]; [|exact HV].
  apply bind_inv in H as (forces & wa & Hf & H). apply read_ndarray2_inv in Hf as [Hf ->].
  assert (forces = Fh) by congruence. subst forces.
  apply bind_inv in H as (F_n & wa & Hn & H).
  fold (clamped_current i (length Fh)) in Hn.
  destruct (clamped_current i (length Fh) <? 0)%Z eqn:Eidx; [discriminate|].
  apply Z.ltb_ge in Eidx. apply lift_inv in Hn as [Hn ->].
  unfold list_getitem in Hn.
  destruct (Fh !! Z.to_nat (clamped_current i (length Fh))) as [Fn|] eqn:EF; [|discriminate].
  inversion Hn; subst Fn. clear Hn.
  apply bind_inv in H as (e & wa & He & H). inversion He; subst e wa. clear He.
  apply bind_inv in H as (K & wa & HK & H).
  apply read_csr_field_inv in HK as (lk & HlK & HK & ->).
  inv_lift H Ku HKu. inv_lift H F_K HFK. inv_lift H Cv HCv. inv_lift H F_eff HFeff.
  inv_lift H a_n Han. inv_lift H v_next Hvn. inv_lift H u_next Hun.
  apply bind_inv in H as ([] & w1 & Hs1 & H).
  apply bind_inv in H as ([] & w2 & Hs2 & H).
  destruct (ndarray2_set_row_inv uh (i + 1) u_next w w1 U HU Hs1) as (ru & Bu & Lu & Fu & Hh1).
  assert (HV1 : heap w1 !! vh = Some (ONdarray2 V)).
  { rewrite Hh1, list_lookup_insert_ne by congruence. exact HV. }
  destruct (ndarray2_set_row_inv vh (i + 1) v_next w1 w2 V HV1 Hs2) as (rv & Bv & Lv & Fv & Hh2).
  assert (HA2 : heap w2 !! ah = Some (ONdarray2 A)).
  { rewrite Hh2, Hh1, !list_lookup_insert_ne by congruence. exact HA. }
  destruct (ndarray2_set_row_inv ah (i + 1) a_n w2 w' A HA2 H) as (ra & Ba & La & Fa & Hh3).
  pose proof (lookup_lt_Some _ _ _ HU) as LU.
  pose proof (lookup_lt_Some _ _ _ HV) as LV.
  pose proof (lookup_lt_Some _ _ _ HA) as LA.
  exists ru, rv, ra, lk, K. split; [|split; [congruence|split]].
  - unfold histories. rewrite Hh3, Hh2, Hh1. repeat split.
    + rewrite !list_lookup_insert_ne by congruence. now apply list_lookup_insert_eq.
    + rewrite list_lookup_insert_ne by congruence.
      apply list_lookup_insert_eq. now rewrite length_insert.
    + apply list_lookup_insert_eq. now rewrite !length_insert.
    + rewrite !list_lookup_insert_ne by congruence. exact HF.
  - intros l H1 H2 H3. rewrite Hh3, Hh2, Hh1.
    now rewrite !list_lookup_insert_ne by congruence.
  - split; [exact Lu|]. split; [exact Lv|]. split; [exact La|].
    split; [exact HlK|]. split; [exact HK|].
    exists u_n, v_n, F_n, u_next, v_next, a_n, ru, rv, ra.
    rewrite !list_lookup_insert_ne by lia.
    rewrite !list_lookup_insert_eq by assumption.
    repeat (split; [first [assumption | reflexivity]|]).
    split.
    { unfold central_difference_spec_step.
      rewrite HKu; simpl. rewrite HFK; simpl. rewrite HCv; simpl. rewrite HFeff; simpl.
      rewrite Han; simpl. rewrite Hvn; simpl. rewrite Hun; simpl. reflexivity. }
    repeat (split; [first [assumption | reflexivity]|]). assumption.
Qed.

(** The relation at step [i] only looks at rows [i] and [i + 1]. *)
Lemma central_difference_related_rows (K Cm M_eff : csr F) (dt : F)
    (U V A U' V' A' Fh : list (list F)) (i : nat) :
  (forall j, j <= i + 1 -> U' !! j = U !! j /\ V' !! j = V !! j /\ A' !! j = A !! j) ->
  central_difference_related K Cm M_eff dt U V A Fh i ->
  central_difference_related K Cm M_eff dt U' V' A' Fh i.
Proof.
  intros Hrows (u & v & Fn & u' & v' & a & ru & rv & ra &
                H1 & H2 & H3 & H4 & H5 & H6 & H7 & H8 & H9 & H10 & H11).
  destruct (Hrows i ltac:(lia)) as (E1 & E2 & E3).
  destruct (Hrows (i + 1) ltac:(lia)) as (E4 & E5 & E6).
  exists u, v, Fn, u', v', a, ru, rv, ra.
  rewrite E1, E2, E4, E5, E6. repeat (split; [assumption|]). assumption.
Qed.

Lemma _central_difference_loop_spec (uh vh ah fh : nat) (Cm M_eff : csr F) (dt : F)
    (Fh : list (list F)) :
  uh <> vh -> uh <> ah -> vh <> ah -> fh <> uh -> fh <> vh -> fh <> ah ->
  forall (n s : nat) (w w' : World (F := F)) (U V A : list (list F)),
    histories uh vh ah fh w U V A Fh ->
    for_each (seq s n) (_central_difference_step uh vh ah fh Cm M_eff dt) w = (Val tt, w') ->
    exists U' V' A',
      histories uh vh ah fh w' U' V' A' Fh /\
      fem w' = fem w /\
      length U' = length U /\ length V' = length V /\ length A' = length A /\
      (forall j, j <= s -> U' !! j = U !! j /\ V' !! j = V !! j /\ A' !! j = A !! j) /\
      (forall i, s <= i < s + n ->
         exists lk K, K_global (fem w) = Some lk /\ heap w !! lk = Some (OCsr K) /\
                      central_difference_related K Cm M_eff dt U' V' A' Fh i).
Proof.
  intros Huv Hua Hva Hfu Hfv Hfa.
  induction n as [|n IH]; intros s w w' U V A Hh Hrun.
  - apply mret_inv in Hrun as [_ ->]. exists U, V, A.
    split; [exact Hh|]. repeat (split; [reflexivity|]). split; [auto|].
    intros i Hi. lia.
  - simpl in Hrun. apply bind_inv in Hrun as ([] & w1 & Hstep & Hrest).
    destruct (_central_difference_step_spec uh vh ah fh Cm M_eff dt s w w1 U V A Fh
                Huv Hua Hva Hfu Hfv Hfa Hh Hstep)
      as (ru & rv & ra & lk & K & Hh1 & Hf1 & Hoth & LU & LV & LA & HlK & HK & Hrel).
    destruct (IH (S s) w1 w' _ _ _ Hh1 Hrest)
      as (U' & V' & A' & Hh' & Hf' & EU & EV & EA & Hkeep & Hrels).
    rewrite !length_insert in EU, EV, EA.
    exists U', V', A'. split; [exact Hh'|]. split; [congruence|].
    split; [exact EU|]. split; [exact EV|]. split; [exact EA|]. split.
    + intros j Hj. destruct (Hkeep j ltac:(lia)) as (E1 & E2 & E3).
      rewrite E1, E2, E3. rewrite !list_lookup_insert_ne by lia. auto.
    + intros i Hi. destruct (decide (i = s)) as [->|Hne].
      * exists lk, K. split; [exact HlK|]. split; [exact HK|].
        eapply central_difference_related_rows; [|exact Hrel].
        intros j Hj. apply Hkeep. lia.
      * destruct (Hrels i ltac:(lia)) as (lk' & K' & HlK' & HK' & Hrel').
        exists lk', K'. split; [congruence|]. split; [|exact Hrel'].
        destruct Hh1 as (HU1 & HV1 & HA1 & _).
        rewrite <- Hoth; [exact HK'| | |]; intros ->; congruence.
Qed.

(** When [_central_difference_integration] succeeds on four distinct
    history arrays: one effective mass M* = M + (dt/2) C is formed from the
    stored M and the damping matrix; each history keeps its row count and
    its row 0; and for
    every step i the rows i + 1 are the values the scheme gives from rows i
    with the stored K and the load at index min(i, last):
    M* a = F_i - K u - C v, v' = v + dt a, u' = u + dt v', the acceleration
    a being stored in row i + 1. *)
Theorem central_difference_follows_recurrence
    (uh vh ah fh C : nat) (dt : F) (w w' : World (F := F))
    (U0 V0 A0 Fh : list (list F)) :
  uh <> vh -> uh <> ah -> vh <> ah -> fh <> uh -> fh <> vh -> fh <> ah ->
  histories uh vh ah fh w U0 V0 A0 Fh ->
  _central_difference_integration uh vh ah fh C dt w = (Val (Success tt), w') ->
  exists lm M Cm M_eff U V A,
    M_global (fem w) = Some lm /\ heap w !! lm = Some (OCsr M) /\
    heap w !! C = Some (OCsr Cm) /\
    csr_add M (csr_scale (fdiv dt (fofZ 2)) Cm) = Val M_eff /\
    histories uh vh ah fh w' U V A Fh /\
    length U = length U0 /\ length V = length V0 /\ length A = length A0 /\
    U !! 0 = U0 !! 0 /\ V !! 0 = V0 !! 0 /\ A !! 0 = A0 !! 0 /\
    forall i, i + 1 < length U ->
      exists lk K, K_global (fem w) = Some lk /\ heap w !! lk = Some (OCsr K) /\
                   central_difference_related K Cm M_eff dt U V A Fh i.
Proof.
  intros Huv Hua Hva Hfu Hfv Hfa Hh H. unfold _central_difference_integration in H.
  apply try_except_inv_success with (h := Str) in H.
  apply bind_inv in H as (U0' & wa & HU0 & H). apply read_ndarray2_inv in HU0 as [HU0 ->].
  assert (U0' = U0) by (destruct Hh as (HU & _); congruence). subst U0'.
  apply bind_inv in H as (e & wa & He & H). inversion He; subst e wa. clear He.
  apply bind_inv in H as (M & wa & HM & H).
  apply read_csr_field_inv in HM as (lm & HlM & HM & ->).
  apply bind_inv in H as (Cm & wa & HC & H). apply read_csr_inv in HC as [HC ->].
  inv_lift H M_eff HMeff.
  apply bind_inv in H as ([] & w1 & Hloop & H).
  apply mret_inv in H as [_ ->].
  destruct (_central_difference_loop_spec uh vh ah fh Cm M_eff dt Fh
              Huv Hua Hva Hfu Hfv Hfa _ 0 w w1 U0 V0 A0 Hh Hloop)
    as (U & V & A & Hh' & Hf' & EU & EV & EA & Hkeep & Hrels).
  destruct (Hkeep 0 ltac:(lia)) as (E1 & E2 & E3).
  exists lm, M, Cm, M_eff, U, V, A.
  repeat (split; [assumption|]).
  intros i Hi. apply Hrels. lia.
Qed.

End CentralDifferenceProofs.

(** The theorem on the free truss bar: two steps of 1e-5 s. *)
Lemma central_difference_witness :
  exists lm M Cm M_eff U V A,
    M_global (fem newmark_world) = Some lm /\ heap newmark_world !! lm = Some (OCsr M) /\
    heap newmark_world !! 7 = Some (OCsr Cm) /\
    csr_add M (csr_scale (fdiv 1e-5%float (fofZ 2)) Cm) = Val M_eff /\
    histories 3 4 5 6
      (snd (_central_difference_integration (SP := gauss_backend) 3 4 5 6 7
              1e-5%float newmark_world))
      U V A [np_zeros 6; [0; 0; 0; 1e5; 0; 0]%float] /\
    length U = length (replicate 3 (np_zeros (F := float) 6)) /\
    length V = length (replicate 3 (np_zeros (F := float) 6)) /\
    length A = length (replicate 3 (np_zeros (F := float) 6)) /\
    U !! 0 = replicate 3 (np_zeros 6) !! 0 /\
    V !! 0 = replicate 3 (np_zeros 6) !! 0 /\
    A !! 0 = replicate 3 (np_zeros 6) !! 0 /\
    forall i, i + 1 < length U ->
      exists lk K, K_global (fem newmark_world) = Some lk /\
                   heap newmark_world !! lk = Some (OCsr K) /\
                   central_difference_related (SP := gauss_backend) K Cm M_eff
                     1e-5%float U V A [np_zeros 6; [0; 0; 0; 1e5; 0; 0]%float] i.
Proof.
  apply (central_difference_follows_recurrence (SP := gauss_backend)
           3 4 5 6 7 1e-5%float newmark_world);
    try lia.
  - repeat split; vm_compute; reflexivity.
  - apply pair_of_fst. vm_compute. reflexivity.
Defined.

(** The run of the witness.  Step 0 uses the zero load of row 0, so rows 1
    stay zero; step 1 uses the load of row 1 and the bar starts to move:
    at the loaded DOF a > 0, v = dt a and u = dt v. *)
Example central_difference_run :
  let w' := snd (_central_difference_integration (SP := gauss_backend) 3 4 5 6 7
                   1e-5%float newmark_world) in
  match heap w' !! 3, heap w' !! 5 with
  | Some (ONdarray2 [_; u1; u2]), Some (ONdarray2 [_; a1; a2]) =>
      u1 = np_zeros 6 /\ a1 = np_zeros 6 /\
      match a2 !! 3, u2 !! 3 with
      | Some a, Some u => PrimFloat.ltb 0 a = true /\ u = (1e-5 * (1e-5 * a))%float
      | _, _ => False
      end
  | _, _ => False
  end.
Proof. vm_compute. repeat split; reflexivity. Qed.


(* ------------------------------------------------------------------ *)
(** ** Rayleigh damping *)

Section RayleighDamping.
Context {F : Type} {SF : Scalar F}.

(** When [_assemble_rayleigh_damping] returns, the damping matrix is a new
    object, 0 * M + beta * K with beta = 2 * damping_ratio / 100, formed
    from the stored M and K, which it leaves as they are. *)
Lemma _assemble_rayleigh_damping_inv (damping_ratio : F) (w w' : World (F := F)) (c : nat) :
  _assemble_rayleigh_damping damping_ratio w = (Val c, w') ->
  exists lm lk M K Cm,
    M_global (fem w) = Some lm /\ heap w !! lm = Some (OCsr M) /\
    K_global (fem w) = Some lk /\ heap w !! lk = Some (OCsr K) /\
    csr_add (csr_scale (fofZ 0) M) (csr_scale (rayleigh_beta damping_ratio) K) = Val Cm /\
    c = length (heap w) /\ fem w' = fem w /\ heap w' = heap w ++ [OCsr Cm].
Proof.
  intros H. unfold _assemble_rayleigh_damping in H.
  apply bind_inv in H as (e & wa & He & H). inversion He; subst e wa. clear He.
  apply bind_inv in H as (M & wa & HM & H).
  apply read_csr_field_inv in HM as (lm & HlM & HM & ->).
  apply bind_inv in H as (K & wa & HK & H).
  apply read_csr_field_inv in HK as (lk & HlK & HK & ->).
  inv_lift H Cm HC. apply alloc_inv in H as (Hc & Hf & Hh).
  exists lm, lk, M, K, Cm. auto 10.
Qed.

End RayleighDamping.

Section RayleighDampingExact.

(** In exact arithmetic the Rayleigh damping matrix is K scaled by
    damping_ratio / 50: the mass matrix contributes only zeros (and has to
    have the shape of K).  It is a new object, returned at the first free
    address; the objects there were and the engine are unchanged. *)
Theorem rayleigh_damping_is_scaled_stiffness (damping_ratio : R)
    (w w' : World (F := R)) (c : nat) :
  _assemble_rayleigh_damping damping_ratio w = (Val c, w') ->
  exists Cm,
    c = length (heap w) /\ heap w' = heap w ++ [OCsr Cm] /\ fem w' = fem w /\
    csr_shape Cm = csr_shape (stiffness_of w) /\
    csr_shape (mass_of w) = csr_shape (stiffness_of w) /\
    forall i j, csr_entry Cm i j = (damping_ratio / 50 * csr_entry (stiffness_of w) i j)%R.
Proof.
  intros H. apply _assemble_rayleigh_damping_inv in H
    as (lm & lk & M & K & Cm & HlM & HM & HlK & HK & HC & -> & Hf & Hh).
  unfold csr_add in HC. simpl in HC.
  destruct (decide (csr_shape M = csr_shape K)) as [Es|]; [|discriminate].
  inversion HC; subst Cm. clear HC.
  eexists. split; [reflexivity|]. split; [exact Hh|]. split; [exact Hf|].
  unfold stiffness_of, mass_of. rewrite HlM, HM, HlK, HK. simpl.
  split; [exact Es|]. split; [exact Es|].
  intros i j. unfold csr_entry. simpl.
  rewrite lookup_union_with, !lookup_fmap.
  unfold rayleigh_beta. simpl.
  destruct (csr_data M !! (i, j)) as [m|], (csr_data K !! (i, j)) as [k|]; simpl;
    unfold f0; simpl; lra.
Qed.

End RayleighDampingExact.

(** The theorem on the truss bar over the reals, with damping ratio 1/20. *)
Lemma rayleigh_damping_witness :
  exists Cm,
    length (heap unit_truss_exact) = length (heap unit_truss_exact) /\
    heap (snd (_assemble_rayleigh_damping (1 / 20)%R unit_truss_exact))
    = heap unit_truss_exact ++ [OCsr Cm] /\
    fem (snd (_assemble_rayleigh_damping (1 / 20)%R unit_truss_exact))
    = fem unit_truss_exact /\
    csr_shape Cm = csr_shape (stiffness_of unit_truss_exact) /\
    csr_shape (mass_of unit_truss_exact) = csr_shape (stiffness_of unit_truss_exact) /\
    forall i j,
      csr_entry Cm i j = (1 / 20 / 50 * csr_entry (stiffness_of unit_truss_exact) i j)%R.
Proof.
  apply (rayleigh_damping_is_scaled_stiffness (1 / 20)%R unit_truss_exact).
  apply pair_of_fst. reflexivity.
Defined.


(* ------------------------------------------------------------------ *)
(** ** Stiffness assembly and buckling *)

Section StiffnessAssemblyShape.
Context {F : Type} {SF : Scalar F}.

Lemma csr_add_shape (A B S : csr F) : csr_add A B = Val S -> csr_shape S = csr_shape A.
Proof.
  unfold csr_add. destruct (decide (csr_shape A = csr_shape B)); intros E; inversion E.
  reflexivity.
Qed.

(** One round of the stiffness assembly keeps an N x N matrix under
    [K_global], changes no other field and no existing object. *)
Lemma _assemble_element_shape (N : nat) (element : Element.t F) (w w' : World (F := F)) :
  (exists lk K, K_global (fem w) = Some lk /\ heap w !! lk = Some (OCsr K) /\
                csr_shape K = (N, N)) ->
  _assemble_element element w = (Val tt, w') ->
  (exists lk K, K_global (fem w') = Some lk /\ heap w' !! lk = Some (OCsr K) /\
                csr_shape K = (N, N)) /\
  fem w' = set_K_global (K_global (fem w')) (fem w) /\
  (forall l o, heap w !! l = Some o -> heap w' !! l = Some o).
Proof.
  intros (lk & K & HlK & HK & Hs) H. unfold _assemble_element in H.
  apply bind_inv in H as ([k_elem dofs] & wa & Hget & H).
  pose proof (_get_element_stiffness_matrix_read_only element w) as Hro.
  rewrite Hget in Hro. simpl in Hro. subst wa.
  destruct (Nat.eqb (length (active dofs)) 0).
  - apply mret_inv in H as [_ ->]. split; [eauto|]. split; [|auto].
    destruct (fem w). reflexivity.
  - apply bind_inv in H as (e & wa & He & H). inversion He; subst e wa. clear He.
    inv_lift H contribution Hc.
    apply bind_inv in H as (kg & wa & Hkg & H). apply not_none_inv in Hkg as [Hkg ->].
    apply bind_inv in H as (K0 & wa & HK0 & H). apply read_csr_inv in HK0 as [HK0 ->].
    inv_lift H K' HK'.
    apply bind_inv in H as (l & w1 & Hal & H). apply alloc_inv in Hal as (Hl & Hf1 & Hh1).
    apply modify_fem_inv in H as [Hf2 Hh2].
    assert (K0 = K) by congruence. subst K0.
    split; [|split].
    + exists l, K'. rewrite Hf2, Hh2, Hh1, Hl. split; [reflexivity|]. split.
      * rewrite lookup_app_r by lia. now rewrite Nat.sub_diag.
      * apply csr_add_shape in HK'. congruence.
    + rewrite Hf2, Hf1. reflexivity.
    + intros l' o Hl'. rewrite Hh2, Hh1. now apply lookup_app_l_Some.
Qed.

Lemma _assemble_elements_shape (N : nat) (els : list (Element.t F)) (w w' : World (F := F)) :
  (exists lk K, K_global (fem w) = Some lk /\ heap w !! lk = Some (OCsr K) /\
                csr_shape K = (N, N)) ->
  for_each els _assemble_element w = (Val tt, w') ->
  (exists lk K, K_global (fem w') = Some lk /\ heap w' !! lk = Some (OCsr K) /\
                csr_shape K = (N, N)) /\
  fem w' = set_K_global (K_global (fem w')) (fem w) /\
  (forall l o, heap w !! l = Some o -> heap w' !! l = Some o).
Proof.
  revert w. induction els as [|el els IH]; intros w Hst Hrun.
  - apply mret_inv in Hrun as [_ ->]. split; [exact Hst|]. split; [|auto].
    destruct (fem w). reflexivity.
  - simpl in Hrun. apply bind_inv in Hrun as ([] & w1 & Hstep & Hrest).
    destruct (_assemble_element_shape N el w w1 Hst Hstep) as (Hst1 & Hf1 & Hh1).
    destruct (IH w1 Hst1 Hrest) as (Hst2 & Hf2 & Hh2).
    split; [exact Hst2|]. split; [|auto].
    rewrite Hf2, Hf1. reflexivity.
Qed.

(** When the stiffness assembly returns, [K_global] names a square matrix of
    [total_dofs] rows; the other fields and the existing objects are as
    before. *)
Lemma _assemble_global_stiffness_shape (w w' : World (F := F)) :
  _assemble_global_stiffness w = (Val tt, w') ->
  (exists lk K, K_global (fem w') = Some lk /\ heap w' !! lk = Some (OCsr K) /\
                csr_shape K = (Z.to_nat (total_dofs (fem w)), Z.to_nat (total_dofs (fem w)))) /\
  (0 <= total_dofs (fem w))%Z /\
  fem w' = set_K_global (K_global (fem w')) (fem w) /\
  (forall l o, heap w !! l = Some o -> heap w' !! l = Some o).
Proof.
  intros H. unfold _assemble_global_stiffness in H.
  apply bind_inv in H as (e & wa & He & H). inversion He; subst e wa. clear He.
  inv_lift H K0 HK0. unfold csr_matrix_shape in HK0.
  destruct (total_dofs (fem w) <? 0)%Z eqn:EN; [discriminate|]. apply Z.ltb_ge in EN.
  inversion HK0; subst K0. clear HK0.
  apply bind_inv in H as (l & w1 & Hal & H). apply alloc_inv in Hal as (Hl & Hf1 & Hh1).
  apply bind_inv in H as ([] & w2 & Hmod & H). apply modify_fem_inv in Hmod as [Hf2 Hh2].
  set (N := Z.to_nat (total_dofs (fem w))) in *.
  destruct (_assemble_elements_shape N (dict_values (elements (fem w))) w2 w')
    as (Hst & Hf3 & Hh3); [|exact H|].
  { exists l, (csr_empty N N). rewrite Hf2, Hh2, Hh1, Hl. split; [reflexivity|].
    split; [|reflexivity]. rewrite lookup_app_r by lia. now rewrite Nat.sub_diag. }
  split; [exact Hst|]. split; [exact EN|]. split.
  - rewrite Hf3, Hf2, Hf1. reflexivity.
  - intros l' o Hl'. apply Hh3. rewrite Hh2, Hh1. now apply lookup_app_l_Some.
Qed.

End StiffnessAssemblyShape.

Section Buckling.
Context {F : Type} {SF : Scalar F} {SP : Scipy F}.

Lemma csr_neg_empty (n m : nat) : csr_neg (F := F) (csr_empty n m) = csr_empty n m.
Proof. unfold csr_neg, csr_empty. simpl. now rewrite fmap_empty. Qed.


End Buckling.



(* ------------------------------------------------------------------ *)
(** ** Dynamic response *)

Section DynamicResponse.
Context {F : Type} {SF : Scalar F} {SP : Scipy F} {BI : Builtins F}.

#[local] Existing Instance writes_only_preorder.

(** [_setup_dof_mapping] returns, touches no array object and no field but
    the DOF map and the DOF count, which is the number of active slots. *)
Lemma _setup_dof_mapping_run (w : World (F := F)) :
  exists w', _setup_dof_mapping w = (Val tt, w') /\
    heap w' = heap w /\
    total_dofs (fem w') = Z.of_nat (count_true (all_slots (nodes (fem w)))) /\
    nodes (fem w') = nodes (fem w) /\ loads (fem w') = loads (fem w) /\
    constraints (fem w') = constraints (fem w).
Proof.
  eexists. split.
  - unfold _setup_dof_mapping, mbind, py_bind, get_fem, dict_items.
    rewrite _setup_dof_mapping_loop_spec. unfold modify_fem. reflexivity.
  - simpl. rewrite dof_map_after_counter. repeat split; lia.
Qed.

(** The mass loops write to the mass matrix object only. *)
Lemma _mass_nodes_writes_only (ml : nat) (dm : dict (list Z)) (m : F) (node_ids : list Z) :
  preserves (writes_only (F := F) ml ml) (for_each node_ids (_mass_node ml dm m)).
Proof.
  unfold _mass_node, _mass_slot, csr_iadd_item. preserves_auto.
  all: apply preserves_store_writes_only_l.
Qed.

Lemma _assemble_element_mass_frame (ml : nat) (el : Element.t F) (w w' : World (F := F)) :
  M_global (fem w) = Some ml ->
  _assemble_element_mass el w = (Val tt, w') -> writes_only ml ml w w'.
Proof.
  intros Hml H. unfold _assemble_element_mass in H.
  apply bind_inv in H as (e & wa & He & H). inversion He; subst e wa. clear He.
  apply bind_inv in H as (material & wa & Hmat & H). apply lift_inv in Hmat as [_ ->].
  destruct (dict_get_opt (Element.section_id el) (sections (fem w))) as [section|].
  - apply bind_inv in H as (n1 & wa & Hn1 & H). apply lift_inv in Hn1 as [_ ->].
    apply bind_inv in H as (node1 & wa & Hnode1 & H). apply lift_inv in Hnode1 as [_ ->].
    apply bind_inv in H as (n2 & wa & Hn2 & H). apply lift_inv in Hn2 as [_ ->].
    apply bind_inv in H as (node2 & wa & Hnode2 & H). apply lift_inv in Hnode2 as [_ ->].
    apply bind_inv in H as (L & wa & HL & H). apply lift_inv in HL as [_ ->].
    apply bind_inv in H as (ml' & wa & Hml' & H). apply not_none_inv in Hml' as [Hml' ->].
    assert (ml' = ml) by congruence. subst ml'.
    pose proof (_mass_nodes_writes_only ml (dof_map (fem w))
                  (fdiv (fmul (fmul (Material.rho material) (CrossSection.A section)) L) (fofZ 2))
                  (Element.nodes el) w) as Hw.
    rewrite H in Hw. exact Hw.
  - apply mret_inv in H as [_ ->]. apply writes_only_refl.
Qed.

Lemma _assemble_elements_mass_frame (ml : nat) (els : list (Element.t F))
    (w w' : World (F := F)) :
  M_global (fem w) = Some ml ->
  for_each els _assemble_element_mass w = (Val tt, w') -> writes_only ml ml w w'.
Proof.
  revert w. induction els as [|el els IH]; intros w Hml Hrun.
  - apply mret_inv in Hrun as [_ ->]. apply writes_only_refl.
  - simpl in Hrun. apply bind_inv in Hrun as ([] & w1 & Hstep & Hrest).
    pose proof (_assemble_element_mass_frame ml el w w1 Hml Hstep) as H1.
    assert (Hml1 : M_global (fem w1) = Some ml) by (destruct H1 as [-> _]; exact Hml).
    eapply writes_only_trans; [exact H1 | exact (IH w1 Hml1 Hrest)].
Qed.

(** The mass assembly keeps every existing object and every field but
    [M_global]. *)
Lemma _assemble_global_mass_frame (w w' : World (F := F)) :
  _assemble_global_mass w = (Val tt, w') ->
  fem w' = set_M_global (Some (length (heap w))) (fem w) /\
  (forall l o, heap w !! l = Some o -> heap w' !! l = Some o).
Proof.
  intros H. unfold _assemble_global_mass in H.
  apply bind_inv in H as (e & wa & He & H). inversion He; subst e wa. clear He.
  inv_lift H M0 HM0.
  apply bind_inv in H as (ml & w1 & Hal & H). apply alloc_inv in Hal as (Hml & Hf1 & Hh1).
  apply bind_inv in H as ([] & w2 & Hmod & H). apply modify_fem_inv in Hmod as [Hf2 Hh2].
  assert (Hml2 : M_global (fem w2) = Some ml) by (rewrite Hf2; reflexivity).
  destruct (_assemble_elements_mass_frame ml _ w2 w' Hml2 H) as (Hf3 & Hl3 & Ho3).
  split.
  - rewrite Hf3, Hf2, Hf1, Hml. reflexivity.
  - intros l o Hl. rewrite Ho3.
    + rewrite Hh2, Hh1. now apply lookup_app_l_Some.
    + apply lookup_lt_Some in Hl. lia.
    + apply lookup_lt_Some in Hl. lia.
Qed.

Lemma np_sub_lengths (u v r : list F) :
  np_sub u v = Val r -> length u = length v \/ length u = 1 \/ length v = 1.
Proof.
  unfold np_sub, np_map2. destruct (Nat.eqb_spec (length u) (length v)); [auto|].
  destruct u as [|a [|]], v as [|b [|]]; simpl; try discriminate; auto.
Qed.

Lemma csr_matvec_length (A : csr F) (u r : list F) :
  csr_matvec A u = Val r -> length r = fst (csr_shape A) /\ length u = snd (csr_shape A).
Proof.
  unfold csr_matvec. destruct (Nat.eqb_spec (snd (csr_shape A)) (length u)); [|discriminate].
  intros E. inversion E. rewrite length_map, length_seq. auto.
Qed.

(** The integrators keep the number of rows and the rows 0 of the
    histories. *)
Lemma _newmark_integration_keeps (uh vh ah fh C : nat) (dt beta gamma : F)
    (w w' : World (F := F)) (U0 V0 A0 Fh : list (list F)) (u : unit) :
  uh <> vh -> uh <> ah -> vh <> ah -> fh <> uh -> fh <> vh -> fh <> ah ->
  histories uh vh ah fh w U0 V0 A0 Fh ->
  _newmark_integration uh vh ah fh C dt beta gamma w = (Val (Success u), w') ->
  exists U V A,
    histories uh vh ah fh w' U V A Fh /\
    length U = length U0 /\ length V = length V0 /\ length A = length A0 /\
    U !! 0 = U0 !! 0 /\ V !! 0 = V0 !! 0 /\ A !! 0 = A0 !! 0.
Proof.
  intros Huv Hua Hva Hfu Hfv Hfa Hh H. unfold _newmark_integration in H.
  apply try_except_inv_success with (h := Str) in H.
  apply bind_inv in H as (U0' & wa & HU0 & H). apply read_ndarray2_inv in HU0 as [HU0 ->].
  inv_lift H k Hk.
  apply bind_inv in H as (e & wa & He & H). inversion He; subst e wa. clear He.
  apply bind_inv in H as (K & wa & HK & H).
  apply read_csr_field_inv in HK as (lk & HlK & HK & ->).
  apply bind_inv in H as (M & wa & HM & H).
  apply read_csr_field_inv in HM as (lm & HlM & HM & ->).
  apply bind_inv in H as (Cm & wa & HC & H). apply read_csr_inv in HC as [HC ->].
  inv_lift H K_eff HKeff.
  apply bind_inv in H as ([] & w1 & Hloop & H).
  apply mret_inv in H as [_ ->].
  destruct (_newmark_loop_spec uh vh ah fh M Cm K_eff k dt gamma Fh
              Huv Hua Hva Hfu Hfv Hfa _ 0 w w1 U0 V0 A0 Hh Hloop)
    as (U & V & A & Hh' & EU & EV & EA & Hkeep & _).
  destruct (Hkeep 0 ltac:(lia)) as (E1 & E2 & E3).
  exists U, V, A. auto 10.
Qed.

Lemma _central_difference_integration_keeps (uh vh ah fh C : nat) (dt : F)
    (w w' : World (F := F)) (U0 V0 A0 Fh : list (list F)) (u : unit) :
  uh <> vh -> uh <> ah -> vh <> ah -> fh <> uh -> fh <> vh -> fh <> ah ->
  histories uh vh ah fh w U0 V0 A0 Fh ->
  _central_difference_integration uh vh ah fh C dt w = (Val (Success u), w') ->
  exists U V A,
    histories uh vh ah fh w' U V A Fh /\
    length U = length U0 /\ length V = length V0 /\ length A = length A0 /\
    U !! 0 = U0 !! 0 /\ V !! 0 = V0 !! 0 /\ A !! 0 = A0 !! 0.
Proof.
  intros Huv Hua Hva Hfu Hfv Hfa Hh H. unfold _central_difference_integration in H.
  apply try_except_inv_success with (h := Str) in H.
  apply bind_inv in H as (U0' & wa & HU0 & H). apply read_ndarray2_inv in HU0 as [HU0 ->].
  apply bind_inv in H as (e & wa & He & H). inversion He; subst e wa. clear He.
  apply bind_inv in H as (M & wa & HM & H).
  apply read_csr_field_inv in HM as (lm & HlM & HM & ->).
  apply bind_inv in H as (Cm & wa & HC & H). apply read_csr_inv in HC as [HC ->].
  inv_lift H M_eff HMeff.
  apply bind_inv in H as ([] & w1 & Hloop & H).
  apply mret_inv in H as [_ ->].
  destruct (_central_difference_loop_spec uh vh ah fh Cm M_eff dt Fh
              Huv Hua Hva Hfu Hfv Hfa _ 0 w w1 U0 V0 A0 Hh Hloop)
    as (U & V & A & Hh' & _ & EU & EV & EA & Hkeep & _).
  destruct (Hkeep 0 ltac:(lia)) as (E1 & E2 & E3).
  exists U, V, A. auto 10.
Qed.

(** [h[i] = v] for a [v] of the length of the rows stores [v] itself. *)
Lemma ndarray2_set_row_exact (l : nat) (i : nat) (v : list F) (w w' : World (F := F))
    (rows : list (list F)) (row : list F) :
  heap w !! l = Some (ONdarray2 rows) -> rows !! i = Some row -> length v = length row ->
  ndarray2_set_row l i v w = (Val tt, w') ->
  fem w' = fem w /\ heap w' = <[l := ONdarray2 (<[i := v]> rows)]> (heap w).
Proof.
  intros Hl Hi Hlen H. unfold ndarray2_set_row in H.
  apply bind_inv in H as (rows' & wa & Hr & H). apply read_ndarray2_inv in Hr as [Hr ->].
  assert (rows' = rows) by congruence. subst rows'.
  inv_lift H row' Hrow. inv_lift H r Hr'.
  unfold list_getitem in Hrow. rewrite Hi in Hrow. inversion Hrow; subst row'.
  unfold row_assign in Hr'. rewrite Hlen, Nat.eqb_refl in Hr'. inversion Hr'; subst r.
  unfold store in H. inversion H. auto.
Qed.

Lemma max_abs_history_inv (h : nat) (w w' : World (F := F)) (x : F) :
  max_abs_history h w = (Val x, w') -> w' = w.
Proof.
  unfold max_abs_history. intros H.
  apply bind_inv in H as (rows & wa & Hr & H). apply read_ndarray2_inv in Hr as [_ ->].
  now apply lift_inv in H as [_ ->].
Qed.

Lemma np_zeros_int_inv (n : Z) (v : list F) :
  np_zeros_int n = Val v -> (0 <= n)%Z /\ v = np_zeros (Z.to_nat n).
Proof.
  unfold np_zeros_int. destruct (n <? 0)%Z eqn:E; [discriminate|].
  apply Z.ltb_ge in E. intros H. inversion H. auto.
Qed.

(** What a successful [solve_dynamic_response] has done. *)
Lemma solve_dynamic_response_inv (th : nat) (options : DynamicOptions.t F)
    (w w' : World (F := F)) (r : DynamicResult.t F) (Fh : list (list F)) :
  heap w !! th = Some (ONdarray2 Fh) ->
  solve_dynamic_response th options w = (Val (Success r), w') ->
  dynamic_postcondition w Fh options r.
Proof.
  intros Hth H. unfold solve_dynamic_response in H.
  apply try_except_inv_success with (h := Str) in H.
  destruct (_setup_dof_mapping_run w) as (wa & Hsetup & Hha & HNa & _).
  apply bind_inv in H as ([] & wa' & H1 & H). rewrite Hsetup in H1.
  inversion H1; subst wa'. clear H1.
  apply bind_inv in H as ([] & wb & H2 & H).
  destruct (_assemble_global_stiffness_shape _ _ H2) as (_ & _ & Hfb & Hhb).
  apply bind_inv in H as ([] & wc & H3 & H).
  destruct (_assemble_global_mass_frame _ _ H3) as (Hfc & Hhc).
  assert (Hwc : snd ((_setup_dof_mapping ;; _assemble_global_stiffness ;;
                      _assemble_global_mass) w) = wc).
  { cbv [mbind py_bind]. rewrite Hsetup, H2, H3. reflexivity. }
  assert (HN : Z.to_nat (total_dofs (fem wc)) = count_true (all_slots (nodes (fem w)))).
  { rewrite Hfc. simpl. rewrite Hfb. simpl. rewrite HNa. lia. }
  apply bind_inv in H as (c & wd & H4 & H).
  apply _assemble_rayleigh_damping_inv in H4
    as (lm & lk & M & K & C & HlM & HM & HlK & HK & HC & -> & Hfd & Hhd).
  inv_lift H q Hq. inv_lift H n_steps Hn.
  apply bind_inv in H as (e & w0 & He & H). inversion He; subst e w0. clear He.
  inv_lift H zeros2 Hz2.
  unfold np_zeros2_int in Hz2.
  destruct ((n_steps + 1 <? 0)%Z || (total_dofs (fem wd) <? 0)%Z) eqn:Eneg; [discriminate|].
  apply orb_false_iff in Eneg as [Eneg1 Eneg2]. apply Z.ltb_ge in Eneg1, Eneg2.
  inversion Hz2; subst zeros2. clear Hz2.
  rewrite Hfd in *. set (N := Z.to_nat (total_dofs (fem wc))) in *.
  set (rows0 := replicate (Z.to_nat (n_steps + 1)) (np_zeros (F := F) N)) in *.
  apply bind_inv in H as (uh & we & Ha1 & H). apply alloc_inv in Ha1 as (-> & Hfe & Hhe).
  apply bind_inv in H as (vh & wf & Ha2 & H). apply alloc_inv in Ha2 as (-> & Hff & Hhf).
  apply bind_inv in H as (ah & wg & Ha3 & H). apply alloc_inv in Ha3 as (-> & Hfg & Hhg).
  inv_lift H u Hu. inv_lift H v Hv.
  apply np_zeros_int_inv in Hu as [_ ->]. apply np_zeros_int_inv in Hv as [_ ->].
  fold N in H.
  apply bind_inv in H as (loads' & w0 & Hl & H). apply read_ndarray2_inv in Hl as [Hl ->].
  assert (Hthd : heap wd !! th = Some (ONdarray2 Fh)).
  { rewrite Hhd. apply lookup_app_l_Some. apply Hhc, Hhb. rewrite Hha. exact Hth. }
  assert (Hltd : th < length (heap wd)) by (eapply lookup_lt_Some; exact Hthd).
  assert (Hthg : heap wg !! th = Some (ONdarray2 Fh)).
  { rewrite Hhg, Hhf, Hhe. repeat apply lookup_app_l_Some. exact Hthd. }
  assert (loads' = Fh) by congruence. subst loads'.
  apply bind_inv in H as (F0 & w0 & HF0 & H).
  assert (EF0 : F0 = first_load Fh N /\ w0 = wg).
  { unfold first_load. destruct (Nat.ltb_spec 0 (length Fh)) as [Hlt|Hge].
    - apply lift_inv in HF0 as [HF0 ->]. unfold list_getitem in HF0.
      destruct (Fh !! 0); inversion HF0. auto.
    - apply lift_inv in HF0 as [HF0 ->]. apply np_zeros_int_inv in HF0 as [_ ->].
      rewrite lookup_ge_None_2 by lia. auto. }
  destruct EF0 as [-> ->]. clear HF0.
  apply bind_inv in H as (Cm & w0 & HCm & H). apply read_csr_inv in HCm as [HCm ->].
  assert (Cm = C).
  { rewrite Hhg, Hhf, Hhe, Hhd in HCm.
    rewrite !lookup_app_l in HCm by (rewrite ?length_app; simpl; lia).
    rewrite lookup_app_r, Nat.sub_diag in HCm by lia. simpl in HCm. congruence. }
  subst Cm.
  inv_lift H Cv HCv. inv_lift H r1 Hr1.
  apply bind_inv in H as (K' & w0 & HK' & H).
  apply read_csr_field_inv in HK' as (lk' & HlK' & HK' & ->).
  assert (K' = K).
  { assert (lk' = lk) by congruence. subst lk'.
    rewrite Hhg, Hhf, Hhe, Hhd in HK'.
    rewrite !lookup_app_l in HK'
      by (rewrite ?length_app; simpl; apply lookup_lt_Some in HK; lia).
    congruence. }
  subst K'.
  inv_lift H Ku HKu. inv_lift H r2 Hr2.
  apply bind_inv in H as (M' & w0 & HM' & H).
  apply read_csr_field_inv in HM' as (lm' & HlM' & HM' & ->).
  assert (M' = M).
  { assert (lm' = lm) by congruence. subst lm'.
    rewrite Hhg, Hhf, Hhe, Hhd in HM'.
    rewrite !lookup_app_l in HM'
      by (rewrite ?length_app; simpl; apply lookup_lt_Some in HM; lia).
    congruence. }
  subst M'.
  inv_lift H a_init Ha.
  (* the three assignments of rows 0 *)
  set (uh := length (heap wd)) in *.
  assert (Hlg : length (heap wg) = uh + 3).
  { rewrite Hhg, Hhf, Hhe, !length_app. simpl. lia. }
  assert (HUg : heap wg !! uh = Some (ONdarray2 rows0)).
  { rewrite Hhg, Hhf, Hhe. rewrite !lookup_app_l by (rewrite ?length_app; simpl; lia).
    rewrite lookup_app_r, Nat.sub_diag by lia. reflexivity. }
  assert (HVg : heap wg !! length (heap we) = Some (ONdarray2 rows0)).
  { rewrite Hhg, Hhf. rewrite lookup_app_l by (rewrite ?length_app; simpl; lia).
    rewrite lookup_app_r, Nat.sub_diag by lia. reflexivity. }
  assert (HAg : heap wg !! length (heap wf) = Some (ONdarray2 rows0)).
  { rewrite Hhg. rewrite lookup_app_r, Nat.sub_diag by lia. reflexivity. }
  assert (Ev : length (heap we) = uh + 1) by (rewrite Hhe, length_app; simpl; lia).
  assert (Ea : length (heap wf) = uh + 2) by (rewrite Hhf, length_app; simpl; lia).
  rewrite Ev, Ea in *.
  apply bind_inv in H as ([] & wh & Hs1 & H).
  apply bind_inv in H as ([] & wi & Hs2 & H).
  apply bind_inv in H as ([] & wj & Hs3 & H).
  assert (Hrow0 : rows0 !! 0 = Some (np_zeros N)).
  { unfold ndarray2_set_row in Hs1.
    apply bind_inv in Hs1 as (rows' & w0 & Hr & Hs1).
    apply read_ndarray2_inv in Hr as [Hr ->].
    assert (rows' = rows0) by congruence. subst rows'.
    inv_lift Hs1 row Hrow. unfold list_getitem in Hrow.
    destruct (rows0 !! 0) as [row'|] eqn:E0; [|discriminate].
    unfold rows0 in E0. apply lookup_replicate in E0 as [-> _]. reflexivity. }
  assert (Hpos : (0 <= n_steps)%Z).
  { apply lookup_lt_Some in Hrow0. unfold rows0 in Hrow0.
    rewrite length_replicate in Hrow0. lia. }
  destruct (ndarray2_set_row_exact uh 0 (np_zeros N) wg wh rows0 _ HUg Hrow0 eq_refl Hs1)
    as (Hfh & Hhh).
  assert (HVh : heap wh !! (uh + 1) = Some (ONdarray2 rows0)).
  { rewrite Hhh, list_lookup_insert_ne by lia. exact HVg. }
  destruct (ndarray2_set_row_exact (uh + 1) 0 (np_zeros N) wh wi rows0 _ HVh Hrow0 eq_refl Hs2)
    as (Hfi & Hhi).
  assert (HAi : heap wi !! (uh + 2) = Some (ONdarray2 rows0)).
  { rewrite Hhi, Hhh, !list_lookup_insert_ne by lia. exact HAg. }
  destruct (ndarray2_set_row_inv (uh + 2) 0 a_init wi wj rows0 HAi Hs3)
    as (ra & Bra & _ & Hfj & Hhj).
  assert (Hhist : histories uh (uh + 1) (uh + 2) th wj
                    (<[0 := np_zeros N]> rows0) (<[0 := np_zeros N]> rows0)
                    (<[0 := ra]> rows0) Fh).
  { unfold histories. rewrite Hhj, Hhi, Hhh. repeat split.
    - rewrite !list_lookup_insert_ne by lia. apply list_lookup_insert_eq. lia.
    - rewrite list_lookup_insert_ne by lia. apply list_lookup_insert_eq.
      rewrite length_insert. lia.
    - apply list_lookup_insert_eq. rewrite !length_insert. lia.
    - rewrite !list_lookup_insert_ne by lia. exact Hthg. }
  (* the integrator *)
  apply bind_inv in H as (result & wk & Hint & H).
  assert (Hkeep : exists u0 U V A,
             result = Success u0 /\
             histories uh (uh + 1) (uh + 2) th wk U V A Fh /\
             length U = length rows0 /\ length V = length rows0 /\
             length A = length rows0 /\
             U !! 0 = Some (np_zeros N) /\ V !! 0 = Some (np_zeros N) /\
             A !! 0 = Some ra /\
             (DynamicOptions.integration_method options = "newmark"%string \/
              DynamicOptions.integration_method options = "central_difference"%string)).
  { destruct result as [u0|err]; [|apply mret_inv in H as [H _]; discriminate].
    assert (L0 : 0 < length rows0) by (eapply lookup_lt_Some; exact Hrow0).
    destruct (String.eqb_spec (DynamicOptions.integration_method options) "newmark")
      as [Em|Em].
    - eapply _newmark_integration_keeps in Hint
        as (U & V & A & Hh' & LU & LV & LA & EU & EV & EA);
        [ | lia | lia | lia | unfold uh; lia | unfold uh; lia | unfold uh; lia
          | exact Hhist ].
      rewrite !length_insert in LU, LV, LA.
      rewrite list_lookup_insert_eq in EU, EV, EA by exact L0.
      exists u0, U, V, A. auto 12.
    - destruct (String.eqb_spec (DynamicOptions.integration_method options)
                  "central_difference") as [Ec|Ec]; [|discriminate].
      eapply _central_difference_integration_keeps in Hint
        as (U & V & A & Hh' & LU & LV & LA & EU & EV & EA);
        [ | lia | lia | lia | unfold uh; lia | unfold uh; lia | unfold uh; lia
          | exact Hhist ].
      rewrite !length_insert in LU, LV, LA.
      rewrite list_lookup_insert_eq in EU, EV, EA by exact L0.
      exists u0, U, V, A. auto 12. }
  destruct Hkeep as (u0 & U & V & A & -> & (HU & HV & HA & _) & LU & LV & LA &
                     EU & EV & EA & Hmeth).
  apply bind_inv in H as (mu & w0 & Hm1 & H). apply max_abs_history_inv in Hm1 as ->.
  apply bind_inv in H as (mv & w0 & Hm2 & H). apply max_abs_history_inv in Hm2 as ->.
  apply bind_inv in H as (ma & w0 & Hm3 & H). apply max_abs_history_inv in Hm3 as ->.
  apply bind_inv in H as (U' & w0 & HU' & H). apply read_ndarray2_inv in HU' as [HU' ->].
  apply bind_inv in H as (V' & w0 & HV' & H). apply read_ndarray2_inv in HV' as [HV' ->].
  apply bind_inv in H as (A' & w0 & HA' & H). apply read_ndarray2_inv in HA' as [HA' ->].
  inv_lift H tv Htv. apply mret_inv in H as [H _]. injection H as <-.
  assert (U' = U) by congruence. assert (V' = V) by congruence.
  assert (A' = A) by congruence. subst U' V' A'.
  unfold rows0 in LU, LV, LA. rewrite length_replicate in LU, LV, LA.
  unfold dynamic_postcondition. cbv zeta. rewrite Hwc.
  assert (HMc : mass_of wc = M) by (unfold mass_of; now rewrite HlM, HM).
  assert (HKc : stiffness_of wc = K) by (unfold stiffness_of; now rewrite HlK, HK).
  rewrite HMc, HKc. fold N in HN. rewrite <- HN.
  exists q, n_steps, C, a_init, ra. simpl.
  split; [exact Hq|]. split; [exact Hn|]. split; [exact Hpos|]. split; [exact HC|].
  split; [exists Cv, r1, Ku, r2; auto|].
  repeat (split; [assumption|]). split; reflexivity.
Qed.

(** What a successful [solve_dynamic_response] has checked on its way to
    the initial acceleration: the first row of the load history goes with a
    vector of [total_dofs] entries. *)
Lemma solve_dynamic_response_first_row (th : nat) (options : DynamicOptions.t F)
    (w w' : World (F := F)) (r : DynamicResult.t F) (Fh : list (list F)) :
  heap w !! th = Some (ONdarray2 Fh) ->
  solve_dynamic_response th options w = (Val (Success r), w') ->
  forall F0, Fh !! 0 = Some F0 ->
    length F0 = count_true (all_slots (nodes (fem w))) \/ length F0 = 1 \/
    count_true (all_slots (nodes (fem w))) = 1.
Proof.
  intros Hth H F0 HF0.
  destruct (solve_dynamic_response_inv th options w w' r Fh Hth H)
    as (q & n & Cm & a & ra & _ & _ & _ & HC & (Cv & r1 & Ku & r2 & HCv & Hr1 & _) & _).
  unfold first_load in Hr1. rewrite HF0 in Hr1. simpl in Hr1.
  apply csr_matvec_length in HCv as [HCv HCz].
  unfold np_zeros in HCz. rewrite length_replicate in HCz.
  unfold rayleigh in HC. apply csr_add_shape in HC. simpl in HC.
  apply np_sub_lengths in Hr1.
  (* the mass matrix is square: the assembly has returned *)
  unfold solve_dynamic_response in H.
  apply try_except_inv_success with (h := Str) in H.
  apply bind_inv in H as ([] & wa & H1 & H).
  apply bind_inv in H as ([] & wb & H2 & H).
  apply bind_inv in H as ([] & wc & H3 & _).
  pose proof (_assemble_global_mass_spec _ _ H3) as (HMs & _).
  assert (Hwc : snd ((_setup_dof_mapping ;; _assemble_global_stiffness ;;
                      _assemble_global_mass) w) = wc).
  { cbv [mbind py_bind]. rewrite H1, H2, H3. reflexivity. }
  rewrite Hwc in HC. rewrite HMs in HC.
  rewrite HC in HCv, HCz. simpl in HCv, HCz. lia.
Qed.

(** [solve_dynamic_response] never raises. *)
Lemma solve_dynamic_response_returns (th : nat) (options : DynamicOptions.t F)
    (w : World (F := F)) :
  exists outcome w', solve_dynamic_response th options w = (Val outcome, w').
Proof.
  unfold solve_dynamic_response. apply try_except_returns.
  intros e w1. eexists _, _. reflexivity.
Qed.

(** On success, [solve_dynamic_response] returns three histories of
    int(total_time / time_step) + 1 rows; rows 0 hold the zero initial
    displacement and velocity of [total_dofs] entries and the initial
    acceleration spsolve(M, F0 - C 0 - K 0), with the assembled M and K, the
    Rayleigh matrix C and the first row F0 of the load history; the method is
    one of the two integrators; the time vector is what [np.linspace] gives. *)
Theorem solve_dynamic_response_initial_conditions (th : nat)
    (options : DynamicOptions.t F) (w w' : World (F := F)) (r : DynamicResult.t F)
    (Fh : list (list F)) :
  heap w !! th = Some (ONdarray2 Fh) ->
  solve_dynamic_response th options w = (Val (Success r), w') ->
  dynamic_postcondition w Fh options r.
Proof. apply solve_dynamic_response_inv. Qed.

(** A load history whose rows do not fit the model is rejected: when its
    first row has neither [total_dofs] entries nor one entry, and the model
    does not have exactly one DOF, [solve_dynamic_response] returns a failure
    dict. *)
Theorem solve_dynamic_response_rejects_misshaped_loads (th : nat)
    (options : DynamicOptions.t F) (w : World (F := F)) (Fh : list (list F))
    (F0 : list F) :
  heap w !! th = Some (ONdarray2 Fh) -> Fh !! 0 = Some F0 ->
  length F0 <> count_true (all_slots (nodes (fem w))) ->
  length F0 <> 1 ->
  count_true (all_slots (nodes (fem w))) <> 1 ->
  exists error w', solve_dynamic_response th options w = (Val (Failure error), w').
Proof.
  intros Hth HF0 H1 H2 H3.
  destruct (solve_dynamic_response_returns th options w) as ([r|error] & w' & H);
    [|eauto].
  exfalso.
  destruct (solve_dynamic_response_first_row th options w w' r Fh Hth H F0 HF0)
    as [E|[E|E]]; contradiction.
Qed.

End DynamicResponse.


(* ------------------------------------------------------------------ *)
(** ** The dynamic endpoint *)

Section DynamicEndpoint.
Context {F : Type} {SF : Scalar F} {SP : Scipy F} {BI : Builtins F}.

(** Building the model numbers no DOF and creates no array. *)
Lemma dofs_untouched_preorder :
  PreOrder (fun w w' : World (F := F) =>
              total_dofs (fem w') = total_dofs (fem w) /\ heap w' = heap w).
Proof.
  split.
  - intros w. auto.
  - intros a b c [H1 H2] [H3 H4]. split; congruence.
Qed.
#[local] Existing Instance dofs_untouched_preorder.

Lemma build_model_dofs_untouched (model : StructuralModel.t F) :
  preserves (fun w w' : World (F := F) =>
               total_dofs (fem w') = total_dofs (fem w) /\ heap w' = heap w)
            (build_model model).
Proof.
  unfold build_model, add_node, add_material, add_section, add_element, add_load,
    add_constraint.
  preserves_auto.
  all: intros w; split; reflexivity.
Qed.

(** [run_dynamic_analysis] builds its load history before any DOF is
    numbered: the history has no column. *)
Lemma run_dynamic_analysis_inv (model : StructuralModel.t F)
    (request_options : DynamicRequest.t F) (r : DynamicResult.t F) (w' : World (F := F)) :
  run_dynamic_analysis model request_options fresh = (Val (Success r), w') ->
  exists w1 q n_steps options,
    build_model model fresh = (Val tt, w1) /\
    py_div (DynamicOptions.total_time options) (DynamicOptions.time_step options) = Val q /\
    py_int q = Val n_steps /\
    solve_dynamic_response 0 options
      (mk_world (fem w1) (convergence_history w1) (load_displacement_curve w1)
                [ONdarray2 (replicate (Z.to_nat (n_steps + 1)) [])])
    = (Val (Success r), w').
Proof.
  intros H. unfold run_dynamic_analysis in H.
  apply bind_inv in H as ([] & w1 & Hb & H).
  pose proof (build_model_dofs_untouched model fresh) as [Ht Hh].
  rewrite Hb in Ht, Hh. simpl in Ht, Hh.
  inv_lift H q Hq. inv_lift H n_steps Hn.
  apply bind_inv in H as (e & w0 & He & H). inversion He; subst e w0. clear He.
  inv_lift H zeros2 Hz.
  rewrite Ht in Hz. unfold np_zeros2_int in Hz.
  destruct ((n_steps + 1 <? 0)%Z || (0 <? 0)%Z); [discriminate|].
  inversion Hz; subst zeros2. clear Hz.
  apply bind_inv in H as (th & w2 & Hal & H). unfold alloc in Hal.
  inversion Hal; subst th w2. clear Hal. rewrite Hh in H. simpl in H.
  apply bind_inv in H as ([] & w3 & Hharm & H).
  assert (E3 : w3 = mk_world (fem w1) (convergence_history w1) (load_displacement_curve w1)
                 [ONdarray2 (replicate (Z.to_nat (n_steps + 1)) [])]).
  { destruct (DynamicRequest.frequency request_options).
    - inv_lift Hharm tv Htv. rewrite Ht in Hharm. simpl in Hharm.
      apply mret_inv in Hharm as [_ E]. exact E.
    - apply mret_inv in Hharm as [_ E]. exact E. }
  subst w3. eexists w1, q, n_steps, _. split; [exact Hb|]. split; [exact Hq|].
  split; [exact Hn|]. exact H.
Qed.

(** The dynamic endpoint cannot succeed on a model with two or more DOFs:
    its load history is shaped with the DOF count of the engine before any
    numbering, which is 0, so [solve_dynamic_response] meets rows without
    entries and returns a failure dict (or the request fails earlier with an
    exception). *)
Theorem run_dynamic_analysis_never_succeeds (model : StructuralModel.t F)
    (request_options : DynamicRequest.t F) :
  2 <= count_true (all_slots (nodes (fem (snd (build_model model fresh))))) ->
  exists w',
    (exists e, run_dynamic_analysis model request_options fresh = (Exc e, w')) \/
    (exists error,
       run_dynamic_analysis model request_options fresh = (Val (Failure error), w')).
Proof.
  intros HN.
  destruct (run_dynamic_analysis model request_options fresh) as [[[r|error]|e] w'] eqn:H;
    [exfalso | eauto | eauto].
  apply run_dynamic_analysis_inv in H as (w1 & q & n_steps & options & Hb & Hq & Hn & H).
  rewrite Hb in HN. simpl in HN.
  set (Fh := replicate (Z.to_nat (n_steps + 1)) ([] : list F)) in *.
  set (w2 := mk_world (fem w1) (convergence_history w1) (load_displacement_curve w1)
               [ONdarray2 Fh]) in *.
  assert (Hth : heap w2 !! 0 = Some (ONdarray2 Fh)) by reflexivity.
  destruct (Fh !! 0) as [F0|] eqn:E0.
  - assert (F0 = []) by (apply lookup_replicate in E0 as [-> _]; reflexivity). subst F0.
    destruct (solve_dynamic_response_first_row 0 options w2 w' r Fh Hth H [] E0)
      as [E|[E|E]]; simpl in E; unfold w2 in E; simpl in E; lia.
  - (* an empty history: the solver has no row 0 either *)
    destruct (solve_dynamic_response_inv 0 options w2 w' r Fh Hth H)
      as (q' & n' & _ & _ & _ & Hq' & Hn' & Hpos & _).
    assert (q' = q) by congruence. subst q'.
    assert (n' = n_steps) by congruence. subst n'.
    apply lookup_ge_None in E0. unfold Fh in E0. rewrite length_replicate in E0. lia.
Qed.

End DynamicEndpoint.

(** The theorem on a run of two Newmark steps of the free truss bar. *)
Lemma solve_dynamic_response_witness :
  exists r,
    fst (solve_dynamic_response (SP := gauss_backend) (BI := example_builtins)
           0 (two_steps "newmark") dynamic_world) = Val (Success r) /\
    dynamic_postcondition (SP := gauss_backend) (BI := example_builtins) dynamic_world
      [np_zeros 6; [0; 0; 0; 1e5; 0; 0]; [0; 0; 0; 1e5; 0; 0]]%float
      (two_steps "newmark") r.
Proof.
  eexists. split; [vm_compute; reflexivity|].
  apply (solve_dynamic_response_initial_conditions
           (SP := gauss_backend) (BI := example_builtins)
           0 (two_steps "newmark") dynamic_world
           (snd (solve_dynamic_response (SP := gauss_backend) (BI := example_builtins)
                   0 (two_steps "newmark") dynamic_world))).
  - reflexivity.
  - apply pair_of_fst. vm_compute. reflexivity.
Defined.

(** The run of the witness: three rows per history, three instants. *)
Example dynamic_run :
  match fst (solve_dynamic_response (SP := gauss_backend) (BI := example_builtins)
               0 (two_steps "newmark") dynamic_world) with
  | Val (Success r) =>
      length (DynamicResult.displacement_history r) = 3 /\
      DynamicResult.time_vector r = [0; 0.01; 0.02]%float /\
      PrimFloat.ltb 0 (DynamicResult.max_displacement r) = true
  | _ => False
  end.
Proof. vm_compute. repeat split; reflexivity. Qed.

(** The theorem on a load history of three columns for six DOFs. *)
Lemma solve_dynamic_response_rejects_witness :
  exists error w',
    solve_dynamic_response (SP := gauss_backend) (BI := example_builtins)
      0 (two_steps "newmark") misshaped_world = (Val (Failure error), w').
Proof.
  apply (solve_dynamic_response_rejects_misshaped_loads
           (SP := gauss_backend) (BI := example_builtins)
           0 (two_steps "newmark") misshaped_world
           [[0; 0; 0]; [1e5; 0; 0]]%float [0; 0; 0]%float);
    first [reflexivity | vm_compute; lia].
Defined.

(** The theorem on a request for the bar (twelve DOFs) with a harmonic load. *)
Lemma run_dynamic_analysis_witness :
  exists w',
    (exists e, run_dynamic_analysis (SP := gauss_backend) (BI := example_builtins)
                 bar_request harmonic_request fresh = (Exc e, w')) \/
    (exists error,
       run_dynamic_analysis (SP := gauss_backend) (BI := example_builtins)
         bar_request harmonic_request fresh = (Val (Failure error), w')).
Proof.
  apply (run_dynamic_analysis_never_succeeds (SP := gauss_backend) (BI := example_builtins)
           bar_request harmonic_request).
  vm_compute. lia.
Defined.

(** What the endpoint returns for it: the broadcasting error of numpy. *)
Example bar_request_dynamic_response :
  fst (run_dynamic_analysis (SP := gauss_backend) (BI := example_builtins)
         bar_request harmonic_request fresh)
  = Val (Failure (Str (ValueError "operands could not be broadcast together"))).
Proof. vm_compute. reflexivity. Qed.


(* ------------------------------------------------------------------ *)
(** ** A validated request *)

Section ValidatedModel.
Context {F : Type} {SF : Scalar F}.

Lemma dict_get_set_is_Some {V} (k k' : Z) (v : V) (d : dict V) :
  is_Some (dict_get k d) -> is_Some (dict_get k (dict_set k' v d)).
Proof.
  intros H. destruct (Z.eq_dec k k') as [->|Hne].
  - rewrite dict_get_set_eq. eauto.
  - now rewrite dict_get_set_ne.
Qed.

Lemma dict_values_set {V} (k : Z) (v x : V) (d : dict V) :
  x ∈ dict_values (dict_set k v d) -> x = v \/ x ∈ dict_values d.
Proof.
  unfold dict_values. induction d as [|[k' v'] d IH]; simpl.
  - intros H. apply list_elem_of_singleton in H. auto.
  - destruct (Z.eqb k k'); simpl; intros H; apply elem_of_cons in H as [H|H]; auto.
    + right. now apply elem_of_cons; right.
    + right. now apply elem_of_cons; left.
    + destruct (IH H) as [E|E]; auto. right. now apply elem_of_cons; right.
Qed.

(** A loop of model-store insertions. *)
Lemma for_each_modify_fem {A} (g : A -> FEMEngine (F := F) -> FEMEngine) (l : list A)
    (w : World (F := F)) :
  for_each l (fun x => modify_fem (g x)) w
  = (Val tt, mk_world (fold_left (fun e x => g x e) l (fem w)) (convergence_history w)
                      (load_displacement_curve w) (heap w)).
Proof.
  revert w. induction l as [|x l IH]; intros w.
  - destruct w. reflexivity.
  - simpl. unfold mbind, py_bind, modify_fem at 1. rewrite IH. reflexivity.
Qed.

Lemma fold_left_keeps {A B C} (g : A -> B -> B) (p : B -> C) (l : list A) (b : B) :
  (forall x b, p (g x b) = p b) -> p (fold_left (fun b x => g x b) l b) = p b.
Proof.
  intros H. revert b. induction l as [|x l IH]; intros b; simpl; [reflexivity|].
  now rewrite IH.
Qed.

(** After a loop of insertions every inserted key is present, and every
    key that was present still is. *)
Lemma fold_left_inserts {A V} (key : A -> Z) (val : A -> V) (l : list A) (d : dict V) (k : Z) :
  k ∈ map key l \/ is_Some (dict_get k d) ->
  is_Some (dict_get k (fold_left (fun d x => dict_set (key x) (val x) d) l d)).
Proof.
  revert d. induction l as [|x l IH]; intros d H; simpl.
  - destruct H as [H|H]; [inversion H | exact H].
  - apply IH. destruct H as [H|H].
    + simpl in H. apply elem_of_cons in H as [->|H]; [|now left].
      right. rewrite dict_get_set_eq. eauto.
    + right. now apply dict_get_set_is_Some.
Qed.

Lemma add_nodes_run (l : list (Node.t F)) (w : World (F := F)) :
  exists w', for_each l add_node w = (Val tt, w') /\ heap w' = heap w /\
    nodes (fem w') = fold_left (fun d x => dict_set (Node.id x) x d) l (nodes (fem w)) /\
    materials (fem w') = materials (fem w) /\ elements (fem w') = elements (fem w).
Proof.
  eexists. split; [apply for_each_modify_fem|]. simpl. split; [reflexivity|]. split; [|split].
  - generalize (fem w). induction l as [|x l IH]; intros e; simpl; [reflexivity|].
    now rewrite IH.
  - now apply (fold_left_keeps _ materials).
  - now apply (fold_left_keeps _ elements).
Qed.

Lemma add_materials_run (l : list (Material.t F)) (w : World (F := F)) :
  exists w', for_each l add_material w = (Val tt, w') /\ heap w' = heap w /\
    nodes (fem w') = nodes (fem w) /\
    materials (fem w')
    = fold_left (fun d x => dict_set (Material.id x) x d) l (materials (fem w)) /\
    elements (fem w') = elements (fem w).
Proof.
  eexists. split; [apply for_each_modify_fem|]. simpl. split; [reflexivity|]. split; [|split].
  - now apply (fold_left_keeps _ nodes).
  - generalize (fem w). induction l as [|x l IH]; intros e; simpl; [reflexivity|].
    now rewrite IH.
  - now apply (fold_left_keeps _ elements).
Qed.

Lemma add_sections_run {A} (conv : A -> CrossSection.t F) (l : list A) (w : World (F := F)) :
  exists w', for_each l (fun s => add_section (conv s)) w = (Val tt, w') /\
    heap w' = heap w /\ nodes (fem w') = nodes (fem w) /\
    materials (fem w') = materials (fem w) /\ elements (fem w') = elements (fem w).
Proof.
  eexists. split; [apply (for_each_modify_fem (fun s e => _))|]. simpl.
  split; [reflexivity|]. split; [|split].
  - now apply (fold_left_keeps _ nodes).
  - now apply (fold_left_keeps _ materials).
  - now apply (fold_left_keeps _ elements).
Qed.

Lemma add_loads_run (l : list (Load.t F)) (w : World (F := F)) :
  exists w', for_each l add_load w = (Val tt, w') /\ heap w' = heap w /\
    nodes (fem w') = nodes (fem w) /\
    materials (fem w') = materials (fem w) /\ elements (fem w') = elements (fem w).
Proof.
  eexists. split; [apply for_each_modify_fem|]. simpl. split; [reflexivity|]. split; [|split].
  - now apply (fold_left_keeps _ nodes).
  - now apply (fold_left_keeps _ materials).
  - now apply (fold_left_keeps _ elements).
Qed.

Lemma add_constraints_run (l : list (Constraint.t F)) (w : World (F := F)) :
  exists w', for_each l add_constraint w = (Val tt, w') /\ heap w' = heap w /\
    nodes (fem w') = nodes (fem w) /\
    materials (fem w') = materials (fem w) /\ elements (fem w') = elements (fem w).
Proof.
  eexists. split; [apply for_each_modify_fem|]. simpl. split; [reflexivity|]. split; [|split].
  - now apply (fold_left_keeps _ nodes).
  - now apply (fold_left_keeps _ materials).
  - now apply (fold_left_keeps _ elements).
Qed.

(** The element loop of [build_model]: every stored element is an old one
    or comes from a request element, with its nodes and material id. *)
Lemma add_elements_inv (els : list ElementModel.t) (w w' : World (F := F)) :
  for_each els (fun el =>
    type ← lift (ElementType_of_value (ElementModel.type el));
    add_element (Element.mk (ElementModel.id el) type (ElementModel.nodes el)
                   (ElementModel.material_id el) (ElementModel.section_id el) None))
    w = (Val tt, w') ->
  heap w' = heap w /\ nodes (fem w') = nodes (fem w) /\
  materials (fem w') = materials (fem w) /\
  forall x, x ∈ dict_values (elements (fem w')) ->
    x ∈ dict_values (elements (fem w)) \/
    exists el, el ∈ els /\ Element.nodes x = ElementModel.nodes el /\
               Element.material_id x = ElementModel.material_id el /\
               Element.section_id x = ElementModel.section_id el /\
               ElementType_of_value (ElementModel.type el) = Val (Element.type x).
Proof.
  revert w. induction els as [|el els IH]; intros w H.
  - apply mret_inv in H as [_ ->]. auto.
  - simpl in H. apply bind_inv in H as ([] & w1 & Hstep & Hrest).
    apply bind_inv in Hstep as (type & w0 & Ht & Hstep). apply lift_inv in Ht as [Ht ->].
    unfold add_element, modify_fem in Hstep. inversion Hstep; subst w1. clear Hstep.
    destruct (IH _ Hrest) as (Hh & Hn & Hm & Hel). simpl in *.
    split; [exact Hh|]. split; [exact Hn|]. split; [exact Hm|].
    intros x Hx. destruct (Hel x Hx) as [Hold|(el' & Hin & H1 & H2 & H3 & H4)].
    + apply dict_values_set in Hold as [->|Hold]; [|now left].
      right. exists el. split; [now apply elem_of_cons; left|]. auto.
    + right. exists el'. split; [now apply elem_of_cons; right|]. auto.
Qed.

(** What a model without validation errors looks like. *)
Lemma validate_model_valid (model : StructuralModel.t F) :
  ValidationReport.valid (validate_model model) = true ->
  2 <= length (StructuralModel.nodes model) /\
  1 <= length (StructuralModel.elements model) /\
  1 <= length (StructuralModel.materials model) /\
  forall el, el ∈ StructuralModel.elements model ->
    (forall node_id, node_id ∈ ElementModel.nodes el ->
                     node_id ∈ map Node.id (StructuralModel.nodes model)) /\
    ElementModel.material_id el ∈ map Material.id (StructuralModel.materials model).
Proof.
  unfold validate_model. simpl. intros H. apply Nat.eqb_eq in H.
  apply length_zero_iff_nil in H.
  apply app_eq_nil in H as [H1 H]. apply app_eq_nil in H as [H2 H].
  apply app_eq_nil in H as [H3 H]. apply app_eq_nil in H as [H4 H5].
  split; [|split; [|split]].
  - destruct (Nat.ltb_spec (length (StructuralModel.nodes model)) 2); [discriminate | lia].
  - destruct (Nat.ltb_spec (length (StructuralModel.elements model)) 1); [discriminate | lia].
  - destruct (Nat.ltb_spec (length (StructuralModel.materials model)) 1); [discriminate | lia].
  - intros el Hel. split.
    + intros node_id Hn.
      destruct (decide (node_id ∈ map Node.id (StructuralModel.nodes model))) as [Hin|Hnot];
        [exact Hin|exfalso].
      assert (Hbad : MissingNode (ElementModel.id el) node_id ∈ ([] : list ValidationError)).
      { rewrite <- H4. apply list_elem_of_In, in_flat_map. exists el.
        split; [now apply list_elem_of_In|]. apply in_flat_map. exists node_id.
        split; [now apply list_elem_of_In|].
        rewrite bool_decide_eq_false_2 by exact Hnot. now left. }
      inversion Hbad.
    + destruct (decide (ElementModel.material_id el
                        ∈ map Material.id (StructuralModel.materials model))) as [Hin|Hnot];
        [exact Hin|exfalso].
      assert (Hbad : MissingMaterial (ElementModel.id el) (ElementModel.material_id el)
                     ∈ ([] : list ValidationError)).
      { rewrite <- H5. apply list_elem_of_In, in_flat_map. exists el.
        split; [now apply list_elem_of_In|].
        rewrite bool_decide_eq_false_2 by exact Hnot. now left. }
      inversion Hbad.
Qed.

(** A model that [validate_model] accepts and [build_model] builds on a new
    engine has no dangling node or material reference: for every stored
    element the material lookup and the lookup of each of its nodes succeed.
    (Sections and the number of nodes per element are not validated.) *)
Theorem validated_model_resolves_nodes_and_materials (model : StructuralModel.t F)
    (w' : World (F := F)) :
  ValidationReport.valid (validate_model model) = true ->
  build_model model fresh = (Val tt, w') ->
  forall el, el ∈ dict_values (elements (fem w')) ->
    is_Some (dict_get (Element.material_id el) (materials (fem w'))) /\
    forall node_id, node_id ∈ Element.nodes el ->
                    is_Some (dict_get node_id (nodes (fem w'))).
Proof.
  intros Hvalid H. apply validate_model_valid in Hvalid as (_ & _ & _ & Hrefs).
  unfold build_model in H.
  destruct (add_nodes_run (StructuralModel.nodes model) fresh)
    as (w1 & R1 & _ & N1 & M1 & E1).
  apply bind_inv in H as ([] & w1' & H1 & H). rewrite R1 in H1. inversion H1; subst w1'.
  destruct (add_materials_run (StructuralModel.materials model) w1)
    as (w2 & R2 & _ & N2 & M2 & E2).
  apply bind_inv in H as ([] & w2' & H2 & H). rewrite R2 in H2. inversion H2; subst w2'.
  apply bind_inv in H as ([] & w3 & H3 & H).
  destruct (add_sections_run
              (fun s => CrossSection.mk (SectionModel.id s) (SectionModel.name s)
                 (SectionModel.A s) (SectionModel.Ix s) (SectionModel.Iy s)
                 (SectionModel.Iz s) (SectionModel.J s) None None)
              (StructuralModel.sections model) w2) as (w3' & R3 & _ & N3 & M3 & E3).
  rewrite R3 in H3. inversion H3; subst w3'.
  apply bind_inv in H as ([] & w4 & H4 & H).
  apply add_elements_inv in H4 as (_ & N4 & M4 & E4).
  apply bind_inv in H as ([] & w5 & H5 & H).
  destruct (add_loads_run (StructuralModel.loads model) w4) as (w5' & R5 & _ & N5 & M5 & E5).
  rewrite R5 in H5. inversion H5; subst w5'.
  destruct (add_constraints_run (StructuralModel.constraints model) w5)
    as (w6 & R6 & _ & N6 & M6 & E6).
  rewrite R6 in H. inversion H; subst w6.
  intros el Hel. rewrite E6, E5 in Hel.
  destruct (E4 el Hel) as [Hold|(em & Hin & Hn & Hm & _)].
  { rewrite E3, E2, E1 in Hold. inversion Hold. }
  destruct (Hrefs em Hin) as [Hnodes Hmat]. split.
  - rewrite M6, M5, M4, M3, M2, Hm. apply fold_left_inserts. now left.
  - intros node_id Hnid. rewrite N6, N5, N4, N3, N2, N1.
    apply fold_left_inserts. left. apply Hnodes. now rewrite <- Hn.
Qed.

End ValidatedModel.

(** The theorem on the request for the bar. *)
Lemma validated_model_witness :
  ValidationReport.valid (validate_model bar_request) = true /\
  forall el, el ∈ dict_values (elements (fem (snd (build_model bar_request fresh)))) ->
    is_Some (dict_get (Element.material_id el)
               (materials (fem (snd (build_model bar_request fresh))))) /\
    forall node_id, node_id ∈ Element.nodes el ->
      is_Some (dict_get node_id (nodes (fem (snd (build_model bar_request fresh))))).
Proof.
  split; [vm_compute; reflexivity|].
  apply (validated_model_resolves_nodes_and_materials bar_request).
  - vm_compute. reflexivity.
  - apply pair_of_fst. vm_compute. reflexivity.
Defined.

(** What [validate_model] reports on a request with one node, no material
    and an element that names a missing node. *)
Example validate_model_report :
  let report :=
    validate_model (F := float)
      (StructuralModel.mk [node 0 0 0 0]%float [] []
         [ElementModel.mk 1 "truss" [0; 5]%Z 3 None] [] []) in
  ValidationReport.valid report = false /\
  ValidationReport.errors report
  = [TooFewNodes; NoMaterial; MissingNode 1 5; MissingMaterial 1 3] /\
  ValidationReport.warnings report = [NoBoundaryConditions; NoLoads].
Proof. vm_compute. repeat split; reflexivity. Qed.


(* ------------------------------------------------------------------ *)
(** ** Element stiffness kernels *)

Lemma Val_inj {A} (a b : A) : Val a = Val b -> a = b.
Proof. intros E. now injection E. Qed.

Section TrussKernel.

Open Scope R_scope.

Lemma element_length_exact (node1 node2 : Node.t R) (L : R) :
  element_length node1 node2 = Val L -> L = bar_length node1 node2.
Proof.
  unfold element_length. intros H.
  apply res_bind_inv in H as (dx2 & H1 & H). apply py_pow2_inv in H1. subst dx2.
  apply res_bind_inv in H as (dy2 & H2 & H). apply py_pow2_inv in H2. subst dy2.
  apply res_bind_inv in H as (dz2 & H3 & H). apply py_pow2_inv in H3. subst dz2.
  inversion H. reflexivity.
Qed.


End TrussKernel.


Section BeamKernel.

Open Scope R_scope.

Ltac entries tac :=
  repeat match goal with
         | |- _ :: _ = _ :: _ => f_equal
         | |- @eq R _ _ => tac
         end.

(** What [_beam_stiffness] reads, and the matrix it returns, in exact
    arithmetic. *)
Lemma _beam_stiffness_inv (element : Element.t R) (w w' : World (F := R))
    (k_global : matrix R) (dofs : list Z) :
  _beam_stiffness element w = (Val (k_global, dofs), w') ->
  exists n1 n2 node1 node2 mat0 sec0,
    Element.nodes element !! 0%nat = Some n1 /\ dict_get n1 (nodes (fem w)) = Some node1 /\
    Element.nodes element !! 1%nat = Some n2 /\ dict_get n2 (nodes (fem w)) = Some node2 /\
    dict_get (Element.material_id element) (materials (fem w)) = Some mat0 /\
    dict_get_opt (Element.section_id element) (sections (fem w)) = Some sec0 /\
    k_global = beam_matrix (Material.E mat0)
                 (Material.E mat0 / (2 * (1 + Material.nu mat0)))
                 (CrossSection.A sec0) (CrossSection.Iy sec0) (CrossSection.Iz sec0)
                 (CrossSection.J sec0) (bar_length node1 node2) /\
    gather_dofs (Element.nodes element) (dof_map (fem w)) = Val dofs /\
    w' = w.
Proof.
  intros H. unfold _beam_stiffness in H.
  apply bind_inv in H as (e & wa & He & H). inversion He; subst e wa. clear He.
  inv_lift H n1 Hn1. inv_lift H node1 Hnode1. inv_lift H n2 Hn2. inv_lift H node2 Hnode2.
  inv_lift H mat0 Hmat. inv_lift H sec0 Hsec. inv_lift H L HL. inv_lift H G HG.
  inv_lift H dofs' Hd. apply mret_inv in H as [H ->].
  apply pair_equal_spec in H as [Hk <-].
  apply element_length_exact in HL. apply py_div_inv in HG.
  exists n1, n2, node1, node2, mat0, sec0.
  unfold list_getitem in Hn1, Hn2.
  destruct (Element.nodes element !! 0%nat) as [a|]; [|discriminate].
  destruct (Element.nodes element !! 1%nat) as [b|]; [|discriminate].
  apply Val_inj in Hn1, Hn2. subst a b.
  unfold dict_getitem in Hnode1, Hnode2, Hmat.
  destruct (dict_get n1 (nodes (fem w))) as [x1|]; [|discriminate].
  destruct (dict_get n2 (nodes (fem w))) as [x2|]; [|discriminate].
  destruct (dict_get (Element.material_id element) (materials (fem w))) as [m|];
    [|discriminate].
  apply Val_inj in Hnode1, Hnode2, Hmat. subst x1 x2 m.
  assert (G4 : dict_get_opt (Element.section_id element) (sections (fem w)) = Some sec0).
  { unfold dict_getitem_opt, dict_get_opt, dict_getitem in Hsec |- *.
    destruct (Element.section_id element) as [sid|]; [|discriminate].
    destruct (dict_get sid (sections (fem w))); [|discriminate].
    apply Val_inj in Hsec. now subst. }
  do 5 (split; [reflexivity|]). split; [exact G4|].
  split; [|split; [exact Hd | reflexivity]].
  rewrite <- Hk. clear Hk. subst L G. unfold beam_matrix.
  generalize (bar_length node1 node2) as L. intros L.
  generalize (Material.E mat0) as E, (Material.nu mat0) as nu, (CrossSection.A sec0) as A,
    (CrossSection.Iy sec0) as Iy, (CrossSection.Iz sec0) as Iz, (CrossSection.J sec0) as J.
  intros E nu A Iy Iz J. clear.
  cbv -[Rplus Rminus Rmult Rdiv Ropp Rinv IZR].
  entries ltac:(unfold Rdiv; ring).
Qed.

Lemma beam_matrix_symmetric (E G A Iy Iz J L : R) :
  symmetric (beam_matrix E G A Iy Iz J L).
Proof.
  unfold beam_matrix.
  generalize (E * A / L) as ax, (E * Iy / (L * L * L)) as by3, (E * Iy / (L * L)) as by2,
    (E * Iy / L) as by1, (E * Iz / (L * L * L)) as bz3, (E * Iz / (L * L)) as bz2,
    (E * Iz / L) as bz1, (G * J / L) as t.
  intros ax by3 by2 by1 bz3 bz2 bz1 t i j. cbv zeta.
  do 12 (destruct i as [|i]; [do 12 (destruct j as [|j]; [reflexivity|]); reflexivity|]).
  do 12 (destruct j as [|j]; [reflexivity|]). reflexivity.
Qed.

Lemma beam_matrix_rigid_motion (E G A Iy Iz J L tx ty tz rx ry rz : R) :
  L <> 0 ->
  mat_matvec (beam_matrix E G A Iy Iz J L) (rigid_motion L tx ty tz rx ry rz)
  = Val (replicate 12 0).
Proof.
  intros HL. unfold mat_matvec, beam_matrix, rigid_motion.
  cbv -[Rplus Rminus Rmult Rdiv Ropp Rinv IZR].
  f_equal. entries ltac:(field; exact HL).
Qed.

(** In exact arithmetic the 12 x 12 matrix [_beam_stiffness] returns is
    symmetric, and on a bar of non-zero length it gives no force for the six
    rigid motions of the bar along x: the three translations, the twist,
    and the two rotations in the sense the code's signs fix, the far node
    moving by [- rz L] along y and by [+ ry L] along z. *)
Theorem _beam_stiffness_symmetric_and_rigid_motion_free
    (element : Element.t R) (w w' : World (F := R))
    (k_global : matrix R) (dofs : list Z) :
  _beam_stiffness element w = (Val (k_global, dofs), w') ->
  exists n1 n2 node1 node2,
    Element.nodes element !! 0%nat = Some n1 /\ dict_get n1 (nodes (fem w)) = Some node1 /\
    Element.nodes element !! 1%nat = Some n2 /\ dict_get n2 (nodes (fem w)) = Some node2 /\
    symmetric k_global /\
    (bar_length node1 node2 <> 0 ->
     forall tx ty tz rx ry rz,
       mat_matvec k_global (rigid_motion (bar_length node1 node2) tx ty tz rx ry rz)
       = Val (replicate 12 0)).
Proof.
  intros H. apply _beam_stiffness_inv in H
    as (n1 & n2 & node1 & node2 & mat0 & sec0 & H1 & H2 & H3 & H4 & _ & _ & -> & _ & _).
  exists n1, n2, node1, node2. do 4 (split; [assumption|]). split.
  - apply beam_matrix_symmetric.
  - intros HL tx ty tz rx ry rz. now apply beam_matrix_rigid_motion.
Qed.

End BeamKernel.

Section BeamRuns.

Open Scope R_scope.

(** With its two nodes, its material and its section in the model, the end
    nodes numbered and nu other than -1, [_beam_stiffness] returns. *)
Lemma _beam_stiffness_runs (element : Element.t R) (w : World (F := R))
    (n1 n2 : Z) (node1 node2 : Node.t R) (mat0 : Material.t R) (sec0 : CrossSection.t R)
    (dofs : list Z) :
  Element.nodes element !! 0%nat = Some n1 -> dict_get n1 (nodes (fem w)) = Some node1 ->
  Element.nodes element !! 1%nat = Some n2 -> dict_get n2 (nodes (fem w)) = Some node2 ->
  dict_get (Element.material_id element) (materials (fem w)) = Some mat0 ->
  dict_get_opt (Element.section_id element) (sections (fem w)) = Some sec0 ->
  1 + Material.nu mat0 <> 0 ->
  gather_dofs (Element.nodes element) (dof_map (fem w)) = Val dofs ->
  exists k_global, _beam_stiffness element w = (Val (k_global, dofs), w).
Proof.
  intros H1 H2 H3 H4 H5 H6 Hnu Hd.
  assert (H6' : dict_getitem_opt (Element.section_id element) (sections (fem w)) = Val sec0).
  { unfold dict_getitem_opt, dict_get_opt, dict_getitem in *.
    destruct (Element.section_id element); [|discriminate]. now rewrite H6. }
  assert (HG : Material_G mat0
               = Val (Material.E mat0 / (2 * (1 + Material.nu mat0)))).
  { unfold Material_G, py_div. cbn [feqb fmul fadd fofZ fdiv R_scalar]. unfold R_eqb, f0.
    cbn [fofZ R_scalar].
    destruct (Req_dec_T (2 * (1 + Material.nu mat0)) 0) as [E|_]; [lra | reflexivity]. }
  unfold _beam_stiffness. py_run.
  unfold list_getitem. rewrite H1. cbv iota beta.
  unfold dict_getitem at 1. rewrite H2. cbv iota beta.
  rewrite H3. cbv iota beta.
  unfold dict_getitem at 1. rewrite H4. cbv iota beta.
  unfold dict_getitem at 1. rewrite H5. cbv iota beta.
  rewrite H6'. cbv iota beta.
  unfold element_length, py_pow2. cbn [ffinite R_scalar andb negb res_bind].
  rewrite HG. cbv iota beta. rewrite Hd. cbv iota beta.
  eexists. reflexivity.
Qed.

End BeamRuns.

(** The theorem on the beam along x over the reals. *)
Lemma _beam_stiffness_witness :
  exists k_global dofs,
    _beam_stiffness (element 1 BEAM [0; 1]%Z 1 (Some 1%Z)) unit_beam_exact
    = (Val (k_global, dofs), unit_beam_exact) /\
    exists n1 n2 node1 node2,
      [0; 1]%Z !! 0%nat = Some n1 /\ dict_get n1 (nodes (fem unit_beam_exact)) = Some node1 /\
      [0; 1]%Z !! 1%nat = Some n2 /\ dict_get n2 (nodes (fem unit_beam_exact)) = Some node2 /\
      symmetric k_global /\
      (bar_length node1 node2 <> 0%R ->
       forall tx ty tz rx ry rz,
         mat_matvec k_global (rigid_motion (bar_length node1 node2) tx ty tz rx ry rz)
         = Val (replicate 12 0%R)).
Proof.
  destruct (_beam_stiffness_runs (element 1 BEAM [0; 1]%Z 1 (Some 1%Z)) unit_beam_exact
              0 1 (node 0 0 0 0)%R (node 1 1 0 0)%R steel_exact beam_section_exact
              [0; 1; 2; 3; 4; 5; 6; 7; 8; 9; 10; 11]%Z)
    as [k_global H]; try reflexivity.
  { simpl. lra. }
  exists k_global, [0; 1; 2; 3; 4; 5; 6; 7; 8; 9; 10; 11]%Z.
  split; [exact H|].
  exact (_beam_stiffness_symmetric_and_rigid_motion_free _ _ _ _ _ H).
Defined.
